(** * AthleticsUtils: a shallow embedding of the calculators and of the
      scoring-table extractor, with the properties proved about them.

    The development follows the layout of the repository:

    - [Js]: the fragment of the JavaScript runtime the sources rely on
      (numbers, [parseFloat], [parseInt], [toFixed], string helpers);
    - [Lookup]: [calculators/performance-lookup.js];
    - [Extractor]: [tools/scoring-table-extractor/index.js];
    - [PaceFormatter]: [utils/pace-formatter.js];
    - [Collapsible]: [utils/collapsible-section.js];
    - [PaceEngine]: [calculators/pace-calculator.js];
    - [PacePage]: the parts of [pages/pace-calculator.js] that compute
      splits and install the collapsible panels;
    - [Merge]: the extractor's tables in a run with [--merge];
    - [SplitTurns]: the two split loops, turn by turn, in binary64.

    Numbers.  A JavaScript number is modelled as a rational, plus the three
    special values [NaN], [+Infinity] and [-Infinity] where the code can
    observe them; the sign of zero is not represented.  [Js.binary64]
    rounds a rational to the nearest binary64 number, ties to even, and
    [add64], [sub64], [mul64] and [div64] are the rounded operations.  The
    lookup ([Lookup]) and the turns of the split loops ([SplitTurns]), where
    a rounding decides the outcome, are embedded with the rounded
    operations.  Elsewhere arithmetic is exact, and the pace engine, whose
    functions are only ever called on finite numbers, is embedded over [Q]
    directly: what is proved there of a computed number holds of the
    program up to rounding.

    Strings.  A string is the sequence of the bytes of its UTF-8 form, so
    that the white space beyond ASCII can be told apart. *)

From Stdlib Require Import ZArith QArith Qpower Qround Qabs List String Ascii.
From Stdlib Require Import Lia Bool.
From Stdlib Require Import DecimalString Sorting.Sorted Permutation Lqa.
From stdpp Require Import gmap strings list.

Local Open Scope string_scope.
Local Open Scope Z_scope.

(* ===================================================================== *)
(** * The JavaScript fragment                                             *)
(* ===================================================================== *)

Module Js.

(** ** Numbers *)

Inductive number : Type :=
| NaN
| PInf
| NInf
| Fin (q : Q).

Definition isNaN (n : number) : bool :=
  match n with NaN => true | _ => false end.

Definition Qltb (x y : Q) : bool :=
  match (x ?= y)%Q with Lt => true | _ => false end.

(** [Boolean(n)] for a number: false for [NaN] and for zero. *)
Definition truthy (n : number) : bool :=
  match n with
  | NaN => false
  | PInf | NInf => true
  | Fin q => negb (Qeq_bool q 0)
  end.

Definition neg (n : number) : number :=
  match n with
  | NaN => NaN
  | PInf => NInf
  | NInf => PInf
  | Fin q => Fin (- q)
  end.

Definition add (a b : number) : number :=
  match a, b with
  | NaN, _ | _, NaN => NaN
  | Fin x, Fin y => Fin (x + y)
  | PInf, NInf | NInf, PInf => NaN
  | PInf, _ | _, PInf => PInf
  | NInf, _ | _, NInf => NInf
  end.

Definition sub (a b : number) : number := add a (neg b).

(** [Math.abs] *)
Definition abs (n : number) : number :=
  match n with
  | NaN => NaN
  | PInf | NInf => PInf
  | Fin q => Fin (Qabs q)
  end.

(** [a < b]; every comparison with [NaN] is false. *)
Definition ltb (a b : number) : bool :=
  match a, b with
  | NaN, _ | _, NaN => false
  | Fin x, Fin y => Qltb x y
  | NInf, NInf | PInf, _ | _, NInf => false
  | NInf, _ | _, PInf => true
  end.

Definition gtb (a b : number) : bool := ltb b a.

(** [a === b] on numbers. *)
Definition eqb (a b : number) : bool :=
  match a, b with
  | Fin x, Fin y => Qeq_bool x y
  | PInf, PInf | NInf, NInf => true
  | _, _ => false
  end.

Definition leb (a b : number) : bool :=
  match a, b with
  | NaN, _ | _, NaN => false
  | Fin x, Fin y => Qle_bool x y
  | NInf, _ | _, PInf => true
  | PInf, _ | _, NInf => false
  end.

Definition geb (a b : number) : bool := leb b a.

(** The sign of a number other than [NaN]; zero counts as positive, there
    being one zero only. *)
Definition negative (n : number) : bool := ltb n (Fin 0).

Definition isZero (n : number) : bool := eqb n (Fin 0).

Definition signed (minus : bool) : number := if minus then NInf else PInf.

Definition mul (a b : number) : number :=
  match a, b with
  | NaN, _ | _, NaN => NaN
  | Fin x, Fin y => Fin (x * y)
  | _, _ =>
      if isZero a || isZero b then NaN
      else signed (xorb (negative a) (negative b))
  end.

Definition div (a b : number) : number :=
  match a, b with
  | NaN, _ | _, NaN => NaN
  | Fin x, Fin y =>
      if Qeq_bool y 0 then
        if Qeq_bool x 0 then NaN else signed (Qltb x 0)
      else Fin (x / y)
  | Fin _, _ => Fin 0
  | _, Fin _ => signed (xorb (negative a) (negative b))
  | _, _ => NaN
  end.

(** Truncation towards zero. *)
Definition Qtrunc (q : Q) : Z :=
  if Qltb q 0 then Qceiling q else Qfloor q.

(** [a % b]: the remainder has the sign of the dividend. *)
Definition rem (a b : number) : number :=
  match a, b with
  | Fin x, Fin y =>
      if Qeq_bool y 0 then NaN else Fin (x - y * inject_Z (Qtrunc (x / y)))
  | Fin x, (PInf | NInf) => Fin x
  | _, _ => NaN
  end.

(** The results of [Math.floor] and [Math.round]: whole numbers, or one of
    the special values. *)
Inductive integral : Type :=
| INaN
| IPInf
| INInf
| Int (z : Z).

Definition ofIntegral (i : integral) : number :=
  match i with
  | INaN => NaN
  | IPInf => PInf
  | INInf => NInf
  | Int z => Fin (inject_Z z)
  end.

Definition ofZ (z : Z) : number := ofIntegral (Int z).

(** [Math.floor] *)
Definition floor (n : number) : integral :=
  match n with
  | NaN => INaN
  | PInf => IPInf
  | NInf => INInf
  | Fin q => Int (Qfloor q)
  end.

(** [Math.round]: the nearest integer, ties towards [+Infinity]. *)
Definition roundI (n : number) : integral :=
  match n with
  | NaN => INaN
  | PInf => IPInf
  | NInf => INInf
  | Fin q => Int (Qfloor (q + (1 # 2)))
  end.

Definition round (n : number) : number := ofIntegral (roundI n).

(** ** Binary64 *)

(** [floor(log2 q)] for a positive [q]. *)
Definition exponentOf (q : Q) : Z :=
  let guess := Z.log2 (Qnum q) - Z.log2 (Z.pos (Qden q)) in
  if Qltb q (2 ^ guess)%Q then guess - 1 else guess.

(** The integer nearest to [q]; of two that are as near, the even one. *)
Definition nearestEven (q : Q) : Z :=
  let lower := Qfloor q in
  match (q - inject_Z lower ?= 1 # 2)%Q with
  | Lt => lower
  | Gt => lower + 1
  | Eq => if Z.even lower then lower else lower + 1
  end.

(** The distance between the binary64 numbers around a positive [q]: 53
    significant bits, and 2^-1074 below the normal range. *)
Definition spacing (q : Q) : Q := (2 ^ Z.max (exponentOf q - 52) (-1074))%Q.

(** The binary64 number nearest to [q], ties to even; from
    2^1024 - 2^970 on, the infinity of its sign. *)
Definition binary64 (q : Q) : number :=
  if Qeq_bool q 0 then Fin 0
  else
    let magnitude := Qabs q in
    let unit := spacing magnitude in
    let rounded := (inject_Z (nearestEven (magnitude / unit)) * unit)%Q in
    if Qle_bool (2 ^ 1024)%Q rounded then signed (Qltb q 0)
    else Fin (Qred (if Qltb q 0 then - rounded else rounded)).

(** A rational stands for the binary64 number nearest to it. *)
Definition round64 (n : number) : number :=
  match n with
  | Fin q => binary64 q
  | other => other
  end.

(** [a + b] and [a - b] as the machine computes them. *)
Definition add64 (a b : number) : number :=
  round64 (add (round64 a) (round64 b)).

Definition sub64 (a b : number) : number :=
  round64 (sub (round64 a) (round64 b)).

(** [a * b] and [a / b] as the machine computes them. *)
Definition mul64 (a b : number) : number :=
  round64 (mul (round64 a) (round64 b)).

Definition div64 (a b : number) : number :=
  round64 (div (round64 a) (round64 b)).

(** The finite binary64 number a literal of the source denotes. *)
Definition literal (q : Q) : Q :=
  match binary64 q with
  | Fin r => r
  | _ => q
  end.

(** A value that is a number, [null] or [undefined]. *)
Inductive value : Type :=
| Null
| Undefined
| Num (n : number).

(** ** Characters and strings *)

Definition isDigit (c : ascii) : bool :=
  let n := nat_of_ascii c in (48 <=? n)%nat && (n <=? 57)%nat.

Definition digitVal (c : ascii) : Z := Z.of_nat (nat_of_ascii c) - 48.

(** A string holds the UTF-8 bytes of the text.  The white space of
    [\s], of [trim] and of the number parsers is U+0009 to U+000D, U+0020,
    U+00A0, U+1680, U+2000 to U+200A, U+2028, U+2029, U+202F, U+205F, U+3000
    and U+FEFF.  [isSpace] is the white space of one byte. *)
Definition isSpace (c : ascii) : bool :=
  let n := nat_of_ascii c in
  ((9 <=? n)%nat && (n <=? 13)%nat) || (n =? 32)%nat.

(** The continuation bytes of the white space that starts with [lead]. *)
Definition spaceTail (lead second third : nat) : bool :=
  if (lead =? 225)%nat then (second =? 154)%nat && (third =? 128)%nat
  else if (lead =? 226)%nat then
    ((second =? 128)%nat &&
     (((128 <=? third)%nat && (third <=? 138)%nat) || (third =? 168)%nat
      || (third =? 169)%nat || (third =? 175)%nat))
    || ((second =? 129)%nat && (third =? 159)%nat)
  else if (lead =? 227)%nat then (second =? 128)%nat && (third =? 128)%nat
  else if (lead =? 239)%nat then (second =? 187)%nat && (third =? 191)%nat
  else false.

(** The number of bytes of the white-space character [s] starts with, and
    0 when it starts with none. *)
Definition spaceWidth (s : string) : nat :=
  match s with
  | String c r =>
      if isSpace c then 1
      else
        match r with
        | String c2 r2 =>
            if (nat_of_ascii c =? 194)%nat && (nat_of_ascii c2 =? 160)%nat
            then 2
            else
              match r2 with
              | String c3 _ =>
                  if spaceTail (nat_of_ascii c) (nat_of_ascii c2)
                       (nat_of_ascii c3)
                  then 3 else 0
              | EmptyString => 0
              end
        | EmptyString => 0
        end
  | EmptyString => 0
  end.

(** Drop the white space [s] starts with; [skip] bytes of a white-space
    character are still to be dropped. *)
Fixpoint skipSpaces (skip : nat) (s : string) : string :=
  match s with
  | String c r =>
      match skip with
      | S more => skipSpaces more r
      | O =>
          match spaceWidth s with
          | S more => skipSpaces more r
          | O => s
          end
      end
  | EmptyString => EmptyString
  end.

Definition dropSpaces (s : string) : string := skipSpaces 0 s.

(** The longest prefix of decimal digits, and what follows it. *)
Fixpoint spanDigits (s : string) : string * string :=
  match s with
  | String c r =>
      if isDigit c then let '(d, t) := spanDigits r in (String c d, t)
      else (EmptyString, s)
  | EmptyString => (EmptyString, EmptyString)
  end.

Fixpoint digitsValue (acc : Z) (s : string) : Z :=
  match s with
  | String c r => digitsValue (10 * acc + digitVal c) r
  | EmptyString => acc
  end.

Fixpoint startsWith (p s : string) : bool :=
  match p, s with
  | EmptyString, _ => true
  | String a p', String b s' => Ascii.eqb a b && startsWith p' s'
  | String _ _, EmptyString => false
  end.

Fixpoint dropN (n : nat) (s : string) : string :=
  match n, s with
  | O, _ => s
  | S n', String _ r => dropN n' r
  | S _, EmptyString => EmptyString
  end.

(** [s.includes(sub)] *)
Fixpoint includes (s sub : string) : bool :=
  startsWith sub s ||
  match s with
  | String _ r => includes r sub
  | EmptyString => false
  end.

Definition upperChar (c : ascii) : ascii :=
  let n := nat_of_ascii c in
  if (97 <=? n)%nat && (n <=? 122)%nat then ascii_of_nat (n - 32) else c.

(** [s.toUpperCase()], on ASCII. *)
Fixpoint toUpperCase (s : string) : string :=
  match s with
  | String c r => String (upperChar c) (toUpperCase r)
  | EmptyString => EmptyString
  end.

(** The decimal digits of an integer, as [String(n)] prints them. *)
Definition showZ (z : Z) : string := NilZero.string_of_int (Z.to_int z).

(** [String(n)] for the result of [Math.floor] or [Math.round]. *)
Definition showIntegral (i : integral) : string :=
  match i with
  | INaN => "NaN"
  | IPInf => "Infinity"
  | INInf => "-Infinity"
  | Int z => showZ z
  end.

(** [s.padStart(2, '0')] *)
Definition padStart2 (s : string) : string :=
  match String.length s with
  | O => "00"
  | S O => String "0" s
  | _ => s
  end.

(** ** [parseFloat] *)

(** The exponent part [e[+-]digits] of a decimal literal; absent or
    malformed, it contributes nothing and is left unread. *)
Definition exponentPart (s : string) : Z :=
  match s with
  | String c r =>
      if Ascii.eqb c "e" || Ascii.eqb c "E" then
        let '(sgn, r') :=
          match r with
          | String "+" t => (1, t)
          | String "-" t => (-1, t)
          | _ => (1, r)
          end in
        let '(d, _) := spanDigits r' in
        match d with
        | EmptyString => 0
        | _ => sgn * digitsValue 0 d
        end
      else 0
  | EmptyString => 0
  end.

(** The value of the longest prefix that is an unsigned decimal literal. *)
Definition unsignedLiteral (s : string) : number :=
  if startsWith "Infinity" s then PInf
  else
    let '(ip, r) := spanDigits s in
    let '(fp, r') :=
      match r with
      | String "." t => spanDigits t
      | _ => (EmptyString, r)
      end in
    match ip, fp with
    | EmptyString, EmptyString => NaN
    | _, _ =>
        let mant := digitsValue (digitsValue 0 ip) fp in
        let e := exponentPart r' - Z.of_nat (String.length fp) in
        Fin (Qred (inject_Z mant * Qpower (10 # 1) e))
    end.

(** The number written at the start of [s], before rounding. *)
Definition parseDecimal (s : string) : number :=
  match dropSpaces s with
  | String "-" r => neg (unsignedLiteral r)
  | String "+" r => unsignedLiteral r
  | t => unsignedLiteral t
  end.

(** [parseFloat(s)]: the binary64 number nearest to the number written. *)
Definition parseFloat (s : string) : number := round64 (parseDecimal s).

(** ** Property names *)

(** The names every plain object inherits from [Object.prototype].  A
    look-up [table[name]] in an object literal finds a function there (an
    object for [__proto__]), not [undefined]. *)
Definition inheritedNames : list string :=
  ["constructor"; "__defineGetter__"; "__defineSetter__"; "hasOwnProperty";
   "__lookupGetter__"; "__lookupSetter__"; "isPrototypeOf";
   "propertyIsEnumerable"; "toString"; "valueOf"; "__proto__";
   "toLocaleString"].

Definition inherited (name : string) : bool :=
  existsb (String.eqb name) inheritedNames.

(** ** [parseInt], radix left out *)

Definition hexVal (c : ascii) : option Z :=
  let n := nat_of_ascii c in
  if isDigit c then Some (digitVal c)
  else if (97 <=? n)%nat && (n <=? 102)%nat then Some (Z.of_nat n - 87)
  else if (65 <=? n)%nat && (n <=? 70)%nat then Some (Z.of_nat n - 55)
  else None.

Fixpoint hexValue (acc : option Z) (s : string) : option Z :=
  match s with
  | String c r =>
      match hexVal c with
      | Some v => hexValue (Some (16 * default 0 acc + v)) r
      | None => acc
      end
  | EmptyString => acc
  end.

Definition unsignedInt (s : string) : option Z :=
  if startsWith "0x" s || startsWith "0X" s then hexValue None (dropN 2 s)
  else
    let '(d, _) := spanDigits s in
    match d with
    | EmptyString => None
    | _ => Some (digitsValue 0 d)
    end.

(** [parseInt(s)]; [None] stands for [NaN]. *)
Definition parseInt (s : string) : option Z :=
  match dropSpaces s with
  | String "-" r => Z.opp <$> unsignedInt r
  | String "+" r => unsignedInt r
  | t => unsignedInt t
  end.

(** ** [toFixed(2)] *)

(** The digits of a non-negative number of hundredths, with the point. *)
Definition hundredths (n : Z) : string :=
  showZ (n / 100) ++ "." ++ padStart2 (showZ (n mod 100)).

(** [x.toFixed(2)]: round half away from zero at the second decimal.
    (From 1e21 on JavaScript prints an exponent instead; the calculators
    stay far below.) *)
Definition toFixed2 (x : number) : string :=
  match x with
  | NaN => "NaN"
  | PInf => "Infinity"
  | NInf => "-Infinity"
  | Fin q =>
      let body := hundredths (Qfloor (Qabs q * 100 + (1 # 2))) in
      if Qltb q 0 then "-" ++ body else body
  end.

End Js.

(* ===================================================================== *)
(** * Performance lookup ([lookupPoints], [lookupPerformance])            *)
(* ===================================================================== *)

Module Lookup.
Import Js.

(** One row [[points, performance]] of an event's scoring table. *)
Definition Entry : Type := (Z * string)%type.

(** The two loaders imported by the lookup module live outside the files
    at hand; the lookup functions only call the three methods below, which
    are taken as given.  An absent result ([null] or [undefined]) is
    [None]. *)
Record Loaders : Type := {
  findCategory : string -> string -> option string;
  getEventData : string -> string -> string -> option (list Entry);
  getHandTimingOffset : string -> option number
}.

(** [if (offset)]: the offset is present, is not [NaN] and is not zero. *)
Definition usableOffset (o : option number) : option number :=
  match o with
  | Some n => if truthy n then Some n else None
  | None => None
  end.

(** [!category]: absent, or the empty string. *)
Definition usableCategory (c : option string) : option string :=
  match c with
  | Some EmptyString => None
  | other => other
  end.

Definition distanceEvents : list string :=
  ["LJ"; "TJ"; "SP"; "DT"; "HT"; "JT"; "PV"; "HJ"].

Definition isFieldEvent (event : string) : bool :=
  existsb (fun code => includes (toUpperCase event) code) distanceEvents.

(** [Math.abs(perfValue - perfNum) < 0.005], the difference and the
    constant being binary64 numbers. *)
Definition withinTolerance (perfValue perfNum : number) : bool :=
  ltb (abs (sub64 perfValue perfNum)) (round64 (Fin 0.005)).

(** The table entry is a worse performance than the user's: a shorter
    distance, or a slower time. *)
Definition beats (isDistanceEvent : bool) (perfNum perfValue : number) : bool :=
  if isDistanceEvent then gtb perfNum perfValue else ltb perfNum perfValue.

(** [if (!lowerPointsEntry || points > lowerPointsEntry[0])] *)
Definition keepHigher (cur : option Entry) (e : Entry) : option Entry :=
  match cur with
  | None => Some e
  | Some c => if (fst e >? fst c)%Z then Some e else cur
  end.

(** [if (!lowerPointsEntry || points < lowerPointsEntry[0])] *)
Definition keepLower (cur : option Entry) (e : Entry) : option Entry :=
  match cur with
  | None => Some e
  | Some c => if (fst e <? fst c)%Z then Some e else cur
  end.

Inductive Scan : Type :=
| ExactAt (e : Entry)
| Tracked (lowerPointsEntry : option Entry).

(** The first loop of [lookupPoints]: leave at the first entry within the
    tolerance, otherwise track the best entry the performance beats. *)
Fixpoint scanPoints (isDistanceEvent : bool) (perfNum : number)
    (eventData : list Entry) (lowerPointsEntry : option Entry) : Scan :=
  match eventData with
  | [] => Tracked lowerPointsEntry
  | e :: rest =>
      let perfValue := parseFloat (snd e) in
      if withinTolerance perfValue perfNum then ExactAt e
      else
        scanPoints isDistanceEvent perfNum rest
          (if beats isDistanceEvent perfNum perfValue
           then keepHigher lowerPointsEntry e
           else lowerPointsEntry)
  end.

(** The fallback loop: the first entry with the least points. *)
Definition lowestEntry (eventData : list Entry) : option Entry :=
  fold_left keepLower eventData None.

Module PointsResult.
Record t : Type := mk {
  points : Z;
  exactMatch : bool;
  closestPerformance : string;
  appliedOffset : option number;
  originalPerformance : option number
}.
End PointsResult.

(** The search proper, once the table and the number to look for are known. *)
Definition searchPoints (isDistanceEvent : bool) (eventData : list Entry)
    (perfNum : number) (appliedOffset originalPerformance : option number)
    : option PointsResult.t :=
  match scanPoints isDistanceEvent perfNum eventData None with
  | ExactAt e =>
      Some (PointsResult.mk (fst e) true (snd e) appliedOffset originalPerformance)
  | Tracked lower =>
      let lower' :=
        match lower with
        | Some _ => lower
        | None => lowestEntry eventData
        end in
      match lower' with
      | Some e =>
          Some (PointsResult.mk (fst e) false (snd e) appliedOffset originalPerformance)
      | None => None
      end
  end.

(** The number the table is searched for: the parsed performance, moved by
    the hand-timing offset when one applies; the sum is the binary64 one. *)
Definition effectivePerformance (L : Loaders) (event performance : string)
    (isHandTimed : bool) : number :=
  let perfNum := parseFloat performance in
  if isHandTimed then
    match usableOffset (getHandTimingOffset L event) with
    | Some offset => add64 perfNum offset
    | None => perfNum
    end
  else perfNum.

Definition lookupPoints (L : Loaders) (gender event performance : string)
    (isHandTimed : bool) : option PointsResult.t :=
  match usableCategory (findCategory L gender event) with
  | None => None
  | Some category =>
      match getEventData L gender category event with
      | None | Some [] => None
      | Some eventData =>
          let perfNum := parseFloat performance in
          let '(perfNum, appliedOffset, originalPerformance) :=
            if isHandTimed then
              match usableOffset (getHandTimingOffset L event) with
              | Some offset => (add64 perfNum offset, Some offset, Some perfNum)
              | None => (perfNum, None, None)
              end
            else (perfNum, None, None) in
          if isNaN perfNum then None
          else
            searchPoints (isFieldEvent event) eventData perfNum
              appliedOffset originalPerformance
      end
  end.

Module PerformanceResult.
Record t : Type := mk {
  performance : string;
  exactMatch : bool;
  points : Z;
  appliedOffset : option number;
  originalPerformance : option string
}.
End PerformanceResult.

Inductive ScanPerf : Type :=
| ExactMatchEntry (e : Entry)
| LowerPointsEntry (lowerPointsEntry : option Entry).

(** [if (entryPoints < targetPoints) { if (!lowerPointsEntry || ...) }] *)
Definition trackBelow (targetPoints : number) (cur : option Entry) (e : Entry)
    : option Entry :=
  if ltb (ofZ (fst e)) targetPoints then keepHigher cur e else cur.

(** The loop of [lookupPerformance]: stop at the first entry with exactly
    the target points, otherwise track the highest entry below the target. *)
Fixpoint scanPerformance (targetPoints : number) (eventData : list Entry)
    (lowerPointsEntry : option Entry) : ScanPerf :=
  match eventData with
  | [] => LowerPointsEntry lowerPointsEntry
  | e :: rest =>
      if eqb (ofZ (fst e)) targetPoints then ExactMatchEntry e
      else scanPerformance targetPoints rest (trackBelow targetPoints lowerPointsEntry e)
  end.

(** The hand-timing block, which the source repeats on both of its return
    paths: subtract the offset from the table performance, in binary64, and
    print the difference with two decimals. *)
Definition adjustForHandTiming (L : Loaders) (event : string) (isHandTimed : bool)
    (performance : string) : string * option number * option string :=
  if isHandTimed then
    match usableOffset (getHandTimingOffset L event) with
    | Some offset =>
        (toFixed2 (sub64 (parseFloat performance) offset),
         Some (neg offset), Some performance)
    | None => (performance, None, None)
    end
  else (performance, None, None).

Definition lookupPerformance (L : Loaders) (gender event : string)
    (points : number) (isHandTimed : bool) : option PerformanceResult.t :=
  let targetPoints := round points in
  match usableCategory (findCategory L gender event) with
  | None => None
  | Some category =>
      match getEventData L gender category event with
      | None | Some [] => None
      | Some eventData =>
          let '(selectedEntry, exact) :=
            match scanPerformance targetPoints eventData None with
            | ExactMatchEntry e => (Some e, true)
            | LowerPointsEntry lower => (lower, false)
            end in
          match selectedEntry with
          | None =>
              match lowestEntry eventData with
              | Some lowest =>
                  let '(performance, appliedOffset, originalPerformance) :=
                    adjustForHandTiming L event isHandTimed (snd lowest) in
                  Some (PerformanceResult.mk performance false (fst lowest)
                          appliedOffset originalPerformance)
              | None => None
              end
          | Some selected =>
              let '(performance, appliedOffset, originalPerformance) :=
                adjustForHandTiming L event isHandTimed (snd selected) in
              Some (PerformanceResult.mk performance exact (fst selected)
                      appliedOffset originalPerformance)
          end
      end
  end.

End Lookup.

(* ===================================================================== *)
(** * The scoring-table extractor                                         *)
(* ===================================================================== *)

Module Extractor.
Import Js.

(** ** Tokens of a data line *)

(** [line.split(/\s+/).filter(col => col.trim())]: the maximal runs of
    characters that are not white space.  [cur] is the run being read, and
    [skip] bytes of a white-space character are still to be passed. *)
Fixpoint splitTokens (skip : nat) (line cur : string) : list string :=
  match line with
  | EmptyString =>
      match cur with
      | EmptyString => []
      | _ => [cur]
      end
  | String c r =>
      match skip with
      | S more => splitTokens more r cur
      | O =>
          match spaceWidth line with
          | S more =>
              match cur with
              | EmptyString => splitTokens more r EmptyString
              | _ => cur :: splitTokens more r EmptyString
              end
          | O => splitTokens O r (cur ++ String c EmptyString)
          end
      end
  end.

(** One group [[.:]\d+] of the simple-value pattern; [colon] tells whether
    the separator may be a colon. *)
Definition separatorGroup (colon : bool) (s : string) : option string :=
  match s with
  | String c r =>
      if Ascii.eqb c "." || (colon && Ascii.eqb c ":") then
        match spanDigits r with
        | (EmptyString, _) => None
        | (_, rest) => Some rest
        end
      else None
  | EmptyString => None
  end.

(** [/^\d+(?:[\.:]\d+){1,2}(?:\.\d+)?$/.test(token)]: a run of digits, then
    one to three groups of a separator and digits, the third of which, when
    present, starts with a point. *)
Definition isSimpleValue (token : string) : bool :=
  match spanDigits token with
  | (EmptyString, _) => false
  | (_, r0) =>
      match separatorGroup true r0 with
      | None => false
      | Some EmptyString => true
      | Some r1 =>
          match separatorGroup true r1 with
          | None => false
          | Some EmptyString => true
          | Some r2 =>
              match separatorGroup false r2 with
              | Some EmptyString => true
              | _ => false
              end
          end
      end
  end.

(** [:\d{2}] at the head of [s]. *)
Definition colonPair (s : string) : option (string * string) :=
  match s with
  | String ":" (String a (String b r)) =>
      if isDigit a && isDigit b
      then Some (String ":" (String a (String b EmptyString)), r)
      else None
  | _ => None
  end.

(** [\.\d{2}] at the head of [s]. *)
Definition pointPair (s : string) : option (string * string) :=
  match s with
  | String "." (String a (String b r)) =>
      if isDigit a && isDigit b
      then Some (String "." (String a (String b EmptyString)), r)
      else None
  | _ => None
  end.

(** One match of [\d+(?::\d{2}){0,2}(?:\.\d{2})?] at the head of [s], with
    what follows it.  Every part after the digits is optional, so the greedy
    choice is never undone. *)
Definition performanceAt (s : string) : option (string * string) :=
  match spanDigits s with
  | (EmptyString, _) => None
  | (d, r0) =>
      let '(c1, r1) :=
        match colonPair r0 with
        | Some (g, r) => (g, r)
        | None => (EmptyString, r0)
        end in
      let '(c2, r2) :=
        match c1 with
        | EmptyString => (EmptyString, r1)
        | _ =>
            match colonPair r1 with
            | Some (g, r) => (g, r)
            | None => (EmptyString, r1)
            end
        end in
      let '(p, r3) :=
        match pointPair r2 with
        | Some (g, r) => (g, r)
        | None => (EmptyString, r2)
        end in
      Some (d ++ c1 ++ c2 ++ p, r3)
  end.

(** [token.match(performancePattern)] with the [g] flag: the successive
    matches, left to right.  Each step reads at least one character, so the
    length of the token is fuel enough. *)
Fixpoint performanceMatchesFrom (fuel : nat) (s : string) : list string :=
  match fuel with
  | O => []
  | S fuel' =>
      match s with
      | EmptyString => []
      | String _ r =>
          match performanceAt s with
          | Some (m, rest) => m :: performanceMatchesFrom fuel' rest
          | None => performanceMatchesFrom fuel' r
          end
      end
  end.

Definition performanceMatches (token : string) : list string :=
  performanceMatchesFrom (String.length token) token.

(** [s.indexOf(m, from)], or [-1]. *)
Fixpoint indexOfAt (s m : string) (i from : Z) : Z :=
  if (from <=? i) && startsWith m s then i
  else
    match s with
    | String _ r => indexOfAt r m (i + 1) from
    | EmptyString => -1
    end.

Definition indexOf (s m : string) (from : Z) : Z := indexOfAt s m 0 from.

Fixpoint takeN (n : nat) (s : string) : string :=
  match n, s with
  | S n', String c r => String c (takeN n' r)
  | _, _ => EmptyString
  end.

(** [s.substring(a, b)]: both ends are clamped to the string and swapped
    when out of order. *)
Definition substring (s : string) (a b : Z) : string :=
  let len := Z.of_nat (String.length s) in
  let a' := Z.max 0 (Z.min a len) in
  let b' := Z.max 0 (Z.min b len) in
  let lo := Z.min a' b' in
  let hi := Z.max a' b' in
  takeN (Z.to_nat (hi - lo)) (dropN (Z.to_nat lo) s).

(** [for (const char of s) if (char === '-') parts.push('-')] *)
Fixpoint dashesOf (s : string) : list string :=
  match s with
  | String c r => if Ascii.eqb c "-" then "-" :: dashesOf r else dashesOf r
  | EmptyString => []
  end.

(** The loop over the matches, followed by the dashes after the last one. *)
Fixpoint rebuildParts (token : string) (matches : list string) (lastIndex : Z)
    : list string :=
  match matches with
  | [] => dashesOf (substring token lastIndex (Z.of_nat (String.length token)))
  | m :: rest =>
      let matchIndex := indexOf token m lastIndex in
      dashesOf (substring token lastIndex matchIndex)
        ++ m :: rebuildParts token rest (matchIndex + Z.of_nat (String.length m))
  end.

(** The body of the [flatMap]: what one token is replaced with. *)
Definition repairToken (token : string) : list string :=
  if String.eqb token "-" || String.eqb token "--" || isSimpleValue token then
    if String.eqb token "--" then ["-"; "-"] else [token]
  else
    match performanceMatches token with
    | [] => [token]
    | matches =>
        match rebuildParts token matches 0 with
        | [] => [token]
        | parts => parts
        end
    end.

Definition allTokens (line : string) : list string :=
  flat_map repairToken (splitTokens 0 line EmptyString).

(** ** Rows *)

Fixpoint allPerformanceChars (s : string) : bool :=
  match s with
  | String c r =>
      (isDigit c || Ascii.eqb c ":" || Ascii.eqb c ".") && allPerformanceChars r
  | EmptyString => true
  end.

(** [null] for a dash, an empty value, or anything that is not made of
    digits, colons and points. *)
Definition parsePerformanceValue (value : string) : option string :=
  if String.eqb value EmptyString || String.eqb value "-" then None
  else if allPerformanceChars value then Some value
  else None.

Record Row : Type := mkRow {
  rowPoints : option Z;
  rowPerformances : list (option string);
  rowEvents : list string
}.

(** [isNaN(points) || points < 0 || points > 1500] *)
Definition rejectedPoints (points : option Z) : bool :=
  match points with
  | None => true
  | Some p => (p <? 0) || (p >? 1500)
  end.

(** The last loop: one cell per event header, [null] past the values. *)
Definition zipPerformances (eventHeaders performanceValues : list string)
    : list (option string) :=
  map (fun i =>
         match nth_error performanceValues i with
         | Some v => parsePerformanceValue v
         | None => None
         end)
      (seq 0 (List.length eventHeaders)).

Definition parseCrossReferencedRow (line : string) (eventHeaders : list string)
    (pointsPosition : string) : option Row :=
  match allTokens line with
  | [] => None
  | (first :: others) as tokens =>
      if String.eqb pointsPosition "left" then
        let points := parseInt first in
        if rejectedPoints points then None
        else Some (mkRow points (zipPerformances eventHeaders others) eventHeaders)
      else if String.eqb pointsPosition "right" then
        let points := parseInt (List.last tokens EmptyString) in
        if rejectedPoints points then None
        else
          Some (mkRow points
                  (zipPerformances eventHeaders (removelast tokens)) eventHeaders)
      else Some (mkRow None (zipPerformances eventHeaders []) eventHeaders)
  end.

(** ** Cleaning the tables *)

(** A row as [storeCrossReferencedData] pushes it.  In a run with
    [--merge] the lists also hold the arrays that [loadAndMerge] pushes:
    those runs are the matter of [Merge]. *)
Record TableEntry : Type := mkEntry {
  performance : string;
  points : Z
}.

(** A [Map] keyed by performance, in insertion order. *)
Definition UniqueMap : Type := list (string * TableEntry).

Fixpoint mapGet (key : string) (m : UniqueMap) : option TableEntry :=
  match m with
  | [] => None
  | (k, v) :: r => if String.eqb k key then Some v else mapGet key r
  end.

(** [Map.prototype.set]: a key already present keeps its place. *)
Fixpoint mapSet (key : string) (v : TableEntry) (m : UniqueMap) : UniqueMap :=
  match m with
  | [] => [(key, v)]
  | (k, x) :: r =>
      if String.eqb k key then (k, v) :: r else (k, x) :: mapSet key v r
  end.

(** The body of the de-duplication loop. *)
Definition remember (m : UniqueMap) (entry : TableEntry) : UniqueMap :=
  let key := performance entry in
  match mapGet key m with
  | None => mapSet key entry m
  | Some seen => if (points seen <? points entry)%Z then mapSet key entry m else m
  end.

Definition uniqueEntries (entries : list TableEntry) : list TableEntry :=
  map snd (fold_left remember entries []).

(** [Array.prototype.sort(cmp)], which is stable: insertion from the left,
    each element going after those that do not have to follow it. *)
Fixpoint insertBy {A : Type} (cmp : A -> A -> Z) (x : A) (l : list A) : list A :=
  match l with
  | [] => [x]
  | y :: r => if (cmp y x <=? 0)%Z then y :: insertBy cmp x r else x :: l
  end.

Definition sortBy {A : Type} (cmp : A -> A -> Z) (l : list A) : list A :=
  fold_left (fun acc x => insertBy cmp x acc) l [].

(** [(a, b) => b.points - a.points] *)
Definition byPointsDescending (a b : TableEntry) : Z := points b - points a.

Definition cleanEntries (entries : list TableEntry) : list TableEntry :=
  sortBy byPointsDescending (uniqueEntries entries).

(** [cleanAndSortData] over [this.tables] (gender, then category, then
    event name) when every row is an object, as in a run without
    [--merge]; [Merge.cleanRows] is the same loop over the rows of a run
    with it. *)
Definition cleanAndSortData
    (tables : gmap string (gmap string (gmap string (list TableEntry))))
    : gmap string (gmap string (gmap string (list TableEntry))) :=
  (fun categories : gmap string (gmap string (list TableEntry)) =>
     (fun events : gmap string (list TableEntry) =>
        cleanEntries <$> events) <$> categories) <$> tables.

(** [this.tables[gender][category][eventName]] *)
Definition tableAt
    (tables : gmap string (gmap string (gmap string (list TableEntry))))
    (gender category eventName : string) : option (list TableEntry) :=
  match tables !! gender with
  | Some categories =>
      match categories !! category with
      | Some events => events !! eventName
      | None => None
      end
  | None => None
  end.

End Extractor.

(* ===================================================================== *)
(** * The pace formatter                                                  *)
(* ===================================================================== *)

Module PaceFormatter.
Import Js.

Fixpoint allZeros (s : string) : bool :=
  match s with
  | String c EmptyString => Ascii.eqb c "0"
  | String c r => Ascii.eqb c "0" && allZeros r
  | EmptyString => false
  end.

(** [\.?0+$] matches the whole of [s]. *)
Definition zeroTail (s : string) : bool :=
  allZeros s ||
  match s with
  | String "." r => allZeros r
  | _ => false
  end.

(** [s.replace(/\.?0+$/, '')]: cut at the leftmost position from which the
    rest of the string is an optional point and zeros. *)
Fixpoint trimZeros (s : string) : string :=
  if zeroTail s then EmptyString
  else
    match s with
    | String c r => String c (trimZeros r)
    | EmptyString => EmptyString
    end.

Definition formatSubMinuteTime (seconds : number) : string :=
  let rounded := div (ofIntegral (roundI (mul seconds (Fin 100)))) (Fin 100) in
  if geb rounded (Fin 60) then
    let minutes := floor (div rounded (Fin 60)) in
    let secs := roundI (rem rounded (Fin 60)) in
    showIntegral minutes ++ ":" ++ padStart2 (showIntegral secs)
  else
    let formatted := toFixed2 rounded in
    let formatted := trimZeros formatted in
    formatted ++ "s".

(** The part shared, word for word, by [formatPaceTime] and
    [formatTotalTime] past the sub-minute case. *)
Definition clockTime (seconds : number) : string :=
  let hours := floor (div seconds (Fin 3600)) in
  let minutes := floor (div (rem seconds (Fin 3600)) (Fin 60)) in
  let secs := roundI (rem seconds (Fin 60)) in
  if gtb (ofIntegral hours) (Fin 0) then
    showIntegral hours ++ ":" ++ padStart2 (showIntegral minutes)
      ++ ":" ++ padStart2 (showIntegral secs)
  else
    showIntegral minutes ++ ":" ++ padStart2 (showIntegral secs).

Definition formatPaceTime (seconds : value) : string :=
  match seconds with
  | Null | Undefined => EmptyString
  | Num n =>
      if isNaN n || ltb n (Fin 0) then EmptyString
      else if ltb n (Fin 60) then formatSubMinuteTime n
      else clockTime n
  end.

Definition formatTotalTime (seconds : value) : string :=
  match seconds with
  | Null | Undefined => EmptyString
  | Num n =>
      if isNaN n || ltb n (Fin 0) then EmptyString
      else if ltb n (Fin 60) then formatSubMinuteTime n
      else clockTime n
  end.

(** [String(x)] for a number with at most two decimals, the only numbers
    the split labels print: the digits of [x.toFixed(2)] without the zeros
    at the end. *)
Definition showHundredths (x : Q) : string :=
  let digits := trimZeros (toFixed2 (Fin (Qabs x))) in
  if String.eqb digits "0" then "0"
  else if Qltb x 0 then "-" ++ digits else digits.

(** [parseFloat(x.toFixed(2))] on a finite number. *)
Definition roundHundredths (x : Q) : Q :=
  let n := Qfloor (Qabs x * 100 + (1 # 2)) in
  if Qltb x 0 then Qred (- (n # 100)) else Qred (n # 100).

Definition getSingularPluralUnit (value : Q) (unit : string) : string :=
  if String.eqb unit "km" || String.eqb unit "m" then unit
  else if Qeq_bool value 1 then
    if String.eqb unit "miles" then "mile"
    else if String.eqb unit "feet" then "foot"
    else if String.eqb unit "yards" then "yard"
    else unit
  else unit.

Definition needsSpacing (unit : string) : bool :=
  existsb (String.eqb unit) ["miles"; "mile"; "feet"; "foot"; "yards"; "yard"].

Definition formatDistanceWithUnit (value : Q) (unit : string) : string :=
  let displayUnit := getSingularPluralUnit value unit in
  let spacing := if needsSpacing displayUnit then " " else EmptyString in
  showHundredths value ++ spacing ++ displayUnit.

(** [toMetres[unit] || 1], for a unit name that is not one of
    [Js.inheritedNames].  On those the table, a plain object, yields what
    it inherits, and the product is [NaN]: the properties below leave
    those names out. *)
Definition toMetres (unit : string) : Q :=
  if String.eqb unit "m" then 1
  else if String.eqb unit "km" then 1000
  else if String.eqb unit "miles" then 1609.344
  else if String.eqb unit "yards" then 0.9144
  else if String.eqb unit "feet" then 0.3048
  else 1.

Definition normalizeUnit (unit : string) : string :=
  if String.eqb unit "metres" then "m" else unit.

(** [convertDistance] on a finite distance; the guard on [null] and [NaN]
    cannot fire there. *)
Definition convertDistance (distance : Q) (fromUnit toUnit : string) : Q :=
  if String.eqb fromUnit toUnit then distance
  else
    let fromUnit := normalizeUnit fromUnit in
    let toUnit := normalizeUnit toUnit in
    let metres := (distance * toMetres fromUnit)%Q in
    (metres / toMetres toUnit)%Q.

End PaceFormatter.

(* ===================================================================== *)
(** * Collapsible sections                                                *)
(* ===================================================================== *)

Module Collapsible.

(** What [makeCollapsible] leaves on the title, the content and the icon. *)
Record Section : Type := mkSection {
  storageKey : string;
  contentCollapsed : bool;
  iconCollapsed : bool;
  ariaExpanded : string;
  role : string;
  tabindex : string
}.

(** [storedState !== null ? storedState === 'true' : defaultCollapsed] *)
Definition isCollapsed (sessionStorage : gmap string string) (storageKey : string)
    (defaultCollapsed : bool) : bool :=
  match sessionStorage !! storageKey with
  | Some storedState => String.eqb storedState "true"
  | None => defaultCollapsed
  end.

Definition makeCollapsible (sessionStorage : gmap string string)
    (storageKey : string) (defaultCollapsed : bool) : Section :=
  let collapsed := isCollapsed sessionStorage storageKey defaultCollapsed in
  mkSection storageKey collapsed collapsed
    (if collapsed then "false" else "true") "button" "0".

(** The click handler: toggle both classes, and store the new state. *)
Definition click (sessionStorage : gmap string string) (s : Section)
    : gmap string string * Section :=
  let nowCollapsed := negb (contentCollapsed s) in
  (<[storageKey s := if nowCollapsed then "true" else "false"]> sessionStorage,
   mkSection (storageKey s) nowCollapsed (negb (iconCollapsed s))
     (if nowCollapsed then "false" else "true") (role s) (tabindex s)).

End Collapsible.

(* ===================================================================== *)
(** * The pace calculation engine                                         *)
(* ===================================================================== *)

Module PaceEngine.
Import Js PaceFormatter.

Local Open Scope Q_scope.

(** A call either returns, or throws an [Error] with a message. *)
Inductive Outcome : Type :=
| Returned (result : Q)
| Thrown (message : string).

(** The distance counted in pace units, as both [calculatePace] and
    [calculateTotalTime] compute it, line for line. *)
Definition adjustedDistance (distanceMetres : Q) (paceUnit : string) : Q :=
  let targetUnit :=
    if String.eqb paceUnit "mile" then "miles"
    else if String.eqb paceUnit "400m" || String.eqb paceUnit "200m"
            || String.eqb paceUnit "100m" then "m"
    else "km" in
  let distanceInPaceUnit := convertDistance distanceMetres "metres" targetUnit in
  if String.eqb paceUnit "400m" then distanceInPaceUnit / 400
  else if String.eqb paceUnit "200m" then distanceInPaceUnit / 200
  else if String.eqb paceUnit "100m" then distanceInPaceUnit / 100
  else distanceInPaceUnit.

Definition calculatePace (distanceMetres totalTimeSeconds : Q) (paceUnit : string)
    : Outcome :=
  if Qle_bool distanceMetres 0 || Qle_bool totalTimeSeconds 0 then
    Thrown "Distance and time must be greater than 0"
  else Returned (totalTimeSeconds / adjustedDistance distanceMetres paceUnit).

Definition calculateTotalTime (distanceMetres paceSecondsPerUnit : Q)
    (paceUnit : string) : Outcome :=
  if Qle_bool distanceMetres 0 || Qle_bool paceSecondsPerUnit 0 then
    Thrown "Distance and pace must be greater than 0"
  else Returned (paceSecondsPerUnit * adjustedDistance distanceMetres paceUnit).

(** [conversions[speedUnit] || 1] in [calculateSpeed] *)
Definition speedFactor (speedUnit : string) : Q :=
  if String.eqb speedUnit "ms" then 1
  else if String.eqb speedUnit "kmh" then 3.6
  else if String.eqb speedUnit "mph" then 2.23694
  else if String.eqb speedUnit "fts" then 3.28084
  else if String.eqb speedUnit "yds" then 1.09361
  else 1.

(** [conversions[speedUnit] || 1] in [calculateTotalTimeFromSpeed] *)
Definition speedToMetresPerSecond (speedUnit : string) : Q :=
  if String.eqb speedUnit "ms" then 1
  else if String.eqb speedUnit "kmh" then 1 / 3.6
  else if String.eqb speedUnit "mph" then 1 / 2.23694
  else if String.eqb speedUnit "fts" then 1 / 3.28084
  else if String.eqb speedUnit "yds" then 1 / 1.09361
  else 1.

Definition calculateSpeed (distanceMetres totalTimeSeconds : Q) (speedUnit : string)
    : Outcome :=
  if Qle_bool distanceMetres 0 || Qle_bool totalTimeSeconds 0 then
    Thrown "Distance and time must be greater than 0"
  else
    let metresPerSecond := distanceMetres / totalTimeSeconds in
    Returned (metresPerSecond * speedFactor speedUnit).

Definition calculateTotalTimeFromSpeed (distanceMetres speed : Q) (speedUnit : string)
    : Outcome :=
  if Qle_bool distanceMetres 0 || Qle_bool speed 0 then
    Thrown "Distance and speed must be greater than 0"
  else
    let metresPerSecond := speed * speedToMetresPerSecond speedUnit in
    Returned (distanceMetres / metresPerSecond).

(** ** Splits *)

Record IntervalInfo : Type := mkInfo {
  metres : Q;
  value : Q;
  unit : string
}.

Record EventConfig : Type := mkEventConfig {
  displayName : string
}.

Record Split : Type := mkSplit {
  distanceLabel : string;
  splitDistanceLabel : string;
  splitTime : Q;
  time : Q
}.

(** [Math.floor(distanceMetres / splitIntervalMetres) >= 100].  A division
    by zero gives [Infinity] for a positive distance, and [NaN] or
    [-Infinity] otherwise. *)
Definition tooManySplits (distanceMetres splitIntervalMetres : Q) : bool :=
  if Qeq_bool splitIntervalMetres 0 then Qltb 0 distanceMetres
  else (100 <=? Qfloor (distanceMetres / splitIntervalMetres))%Z.

(** The first loop of [calculateSmartSplits]; [None] when the fuel runs out
    before the loop is left. *)
Fixpoint growInterval (fuel : nat) (distanceMetres : Q)
    (multiplier splitIntervalMetres intervalValue : Q) : option (Q * Q * Q) :=
  if tooManySplits distanceMetres splitIntervalMetres then
    match fuel with
    | O => None
    | S fuel' =>
        growInterval fuel' distanceMetres
          (multiplier * 10) (splitIntervalMetres * 10) (intervalValue * 10)
    end
  else Some (multiplier, splitIntervalMetres, intervalValue).

(** One turn of the split loop: the next cumulative distance, the sum
    being exact.  The machine rounds the sum, which can cost the loop a
    turn more: [SplitTurns] counts the turns with the rounded sum. *)
Definition advance (distanceMetres splitIntervalMetres currentDistanceMetres : Q) : Q :=
  let next := currentDistanceMetres + splitIntervalMetres in
  if Qltb distanceMetres next then distanceMetres else next.

(** The second loop of [calculateSmartSplits], in exact arithmetic: the
    rows and their times.  For the number of turns in binary64 see
    [SplitTurns.splitDistances]. *)
Fixpoint smartLoop (fuel : nat) (distanceMetres pacePerKm splitIntervalMetres : Q)
    (adjustedIntervalInfo : IntervalInfo)
    (currentDistanceMetres previousDistanceMetres previousTime : Q)
    : option (list Split) :=
  if Qltb currentDistanceMetres distanceMetres then
    match fuel with
    | O => None
    | S fuel' =>
        let currentDistanceMetres :=
          advance distanceMetres splitIntervalMetres currentDistanceMetres in
        let cumulativeTime := (currentDistanceMetres / 1000) * pacePerKm in
        let splitDistanceMetres := currentDistanceMetres - previousDistanceMetres in
        let splitTime := cumulativeTime - previousTime in
        let distanceInIntervalUnits :=
          currentDistanceMetres / splitIntervalMetres * value adjustedIntervalInfo in
        let formattedValue := roundHundredths distanceInIntervalUnits in
        let distanceLabel :=
          (showHundredths formattedValue ++ unit adjustedIntervalInfo)%string in
        let splitDistanceInIntervalUnits :=
          splitDistanceMetres / splitIntervalMetres * value adjustedIntervalInfo in
        let splitFormattedValue := roundHundredths splitDistanceInIntervalUnits in
        let splitDistanceLabel :=
          (showHundredths splitFormattedValue ++ unit adjustedIntervalInfo)%string in
        cons (mkSplit distanceLabel splitDistanceLabel splitTime cumulativeTime)
          <$> smartLoop fuel' distanceMetres pacePerKm splitIntervalMetres
                adjustedIntervalInfo
                currentDistanceMetres currentDistanceMetres cumulativeTime
    end
  else Some [].

Definition calculateSmartSplits (fuel : nat) (distanceMetres pacePerKm : Q)
    (eventConfig : EventConfig) (initialSplitIntervalMetres : Q)
    (splitIntervalInfo : IntervalInfo) : option (list Split) :=
  match growInterval fuel distanceMetres 1 initialSplitIntervalMetres
          (value splitIntervalInfo) with
  | None => None
  | Some (_, splitIntervalMetres, intervalValue) =>
      let adjustedIntervalInfo :=
        mkInfo (metres splitIntervalInfo) intervalValue (unit splitIntervalInfo) in
      smartLoop fuel distanceMetres pacePerKm splitIntervalMetres
        adjustedIntervalInfo 0 0 0
  end.

End PaceEngine.

(* ===================================================================== *)
(** * The pace calculator page                                            *)
(* ===================================================================== *)

Module PacePage.
Import Js PaceFormatter PaceEngine Collapsible.

Local Open Scope Q_scope.

(** The loop of [calculateCustomSplits], in exact arithmetic;
    [paceIntervalInfo] is [None] when the caller passes none, and the
    labels are then in kilometres.  For the number of turns in binary64
    see [SplitTurns.splitDistances]. *)
Fixpoint customLoop (fuel : nat) (distanceMetres pacePerKm splitIntervalMetres : Q)
    (paceIntervalInfo : option IntervalInfo)
    (currentDistanceMetres previousDistanceMetres previousTime : Q)
    : option (list Split) :=
  let splitUnit :=
    match paceIntervalInfo with
    | Some info => unit info
    | None => "km"%string
    end in
  if Qltb currentDistanceMetres distanceMetres then
    match fuel with
    | O => None
    | S fuel' =>
        let currentDistanceMetres :=
          advance distanceMetres splitIntervalMetres currentDistanceMetres in
        let cumulativeTime := (currentDistanceMetres / 1000) * pacePerKm in
        let splitDistanceMetres := currentDistanceMetres - previousDistanceMetres in
        let splitTime := cumulativeTime - previousTime in
        let distanceLabel :=
          match paceIntervalInfo with
          | Some info =>
              let distanceInIntervalUnits :=
                currentDistanceMetres / splitIntervalMetres * value info in
              formatDistanceWithUnit (roundHundredths distanceInIntervalUnits) splitUnit
          | None =>
              formatDistanceWithUnit
                (roundHundredths (currentDistanceMetres / 1000)) "km"
          end in
        let splitDistanceLabel :=
          match paceIntervalInfo with
          | Some info =>
              let splitDistanceInIntervalUnits :=
                splitDistanceMetres / splitIntervalMetres * value info in
              formatDistanceWithUnit
                (roundHundredths splitDistanceInIntervalUnits) splitUnit
          | None =>
              formatDistanceWithUnit
                (roundHundredths (splitDistanceMetres / 1000)) "km"
          end in
        cons (mkSplit distanceLabel splitDistanceLabel splitTime cumulativeTime)
          <$> customLoop fuel' distanceMetres pacePerKm splitIntervalMetres
                paceIntervalInfo
                currentDistanceMetres currentDistanceMetres cumulativeTime
    end
  else Some [].

Definition calculateCustomSplits (fuel : nat) (distanceMetres pacePerKm : Q)
    (eventConfig : EventConfig) (splitIntervalMetres : Q)
    (paceIntervalInfo : option IntervalInfo) : option (list Split) :=
  customLoop fuel distanceMetres pacePerKm splitIntervalMetres paceIntervalInfo 0 0 0.

(** The call that ends each of the four [display...Results] methods. *)
Definition equivalentsPanel (sessionStorage : gmap string string) : Section :=
  makeCollapsible sessionStorage "paceCalculator.equivalentPaces.collapsed" true.

(** The call that ends [displaySplits], which returns early on an empty
    list of splits. *)
Definition displaySplits (sessionStorage : gmap string string) (splits : list Split)
    : option Section :=
  match splits with
  | [] => None
  | _ => Some (makeCollapsible sessionStorage "paceCalculator.splitTimes.collapsed" false)
  end.

End PacePage.

(* ===================================================================== *)
(** * Vocabulary of the statements, and sample data                       *)
(* ===================================================================== *)

Module Spec.
Import Js Lookup.

(** [best] is what a loop tracking the highest entry satisfying [P] holds
    after running over [table] from the initial value [start]. *)
Definition highestAmong (P : Entry -> bool) (table : list Entry)
    (start best : option Entry) : Prop :=
  match best with
  | None => start = None /\ forall e, In e table -> P e = false
  | Some b =>
      (start = Some b \/ (In b table /\ P b = true)) /\
      (forall a, start = Some a -> fst a <= fst b) /\
      (forall e, In e table -> P e = true -> fst e <= fst b)
  end.

(** Likewise for a loop tracking the lowest entry of all. *)
Definition lowestAmong (table : list Entry) (start least : option Entry) : Prop :=
  match least with
  | None => start = None /\ table = []
  | Some b =>
      (start = Some b \/ In b table) /\
      (forall a, start = Some a -> fst b <= fst a) /\
      (forall e, In e table -> fst b <= fst e)
  end.

(** The performance [lookupPerformance] read from the table: the one it
    returns, or the one it kept aside when it adjusted for hand timing. *)
Definition tablePerformance (r : PerformanceResult.t) : string :=
  match PerformanceResult.originalPerformance r with
  | Some p => p
  | None => PerformanceResult.performance r
  end.

(** What the de-duplication loop maintains: [m] is the map after the
    entries [seen] have been read.  Keys are unique; each value is one of
    the entries read, is filed under its own performance, and has the most
    points of the entries read with that performance; and every entry read
    has its performance among the keys. *)
Definition remembers (m : Extractor.UniqueMap) (seen : list Extractor.TableEntry)
    : Prop :=
  List.NoDup (map fst m) /\
  (forall k v, In (k, v) m ->
     Extractor.performance v = k /\ In v seen /\
     forall y, In y seen -> Extractor.performance y = k ->
               Extractor.points y <= Extractor.points v) /\
  (forall y, In y seen -> In (Extractor.performance y) (map fst m)).

(** The order the cleaned lists are in: points never increase. *)
Definition pointsDescend (a b : Extractor.TableEntry) : Prop :=
  Extractor.points b <= Extractor.points a.

(** A table with the two rows of the 100 m example, and an offset of
    0.24 s for hand timing. *)
Definition sampleLoaders : Loaders := {|
  findCategory := fun _ _ => Some "sprints";
  getEventData := fun _ _ _ => Some [(1220, "10.40"); (1200, "10.50")];
  getHandTimingOffset := fun _ => Some (Fin 0.24)
|}.

Fixpoint allDigits (s : string) : bool :=
  match s with
  | String c r => isDigit c && allDigits r
  | EmptyString => true
  end.

(** The strict reading of a points token, in the words of the
    specification: an integer, written with decimal digits and nothing
    else; no fractional points. *)
Definition strictPoints (token : string) : option Z :=
  match token with
  | EmptyString => None
  | _ => if allDigits token then Some (digitsValue 0 token) else None
  end.

(** Raw tables with one event: a performance read twice, and points out
    of order. *)
(** U+00A0, the no-break space, in UTF-8. *)
Definition noBreakSpace : string :=
  String (ascii_of_nat 194) (String (ascii_of_nat 160) EmptyString).

(** A data line in which a no-break space stands between two spaces. *)
Definition paddedLine : string := "1200 " ++ noBreakSpace ++ " 10.50".

Definition sampleRaw : list Extractor.TableEntry :=
  [Extractor.mkEntry "10.00" 900; Extractor.mkEntry "10.30" 500;
   Extractor.mkEntry "9.80" 1200; Extractor.mkEntry "10.00" 950;
   Extractor.mkEntry "10.10" 800].

Definition sampleTables
    : gmap string (gmap string (gmap string (list Extractor.TableEntry))) :=
  {[ "men" := {[ "sprints" := {[ "100m" := sampleRaw ]} ]} ]}.

Definition sampleCleaned : list Extractor.TableEntry :=
  [Extractor.mkEntry "9.80" 1200; Extractor.mkEntry "10.00" 950;
   Extractor.mkEntry "10.10" 800; Extractor.mkEntry "10.30" 500].

(** The number of turns the split loop of [calculateCustomSplits] and of
    [calculateSmartSplits] takes from the cumulative distance [cur]; [None]
    when the fuel runs out first. *)
Fixpoint turns (fuel : nat) (distanceMetres splitIntervalMetres cur : Q)
    : option nat :=
  if Qltb cur distanceMetres then
    match fuel with
    | O => None
    | S fuel' =>
        S <$> turns fuel' distanceMetres splitIntervalMetres
                (PaceEngine.advance distanceMetres splitIntervalMetres cur)
    end
  else Some O.

Definition sampleEvent : PaceEngine.EventConfig :=
  PaceEngine.mkEventConfig "10 km".

End Spec.

(* ===================================================================== *)
(** * Performance lookup: ranges and the closest entry                    *)
(* ===================================================================== *)

Module Ranges.
Import Js Lookup.

(** [Math.min(a, b)] and [Math.max(a, b)]: [NaN] as soon as one argument
    is [NaN]. *)
Definition min (a b : number) : number :=
  match a, b with
  | NaN, _ | _, NaN => NaN
  | _, _ => if ltb b a then b else a
  end.

Definition max (a b : number) : number :=
  match a, b with
  | NaN, _ | _, NaN => NaN
  | _, _ => if ltb a b then b else a
  end.

(** The loop of [getPointsRange], from [Infinity] and [-Infinity]. *)
Definition pointsBounds (eventData : list Entry) : number * number :=
  fold_left
    (fun '(lo, hi) e => (min lo (ofZ (fst e)), max hi (ofZ (fst e))))
    eventData (PInf, NInf).

Definition getPointsRange (L : Loaders) (gender event : string)
    : option (number * number) :=
  match usableCategory (findCategory L gender event) with
  | None => None
  | Some category =>
      match getEventData L gender category event with
      | None | Some [] => None
      | Some eventData => Some (pointsBounds eventData)
      end
  end.

Record PerformanceRange : Type := mkRange {
  rangeMin : number;
  rangeMax : number;
  minPerformance : option string;
  maxPerformance : option string
}.

(** [Math.min(...performances)] and [Math.max(...performances)]. *)
Definition minOf (performances : list number) : number :=
  fold_left min performances PInf.

Definition maxOf (performances : list number) : number :=
  fold_left max performances NInf.

(** The second loop of [getPerformanceRange]: the last string whose number
    is the bound. *)
Definition lastWith (bound : number) (eventData : list Entry) : option string :=
  fold_left
    (fun found e => if eqb (parseFloat (snd e)) bound then Some (snd e) else found)
    eventData None.

Definition getPerformanceRange (L : Loaders) (gender event : string)
    : option PerformanceRange :=
  match usableCategory (findCategory L gender event) with
  | None => None
  | Some category =>
      match getEventData L gender category event with
      | None | Some [] => None
      | Some eventData =>
          let performances := map (fun e => parseFloat (snd e)) eventData in
          let lo := minOf performances in
          let hi := maxOf performances in
          Some (mkRange lo hi (lastWith lo eventData) (lastWith hi eventData))
      end
  end.

(** The inner loop of [findEquivalentPerformances], which picks the row of
    one event: stop at the first row with exactly the points asked for,
    otherwise keep the first row at the least distance from them.  The
    result is the row and the [exactMatch] flag. *)
Fixpoint closestEntry (points : number) (eventData : list Entry)
    (closest : option Entry) : option Entry * bool :=
  match eventData with
  | [] => (closest, false)
  | e :: rest =>
      if eqb (ofZ (fst e)) points then (Some e, true)
      else
        closestEntry points rest
          (match closest with
           | None => Some e
           | Some c =>
               let currentDiff := abs (sub (ofZ (fst e)) points) in
               let closestDiff := abs (sub (ofZ (fst c)) points) in
               if ltb currentDiff closestDiff then Some e else closest
           end)
  end.

End Ranges.

(* ===================================================================== *)
(** * The extractor: storing rows, comparing tables                       *)
(* ===================================================================== *)

Module Storage.
Import Js Extractor.

(** The section the extractor is reading: [null] until detected. *)
Record SectionState : Type := mkSectionState {
  sectionGender : option string;
  sectionCategory : option string
}.

(** [!s] fails: the string is there and is not empty. *)
Definition present (s : option string) : option string :=
  match s with
  | Some EmptyString => None
  | other => other
  end.

(** [a || b] on strings that may be absent. *)
Definition orElse (a b : option string) : option string :=
  match present a with
  | Some s => Some s
  | None => b
  end.

(** The three initialisations and the [push], for a gender, a category
    and an event name that are not among [Js.inheritedNames]: there a
    lookup in the plain objects of [this.tables] is a lookup of what was
    stored.  Under an inherited name the lookup finds what the object
    inherits, nothing is initialised, and [push] throws. *)
Definition storeEntry
    (tables : gmap string (gmap string (gmap string (list TableEntry))))
    (eventGender eventCategory eventName : string) (entry : TableEntry)
    : gmap string (gmap string (gmap string (list TableEntry))) :=
  let categories := default ∅ (tables !! eventGender) in
  let events := default ∅ (categories !! eventCategory) in
  let entries := default [] (events !! eventName) in
  <[eventGender :=
      <[eventCategory := <[eventName := (entries ++ [entry])%list]> events]>
        categories]> tables.

(** [if (!this.tables[eventGender]) this.tables[eventGender] = {}] *)
Definition ensureGender
    (tables : gmap string (gmap string (gmap string (list TableEntry))))
    (eventGender : string)
    : gmap string (gmap string (gmap string (list TableEntry))) :=
  match tables !! eventGender with
  | Some _ => tables
  | None => <[eventGender := ∅]> tables
  end.

(** One turn of the loop of [storeCrossReferencedData].  [getCategory] is
    the lookup imported from the events configuration. *)
Definition storeCell (getCategory : string -> option string)
    (gender : string) (sectionCategory : option string) (points : Z)
    (tables : gmap string (gmap string (gmap string (list TableEntry))))
    (cell : option string * string)
    : gmap string (gmap string (gmap string (list TableEntry))) :=
  let '(performance, eventName) := cell in
  match present performance, eventName with
  | None, _ | _, EmptyString => tables
  | Some performance, _ =>
      let eventGender := if includes eventName "mix" then "mixed" else gender in
      let tables := ensureGender tables eventGender in
      match present (orElse (getCategory eventName) sectionCategory) with
      | None => tables
      | Some eventCategory =>
          storeEntry tables eventGender eventCategory eventName
            (mkEntry performance points)
      end
  end.

Definition storeCrossReferencedData (getCategory : string -> option string)
    (tables : gmap string (gmap string (gmap string (list TableEntry))))
    (section : SectionState) (dataRow : Row)
    : gmap string (gmap string (gmap string (list TableEntry))) :=
  match present (sectionGender section), rowPoints dataRow with
  | Some gender, Some points =>
      if points =? 0 then tables
      else
        fold_left (storeCell getCategory gender (sectionCategory section) points)
          (combine (rowPerformances dataRow) (rowEvents dataRow)) tables
  | _, _ => tables
  end.

(** The loop of [areTablesIdentical], once the lengths agree. *)
Fixpoint entriesMatch (table1 table2 : list TableEntry) : bool :=
  match table1, table2 with
  | entry1 :: rest1, entry2 :: rest2 =>
      if negb (points entry1 =? points entry2)
         || negb (String.eqb (performance entry1) (performance entry2))
      then false
      else entriesMatch rest1 rest2
  | _, _ => true
  end.

Definition areTablesIdentical (table1 table2 : list TableEntry) : bool :=
  if negb (List.length table1 =? List.length table2)%nat then false
  else entriesMatch table1 table2.

End Storage.

(* ===================================================================== *)
(** * Pace and speed conversions, and the race splits                     *)
(* ===================================================================== *)

Module Conversions.
Import Js PaceFormatter PaceEngine.

Local Open Scope Q_scope.

(** ** The engine *)

Definition convertPaceUnit (paceSeconds : Q) (fromUnit toUnit : string) : Q :=
  if String.eqb fromUnit toUnit then paceSeconds
  else if String.eqb fromUnit "km" && String.eqb toUnit "mile"
  then paceSeconds * 1.609344
  else if String.eqb fromUnit "mile" && String.eqb toUnit "km"
  then paceSeconds / 1.609344
  else paceSeconds.

(** [conversions[speedUnit] || 1] in [convertPaceToSpeedUnit], for a unit
    name that is not one of [Js.inheritedNames]; on those the product is
    [NaN]. *)
Definition fromKmh (speedUnit : string) : Q :=
  if String.eqb speedUnit "kmh" then 1
  else if String.eqb speedUnit "mph" then 0.621371
  else if String.eqb speedUnit "ms" then 1000 / 3600
  else if String.eqb speedUnit "fts" then 3280.84 / 3600
  else if String.eqb speedUnit "yds" then 1093.61 / 3600
  else 1.

Definition convertPaceToSpeedUnit (paceSecondsPerKm : Q) (speedUnit : string) : Q :=
  if Qle_bool paceSecondsPerKm 0 then 0
  else
    let kmh := 3600 / paceSecondsPerKm in
    kmh * fromKmh speedUnit.

(** [conversions[speedUnit] || 1] in [convertSpeedToPace], for a unit
    name that is not one of [Js.inheritedNames]; on those the product is
    [NaN]. *)
Definition toKmh (speedUnit : string) : Q :=
  if String.eqb speedUnit "kmh" then 1
  else if String.eqb speedUnit "mph" then 1.609344
  else if String.eqb speedUnit "ms" then 3.6
  else if String.eqb speedUnit "fts" then 1.09728
  else if String.eqb speedUnit "yds" then 3.28084
  else 1.

Definition convertSpeedToPace (speed : Q) (speedUnit : string) : Q :=
  if Qle_bool speed 0 then 0
  else
    let kmh := speed * toKmh speedUnit in
    3600 / kmh.

(** A row of [calculateSplits]; only the last row has an [isFinal]
    property, [false] stands for its absence. *)
Record RaceSplit : Type := mkRaceSplit {
  raceDistance : Q;
  raceDistanceLabel : string;
  raceTime : Q;
  racePace : Q;
  isFinal : bool
}.

(** The loop of [calculateSplits]; [None] when the fuel runs out. *)
Fixpoint splitsBefore (fuel : nat) (distanceKm paceSecondsPerKm splitInterval : Q)
    (currentKm : Q) : option (list RaceSplit) :=
  if Qltb currentKm distanceKm then
    match fuel with
    | O => None
    | S fuel' =>
        let elapsedTime := paceSecondsPerKm * currentKm in
        cons (mkRaceSplit (currentKm * 1000)
                (showHundredths currentKm ++ "km")%string
                elapsedTime paceSecondsPerKm false)
          <$> splitsBefore fuel' distanceKm paceSecondsPerKm splitInterval
                (currentKm + splitInterval)
    end
  else Some [].

Definition calculateSplits (fuel : nat) (distanceMetres paceSecondsPerKm : Q)
    (eventConfig : EventConfig) : option (list RaceSplit) :=
  let distanceKm := distanceMetres / 1000 in
  let splitInterval :=
    if Qle_bool distanceKm 5 then 1
    else if Qle_bool distanceKm 15 then 5
    else if Qle_bool distanceKm 30 then 5
    else 10 in
  match splitsBefore fuel distanceKm paceSecondsPerKm splitInterval splitInterval with
  | None => None
  | Some splits =>
      let totalTime := paceSecondsPerKm * distanceKm in
      Some (splits ++
              [mkRaceSplit distanceMetres (displayName eventConfig)
                 totalTime paceSecondsPerKm true])%list
  end.

(** What a row of [calculateSplits] before the last one looks like for a
    race of [distanceMetres] at [paceSecondsPerKm]. *)
Definition intermediate (distanceMetres paceSecondsPerKm : Q) (split : RaceSplit)
    : Prop :=
  isFinal split = false /\
  raceDistance split < distanceMetres /\
  raceTime split == paceSecondsPerKm * (raceDistance split / 1000) /\
  racePace split = paceSecondsPerKm.

(** ** The page *)

Definition convertPaceToPerKm (paceSeconds : Q) (paceUnit : string) : Q :=
  if String.eqb paceUnit "mile" then paceSeconds / 1.609344
  else if String.eqb paceUnit "400m" then paceSeconds * 2.5
  else if String.eqb paceUnit "200m" then paceSeconds * 5
  else if String.eqb paceUnit "100m" then paceSeconds * 10
  else paceSeconds.

Definition convertPaceFromPerKm (pacePerKm : Q) (paceUnit : string) : Q :=
  if String.eqb paceUnit "mile" then pacePerKm * 1.609344
  else if String.eqb paceUnit "400m" then pacePerKm / 2.5
  else if String.eqb paceUnit "200m" then pacePerKm / 5
  else if String.eqb paceUnit "100m" then pacePerKm / 10
  else pacePerKm.

(** [distance * (conversions[unit] || 1)]; the table is the one of
    [convertDistance], and so is the condition on the unit name. *)
Definition convertDistanceToMetres (distance : Q) (unit : string) : Q :=
  distance * toMetres unit.

End Conversions.

(* ===================================================================== *)
(** * The calculation history                                             *)
(* ===================================================================== *)

Module History.

(** A history entry: its [id] ([None] when the property is missing) and
    the rest of the object. *)
Record Entry (Payload : Type) : Type := mkEntry {
  id : option string;
  payload : Payload
}.
Arguments mkEntry {Payload} _ _.
Arguments id {Payload} _.
Arguments payload {Payload} _.

(** What [localStorage] holds under [STORAGE_KEY].  A stored text is
    identified with the value [JSON.parse] reads from it: an array of
    entries, or anything else (a text that does not parse, or that parses
    to something that is not an array). *)
Inductive Stored (Payload : Type) : Type :=
| Array (history : list (Entry Payload))
| Other (text : string).
Arguments Array {Payload} _.
Arguments Other {Payload} _.

Definition MAX_ENTRIES : nat := 10.

(** A call that returns a history and leaves a store, or lets the
    exception of the second [setItem] escape. *)
Inductive Saved (Payload : Type) : Type :=
| Kept (store : option (Stored Payload))
| Escaped.
Arguments Kept {Payload} _.
Arguments Escaped {Payload}.

Section Manager.
Context {Payload : Type}.

(** Whether [localStorage.setItem] has room for the serialisation of a
    history; it throws a [QuotaExceededError] when it has not. *)
Variable fits : list (Entry Payload) -> bool.

Definition load (store : option (Stored Payload)) : list (Entry Payload) :=
  match store with
  | Some (Array history) => history
  | Some (Other _) => []
  | None => []
  end.

Definition save (history : list (Entry Payload)) : Saved Payload :=
  if fits history then Kept (Some (Array history))
  else
    let trimmed := take 5 history in
    if fits trimmed then Kept (Some (Array trimmed)) else Escaped.

(** [!entry.id] *)
Definition lacksId (entry : Entry Payload) : bool :=
  match id entry with
  | Some text => String.eqb text ""
  | None => true
  end.

(** [generated] is the text after ["hist-"]: the clock and the random
    digits. *)
Definition addEntry (generated : string) (store : option (Stored Payload))
    (entry : Entry Payload) : Saved Payload * list (Entry Payload) :=
  let history := load store in
  let entry :=
    if lacksId entry then mkEntry (Some ("hist-" ++ generated)%string) (payload entry)
    else entry in
  let history := entry :: history in
  let history :=
    if (MAX_ENTRIES <? List.length history)%nat then take MAX_ENTRIES history
    else history in
  (save history, history).

(** [entry.id !== id] *)
Definition hasOtherId (wanted : string) (entry : Entry Payload) : bool :=
  match id entry with
  | Some text => negb (String.eqb text wanted)
  | None => true
  end.

Definition removeEntry (store : option (Stored Payload)) (wanted : string)
    : Saved Payload * list (Entry Payload) :=
  let history := load store in
  let filtered := List.filter (hasOtherId wanted) history in
  (save filtered, filtered).

End Manager.

End History.

(* ===================================================================== *)
(** * Totals of a table of splits                                         *)
(* ===================================================================== *)

Module SplitTotals.
Import PaceEngine.

Local Open Scope Q_scope.

(** The sum of the [splitTime] column. *)
Definition totalSplitTime (splits : list Split) : Q :=
  fold_right (fun split total => splitTime split + total) 0 splits.

(** The [time] of the last row, and [start] for an empty table. *)
Definition finalTime (start : Q) (splits : list Split) : Q :=
  fold_left (fun _ split => time split) splits start.

End SplitTotals.

(* ===================================================================== *)
(** * The table of equivalent paces                                       *)
(* ===================================================================== *)

Module Equivalents.
Import Conversions.

Local Open Scope Q_scope.

Record Speeds : Type := mkSpeeds {
  speedKmh : Q;
  speedMph : Q
}.

Definition convertPaceToSpeed (paceSecondsPerUnit : Q) (paceUnit : string) : Speeds :=
  if Qle_bool paceSecondsPerUnit 0 then mkSpeeds 0 0
  else
    let unitsPerHour := 3600 / paceSecondsPerUnit in
    if String.eqb paceUnit "km"
    then mkSpeeds unitsPerHour (unitsPerHour * 0.621371)
    else mkSpeeds (unitsPerHour * 1.609344) unitsPerHour.

Record EquivalentPaces : Type := mkEquivalentPaces {
  perKm : Q;
  perMile : Q;
  perMeter : Q;
  perYard : Q;
  perFoot : Q;
  kmh : Q;
  mph : Q;
  metersPerSecond : Q;
  feetPerSecond : Q;
  yardsPerSecond : Q
}.

(** [getEquivalentPaces]; on a pace of zero the three speeds per second
    are [Infinity], which is no rational: [None]. *)
Definition getEquivalentPaces (paceSecondsPerKm : Q) : option EquivalentPaces :=
  if Qeq_bool paceSecondsPerKm 0 then None
  else
    let paceSecondsPerMile := convertPaceUnit paceSecondsPerKm "km" "mile" in
    let speed := convertPaceToSpeed paceSecondsPerKm "km" in
    let paceSecondsPerMeter := paceSecondsPerKm / 1000 in
    let paceSecondsPerYard := paceSecondsPerMeter * 0.9144 in
    let paceSecondsPerFoot := paceSecondsPerMeter * 0.3048 in
    let metersPerSecond := 1000 / paceSecondsPerKm in
    let feetPerSecond := metersPerSecond * 3.28084 in
    let yardsPerSecond := metersPerSecond / 0.9144 in
    Some (mkEquivalentPaces paceSecondsPerKm paceSecondsPerMile
            paceSecondsPerMeter paceSecondsPerYard paceSecondsPerFoot
            (speedKmh speed) (speedMph speed)
            metersPerSecond feetPerSecond yardsPerSecond).

End Equivalents.

(* ===================================================================== *)
(** * The extractor: a run with [--merge]                                 *)
(* ===================================================================== *)

Module Merge.
Import Extractor.

(** A row of [this.tables] in a run with [--merge]: an object pushed by
    [storeCrossReferencedData], or a row of the exported file, which
    [exportToJSON] writes as the array [[points, performance]] and
    [loadAndMerge] pushes as it reads it. *)
Inductive StoredRow : Type :=
| Extracted (entry : TableEntry)
| Loaded (points : Z) (performance : string).

(** [entry.performance]: [undefined] on an array. *)
Definition performanceOf (row : StoredRow) : option string :=
  match row with
  | Extracted entry => Some (performance entry)
  | Loaded _ _ => None
  end.

(** [entry.points]: [undefined] on an array. *)
Definition pointsOf (row : StoredRow) : option Z :=
  match row with
  | Extracted entry => Some (points entry)
  | Loaded _ _ => None
  end.

(** [loadAndMerge], for the list of one event:
    [this.tables[gender][category][eventName].push(...entries)]. *)
Definition loadAndMerge (current : list StoredRow) (entries : list (Z * string))
    : list StoredRow :=
  (current ++ map (fun entry => Loaded (fst entry) (snd entry)) entries)%list.

(** The [Map] of [cleanAndSortData], keyed by [entry.performance];
    [undefined] is a key like any other. *)
Definition RowMap : Type := list (option string * StoredRow).

Definition sameKey (a b : option string) : bool :=
  match a, b with
  | Some x, Some y => String.eqb x y
  | None, None => true
  | _, _ => false
  end.

Fixpoint rowGet (key : option string) (m : RowMap) : option StoredRow :=
  match m with
  | [] => None
  | (k, v) :: r => if sameKey k key then Some v else rowGet key r
  end.

Fixpoint rowSet (key : option string) (v : StoredRow) (m : RowMap) : RowMap :=
  match m with
  | [] => [(key, v)]
  | (k, x) :: r =>
      if sameKey k key then (k, v) :: r else (k, x) :: rowSet key v r
  end.

(** [uniqueMap.get(key).points < entry.points], which is false as soon as
    one side is [undefined]. *)
Definition fewerPoints (seen entry : StoredRow) : bool :=
  match pointsOf seen, pointsOf entry with
  | Some a, Some b => a <? b
  | _, _ => false
  end.

Definition rememberRow (m : RowMap) (entry : StoredRow) : RowMap :=
  let key := performanceOf entry in
  match rowGet key m with
  | None => rowSet key entry m
  | Some seen => if fewerPoints seen entry then rowSet key entry m else m
  end.

Definition uniqueRows (entries : list StoredRow) : list StoredRow :=
  map snd (fold_left rememberRow entries []).

(** [(a, b) => b.points - a.points]: [NaN] next to an array, which a sort
    reads as zero. *)
Definition byPoints (a b : StoredRow) : Z :=
  match pointsOf a, pointsOf b with
  | Some x, Some y => y - x
  | _, _ => 0
  end.

(** [cleanAndSortData], for the list of one event.  With an array in the
    list the comparator is not an order, and the standard leaves the
    arrangement [sort] returns to the engine: [sort] is any function that
    rearranges. *)
Definition cleanRows (sort : list StoredRow -> list StoredRow)
    (entries : list StoredRow) : list StoredRow :=
  sort (uniqueRows entries).

(** A map of the objects alone, read as a map of rows. *)
Definition asRows (m : UniqueMap) : RowMap :=
  map (fun kv => (Some (fst kv), Extracted (snd kv))) m.

End Merge.

(* ===================================================================== *)
(** * The turns of the split loops in binary64                            *)
(* ===================================================================== *)

Module SplitTurns.
Import Js.

Local Open Scope Q_scope.

(** One turn of the split loop as the machine runs it:
    [currentDistanceMetres += splitIntervalMetres], the sum being the
    binary64 one, then the cap at the total distance. *)
Definition advance64 (distanceMetres : Q)
    (splitIntervalMetres currentDistanceMetres : number) : number :=
  let next := round64 (add currentDistanceMetres splitIntervalMetres) in
  if gtb next (Fin distanceMetres) then Fin distanceMetres else next.

(** The loop of [calculateCustomSplits] and the second loop of
    [calculateSmartSplits], which read alike: the cumulative distance of
    each row pushed; [None] when the fuel runs out before the loop is
    left.  Nothing else the loop computes bears on its turns. *)
Fixpoint splitDistances (fuel : nat) (distanceMetres : Q)
    (splitIntervalMetres currentDistanceMetres : number)
    : option (list number) :=
  if ltb currentDistanceMetres (Fin distanceMetres) then
    match fuel with
    | O => None
    | S fuel' =>
        let next :=
          advance64 distanceMetres splitIntervalMetres currentDistanceMetres in
        cons next
          <$> splitDistances fuel' distanceMetres splitIntervalMetres next
    end
  else Some [].

(** [Math.floor(distanceMetres / splitIntervalMetres) >= 100] *)
Definition tooManySplits64 (distanceMetres : Q) (splitIntervalMetres : number)
    : bool :=
  geb (ofIntegral (floor (round64 (div (Fin distanceMetres) splitIntervalMetres))))
      (Fin 100).

(** The first loop of [calculateSmartSplits]: [splitIntervalMetres *= 10]
    while the test holds. *)
Fixpoint growInterval64 (fuel : nat) (distanceMetres : Q)
    (splitIntervalMetres : number) : option number :=
  if tooManySplits64 distanceMetres splitIntervalMetres then
    match fuel with
    | O => None
    | S fuel' =>
        growInterval64 fuel' distanceMetres
          (round64 (mul splitIntervalMetres (Fin 10)))
    end
  else Some splitIntervalMetres.

Definition customSplitDistances (fuel : nat)
    (distanceMetres splitIntervalMetres : Q) : option (list number) :=
  splitDistances fuel distanceMetres (Fin splitIntervalMetres) (Fin 0).

Definition smartSplitDistances (fuel : nat)
    (distanceMetres initialSplitIntervalMetres : Q) : option (list number) :=
  match growInterval64 fuel distanceMetres (Fin initialSplitIntervalMetres) with
  | None => None
  | Some splitIntervalMetres =>
      splitDistances fuel distanceMetres splitIntervalMetres (Fin 0)
  end.

End SplitTurns.

(* ===================================================================== *)
(** * Properties of the performance lookup                                *)
(* ===================================================================== *)

Section LookupProperties.
Import Js Lookup Spec.

Lemma keepHigher_spec (P : Entry -> bool) (table : list Entry)
    (start : option Entry) (e : Entry) (best : option Entry) :
  highestAmong P table (if P e then keepHigher start e else start) best ->
  highestAmong P (e :: table) start best.
Proof.
  unfold highestAmong, keepHigher.
  destruct best as [b|].
  - intros (Hb & Hstart & Hall). destruct (P e) eqn:HP.
    + destruct start as [c|].
      * destruct (Z.gtb_spec (fst e) (fst c)) as [Hgt|Hle].
        -- repeat split.
           ++ destruct Hb as [Hb|[Hb Hb']]; [inversion Hb; subst|];
                right; simpl; auto.
           ++ intros a Ha. inversion Ha; subst.
              specialize (Hstart e eq_refl). lia.
           ++ intros x [->|Hx] HPx; [apply Hstart; reflexivity|auto].
        -- repeat split.
           ++ destruct Hb as [Hb|[Hb Hb']]; [left; exact Hb|right; simpl; auto].
           ++ exact Hstart.
           ++ intros x [->|Hx] HPx; [|auto].
              specialize (Hstart c eq_refl). lia.
      * repeat split.
        -- destruct Hb as [Hb|[Hb Hb']]; [inversion Hb; subst|];
             right; simpl; auto.
        -- intros a Ha. discriminate.
        -- intros x [->|Hx] HPx; [apply Hstart; reflexivity|auto].
    + repeat split.
      * destruct Hb as [Hb|[Hb Hb']]; [left; exact Hb|right; simpl; auto].
      * exact Hstart.
      * intros x [->|Hx] HPx; [congruence|auto].
  - intros (Hstart & Hall). destruct (P e) eqn:HP.
    + destruct start as [c|]; [destruct (fst e >? fst c)|]; discriminate.
    + split; [exact Hstart|]. intros x [->|Hx]; auto.
Qed.

Lemma scanPoints_tracks (d : bool) (p : number) (table : list Entry) :
  forall start,
    (forall e, In e table -> withinTolerance (parseFloat (snd e)) p = false) ->
    exists best,
      scanPoints d p table start = Tracked best /\
      highestAmong (fun e => beats d p (parseFloat (snd e))) table start best.
Proof.
  induction table as [|e table IH]; intros start Hfar; simpl.
  - exists start. split; [reflexivity|].
    destruct start as [b|]; simpl; [|split; [reflexivity|intros ? []]].
    repeat split; [left; reflexivity| |intros ? []].
    intros a Ha. inversion Ha. lia.
  - rewrite (Hfar e (or_introl eq_refl)).
    destruct (IH (if beats d p (parseFloat (snd e))
                  then keepHigher start e else start)) as (best & Hscan & Hbest).
    { intros x Hx. apply Hfar. right. exact Hx. }
    exists best. split; [exact Hscan|].
    apply (keepHigher_spec (fun e => beats d p (parseFloat (snd e)))).
    exact Hbest.
Qed.

Lemma keepLower_fold (table : list Entry) :
  forall start, lowestAmong table start (fold_left keepLower table start).
Proof.
  induction table as [|e table IH]; intros start; simpl.
  - destruct start as [b|]; simpl; [|split; reflexivity].
    repeat split; [left; reflexivity| |intros ? []].
    intros a Ha. inversion Ha. lia.
  - specialize (IH (keepLower start e)).
    unfold lowestAmong in *.
    destruct (fold_left keepLower table (keepLower start e)) as [b|].
    + destruct IH as (Hb & Hstart & Hall). unfold keepLower in *.
      destruct start as [c|].
      * destruct (Z.ltb_spec (fst e) (fst c)) as [Hlt|Hge].
        -- repeat split.
           ++ destruct Hb as [Hb|Hb]; [inversion Hb; subst|]; right; simpl; auto.
           ++ intros a Ha. inversion Ha; subst.
              specialize (Hstart e eq_refl). lia.
           ++ intros x [->|Hx]; [apply Hstart; reflexivity|auto].
        -- repeat split.
           ++ destruct Hb as [Hb|Hb]; [left; exact Hb|right; simpl; auto].
           ++ exact Hstart.
           ++ intros x [->|Hx]; [|auto].
              specialize (Hstart c eq_refl). lia.
      * repeat split.
        -- destruct Hb as [Hb|Hb]; [inversion Hb; subst|]; right; simpl; auto.
        -- intros a Ha. discriminate.
        -- intros x [->|Hx]; [apply Hstart; reflexivity|auto].
    + destruct IH as (Hstart & _). unfold keepLower in Hstart.
      destruct start as [c|]; [destruct (fst e <? fst c)|]; discriminate.
Qed.

Lemma lowestEntry_spec (table : list Entry) :
  table <> [] ->
  exists b, lowestEntry table = Some b /\ In b table /\
            forall e, In e table -> fst b <= fst e.
Proof.
  intros Hne. pose proof (keepLower_fold table None) as H.
  unfold lowestEntry, lowestAmong in *.
  destruct (fold_left keepLower table None) as [b|].
  - destruct H as ([H|H] & _ & Hall); [discriminate|]. eauto.
  - destruct H as (_ & H). contradiction.
Qed.

(** C1.  When the table of the event is found and the performance is a
    number that is within 0.005 of no table entry, as the function tests it
    on the binary64 numbers it has parsed, [lookupPoints] answers with
    [exactMatch = false] and with a row of the table.  If the performance
    beats some row (the row's value is strictly greater for a time event,
    strictly less for a distance event), the row returned is one of those,
    and none of those has more points.  If it beats no row, the row
    returned has the fewest points of the whole table.  The distance events
    are those whose name, in capitals, contains one of the codes LJ, TJ,
    SP, DT, HT, JT, PV and HJ; every other event is a time event. *)
Theorem lookupPoints_between_entries (L : Loaders)
    (gender event performance : string) (isHandTimed : bool)
    (category : string) (eventData : list Entry) :
  usableCategory (findCategory L gender event) = Some category ->
  getEventData L gender category event = Some eventData ->
  eventData <> [] ->
  let perfNum := effectivePerformance L event performance isHandTimed in
  let beaten e :=
    if isFieldEvent event then ltb (parseFloat (snd e)) perfNum
    else ltb perfNum (parseFloat (snd e)) in
  isNaN perfNum = false ->
  (forall e, In e eventData ->
     withinTolerance (parseFloat (snd e)) perfNum = false) ->
  (isFieldEvent event = true <->
   exists code,
     In code ["LJ"; "TJ"; "SP"; "DT"; "HT"; "JT"; "PV"; "HJ"] /\
     includes (toUpperCase event) code = true) /\
  exists r,
    lookupPoints L gender event performance isHandTimed = Some r /\
    PointsResult.exactMatch r = false /\
    In (PointsResult.points r, PointsResult.closestPerformance r) eventData /\
    ((exists e, In e eventData /\ beaten e = true) ->
       beaten (PointsResult.points r, PointsResult.closestPerformance r) = true /\
       forall e, In e eventData -> beaten e = true ->
                 fst e <= PointsResult.points r) /\
    ((forall e, In e eventData -> beaten e = false) ->
       forall e, In e eventData -> PointsResult.points r <= fst e).
Proof.
  intros Hcat Hdata Hne perfNum beaten Hnum Hfar.
  split.
  { unfold isFieldEvent, distanceEvents. rewrite existsb_exists. reflexivity. }
  assert (Hbeaten : forall e,
            beaten e = beats (isFieldEvent event) perfNum (parseFloat (snd e))).
  { intros e. unfold beaten, beats, gtb. reflexivity. }
  clearbody beaten.
  destruct (scanPoints_tracks (isFieldEvent event) perfNum eventData None Hfar)
    as (best & Hscan & Hbest).
  assert (Hrun : lookupPoints L gender event performance isHandTimed =
                 searchPoints (isFieldEvent event) eventData perfNum
                   (if isHandTimed
                    then usableOffset (getHandTimingOffset L event) else None)
                   (if isHandTimed
                    then match usableOffset (getHandTimingOffset L event) with
                         | Some _ => Some (parseFloat performance)
                         | None => None
                         end
                    else None)).
  { unfold lookupPoints. rewrite Hcat, Hdata.
    destruct eventData as [|e0 rest]; [contradiction|].
    unfold perfNum, effectivePerformance in *.
    destruct isHandTimed;
      [destruct (usableOffset (getHandTimingOffset L event))|];
      rewrite Hnum; reflexivity. }
  rewrite Hrun. unfold searchPoints. rewrite Hscan.
  unfold highestAmong in Hbest.
  destruct best as [b|].
  - destruct Hbest as ([Hb|[Hin Hb]] & _ & Hmax); [discriminate|].
    eexists. split; [reflexivity|]. simpl.
    rewrite <- surjective_pairing.
    split; [reflexivity|]. split; [exact Hin|]. split.
    + intros _. split; [rewrite Hbeaten; exact Hb|].
      intros e He Hwin. apply Hmax; [exact He|]. rewrite <- Hbeaten. exact Hwin.
    + intros Hnone. specialize (Hnone b Hin). rewrite Hbeaten in Hnone. congruence.
  - destruct Hbest as (_ & Hnone).
    destruct (lowestEntry_spec eventData Hne) as (b & Hlow & Hin & Hmin).
    rewrite Hlow. eexists. split; [reflexivity|]. simpl.
    rewrite <- surjective_pairing.
    split; [reflexivity|]. split; [exact Hin|]. split.
    + intros (e & He & Hwin). rewrite Hbeaten in Hwin.
      rewrite (Hnone e He) in Hwin. discriminate.
    + intros _. exact Hmin.
Qed.

(** The 100 m example: 10.45 lies between the rows 10.40 and 10.50. *)
(** Between 10.40 (1220 points) and 10.50 (1200 points), 10.45 scores 1200
    as a time and 1220 as a distance. *)
Lemma lookupPoints_between_entries_witness :
  (isFieldEvent "100m" = false /\
   exists r,
     lookupPoints sampleLoaders "men" "100m" "10.45" false = Some r /\
     PointsResult.exactMatch r = false /\
     PointsResult.points r = 1200) /\
  (isFieldEvent "LJ" = true /\
   exists r,
     lookupPoints sampleLoaders "men" "LJ" "10.45" false = Some r /\
     PointsResult.exactMatch r = false /\
     PointsResult.points r = 1220).
Proof.
  split.
  - destruct (lookupPoints_between_entries sampleLoaders "men" "100m" "10.45"
                false "sprints" [(1220, "10.40"); (1200, "10.50")])
      as (_ & r & Hr & Hexact & _).
    + reflexivity.
    + reflexivity.
    + discriminate.
    + reflexivity.
    + intros e [<-|[<-|[]]]; reflexivity.
    + split; [reflexivity|].
      exists r. split; [exact Hr|]. split; [exact Hexact|].
      vm_compute in Hr. inversion Hr. reflexivity.
  - destruct (lookupPoints_between_entries sampleLoaders "men" "LJ" "10.45"
                false "sprints" [(1220, "10.40"); (1200, "10.50")])
      as (_ & r & Hr & Hexact & _).
    + reflexivity.
    + reflexivity.
    + discriminate.
    + reflexivity.
    + intros e [<-|[<-|[]]]; reflexivity.
    + split; [reflexivity|].
      exists r. split; [exact Hr|]. split; [exact Hexact|].
      vm_compute in Hr. inversion Hr. reflexivity.
Defined.

Lemma eqb_ofZ (a b : Z) : eqb (ofZ a) (ofZ b) = true <-> a = b.
Proof.
  unfold ofZ, ofIntegral, eqb. rewrite Qeq_bool_iff.
  split; [apply inject_Z_injective|intros ->; reflexivity].
Qed.

Lemma ltb_ofZ (a b : Z) : ltb (ofZ a) (ofZ b) = true <-> a < b.
Proof.
  unfold ofZ, ofIntegral, ltb, Qltb.
  rewrite Zlt_Qlt, Qlt_alt.
  destruct (inject_Z a ?= inject_Z b)%Q; split; congruence.
Qed.

Lemma scanPerformance_spec (target : number) (table : list Entry) :
  forall start,
    match scanPerformance target table start with
    | ExactMatchEntry e => In e table /\ eqb (ofZ (fst e)) target = true
    | LowerPointsEntry best =>
        (forall e, In e table -> eqb (ofZ (fst e)) target = false) /\
        highestAmong (fun e => ltb (ofZ (fst e)) target) table start best
    end.
Proof.
  induction table as [|e table IH]; intros start; cbn [scanPerformance].
  - split; [intros ? []|].
    destruct start as [b|]; simpl; [|split; [reflexivity|intros ? []]].
    repeat split; [left; reflexivity| |intros ? []].
    intros a Ha. inversion Ha. lia.
  - destruct (eqb (ofZ (fst e)) target) eqn:Heq.
    + split; [left; reflexivity|exact Heq].
    + specialize (IH (trackBelow target start e)).
      destruct (scanPerformance target table (trackBelow target start e))
        as [x|best].
      * destruct IH as (Hin & Hx). split; [right; exact Hin|exact Hx].
      * destruct IH as (Hnone & Hbest). split.
        -- intros x [<-|Hx]; [exact Heq|apply Hnone; exact Hx].
        -- apply (keepHigher_spec (fun e => ltb (ofZ (fst e)) target)).
           exact Hbest.
Qed.

Lemma adjustForHandTiming_table (L : Loaders) (event : string) (isHandTimed : bool)
    (perf : string) (exact : bool) (pts : Z) :
  let '(p, a, o) := adjustForHandTiming L event isHandTimed perf in
  tablePerformance (PerformanceResult.mk p exact pts a o) = perf /\
  (isHandTimed = false -> p = perf).
Proof.
  unfold adjustForHandTiming, tablePerformance.
  destruct isHandTimed;
    [destruct (usableOffset (getHandTimingOffset L event))|];
    simpl; split; congruence.
Qed.

Lemma Qfloor_half_nearest (q : Q) :
  (inject_Z (Qfloor (q + (1 # 2))) - (1 # 2) <= q /\
   q < inject_Z (Qfloor (q + (1 # 2))) + (1 # 2))%Q.
Proof.
  pose proof (Qfloor_le (q + (1 # 2))) as Hlo.
  pose proof (Qlt_floor (q + (1 # 2))) as Hhi.
  rewrite inject_Z_plus in Hhi.
  split.
  - apply (Qplus_le_l _ _ (1 # 2)). ring_simplify.
    ring_simplify in Hlo. exact Hlo.
  - apply (Qplus_lt_l _ _ (1 # 2)).
    eapply Qlt_le_trans; [exact Hhi|]. ring_simplify. apply Qle_refl.
Qed.

(** C2.  When the table of the event is found, [lookupPerformance] looks
    for the whole number nearest to the requested points (ties upwards).
    It answers with a row of the table: a row with exactly the target
    points and [exactMatch = true] if there is one; otherwise
    [exactMatch = false] and, if some row lies strictly below the target,
    a row below the target that no row below the target exceeds; and if
    the target is below every row, a row with the fewest points of all.
    Without hand timing the performance returned is the row's own. *)
Theorem lookupPerformance_selects (L : Loaders) (gender event : string)
    (requested : Q) (isHandTimed : bool)
    (category : string) (eventData : list Entry) :
  usableCategory (findCategory L gender event) = Some category ->
  getEventData L gender category event = Some eventData ->
  eventData <> [] ->
  let target := Qfloor (requested + (1 # 2)) in
  (inject_Z target - (1 # 2) <= requested < inject_Z target + (1 # 2))%Q /\
  exists r,
    lookupPerformance L gender event (Fin requested) isHandTimed = Some r /\
    In (PerformanceResult.points r, tablePerformance r) eventData /\
    (isHandTimed = false -> PerformanceResult.performance r = tablePerformance r) /\
    ((exists e, In e eventData /\ fst e = target) ->
       PerformanceResult.exactMatch r = true /\
       PerformanceResult.points r = target) /\
    ((forall e, In e eventData -> fst e <> target) ->
       PerformanceResult.exactMatch r = false /\
       ((exists e, In e eventData /\ fst e < target) ->
          PerformanceResult.points r < target /\
          forall e, In e eventData -> fst e < target ->
                    fst e <= PerformanceResult.points r) /\
       ((forall e, In e eventData -> target < fst e) ->
          forall e, In e eventData -> PerformanceResult.points r <= fst e)).
Proof.
  intros Hcat Hdata Hne target.
  split; [apply Qfloor_half_nearest|].
  unfold lookupPerformance. rewrite Hcat, Hdata.
  destruct eventData as [|e0 rest] eqn:Htable; [contradiction|].
  rewrite <- Htable in *. clear e0 rest Htable.
  change (round (Fin requested)) with (ofZ target).
  pose proof (scanPerformance_spec (ofZ target) eventData None) as Hscan.
  destruct (scanPerformance (ofZ target) eventData None) as [x|best].
  - destruct Hscan as (Hin & Hx). apply eqb_ofZ in Hx.
    pose proof (adjustForHandTiming_table L event isHandTimed (snd x) true (fst x))
      as Hadj.
    destruct (adjustForHandTiming L event isHandTimed (snd x)) as [[p a] o].
    destruct Hadj as (Htab & Hplain).
    eexists. split; [reflexivity|]. simpl PerformanceResult.points.
    simpl PerformanceResult.exactMatch. simpl PerformanceResult.performance.
    rewrite Htab, <- surjective_pairing.
    split; [exact Hin|]. split; [exact Hplain|]. split.
    + intros _. split; [reflexivity|exact Hx].
    + intros Hnone. elim (Hnone x Hin Hx).
  - destruct Hscan as (Hnone & Hbest). unfold highestAmong in Hbest.
    assert (Hnone' : forall e, In e eventData -> fst e <> target).
    { intros e He Heq. apply eqb_ofZ in Heq. rewrite (Hnone e He) in Heq.
      discriminate. }
    destruct best as [b|].
    + destruct Hbest as ([Hb|[Hin Hb]] & _ & Hmax); [discriminate|].
      apply ltb_ofZ in Hb.
      pose proof (adjustForHandTiming_table L event isHandTimed (snd b) false (fst b))
        as Hadj.
      destruct (adjustForHandTiming L event isHandTimed (snd b)) as [[p a] o].
      destruct Hadj as (Htab & Hplain).
      eexists. split; [reflexivity|]. simpl PerformanceResult.points.
      simpl PerformanceResult.exactMatch. simpl PerformanceResult.performance.
      rewrite Htab, <- surjective_pairing.
      split; [exact Hin|]. split; [exact Hplain|]. split.
      * intros (e & He & Heq). elim (Hnone' e He Heq).
      * intros _. split; [reflexivity|]. split.
        -- intros _. split; [exact Hb|].
           intros e He Hlt. apply Hmax; [exact He|]. apply ltb_ofZ. exact Hlt.
        -- intros Habove. specialize (Habove b Hin). lia.
    + destruct Hbest as (_ & Hbelow).
      destruct (lowestEntry_spec eventData Hne) as (b & Hlow & Hin & Hmin).
      rewrite Hlow.
      pose proof (adjustForHandTiming_table L event isHandTimed (snd b) false (fst b))
        as Hadj.
      destruct (adjustForHandTiming L event isHandTimed (snd b)) as [[p a] o].
      destruct Hadj as (Htab & Hplain).
      eexists. split; [reflexivity|]. simpl PerformanceResult.points.
      simpl PerformanceResult.exactMatch. simpl PerformanceResult.performance.
      rewrite Htab, <- surjective_pairing.
      split; [exact Hin|]. split; [exact Hplain|]. split.
      * intros (e & He & Heq). elim (Hnone' e He Heq).
      * intros _. split; [reflexivity|]. split.
        -- intros (e & He & Hlt). apply ltb_ofZ in Hlt.
           rewrite (Hbelow e He) in Hlt. discriminate.
        -- intros _. exact Hmin.
Qed.

(** A request for 1209.6 points is a request for 1210, which lies between
    the two rows of the sample table. *)
Lemma lookupPerformance_selects_witness :
  exists r,
    lookupPerformance sampleLoaders "men" "100m" (Fin 1209.6) false = Some r /\
    PerformanceResult.performance r = "10.50" /\
    PerformanceResult.exactMatch r = false.
Proof.
  destruct (lookupPerformance_selects sampleLoaders "men" "100m" 1209.6 false
              "sprints" [(1220, "10.40"); (1200, "10.50")])
    as (_ & r & Hr & _).
  - reflexivity.
  - reflexivity.
  - discriminate.
  - exists r. split; [exact Hr|].
    vm_compute in Hr. inversion Hr. split; reflexivity.
Defined.

Lemma searchPoints_offsets (d : bool) (table : list Entry) (p : number)
    (a o : option number) :
  searchPoints d table p a o =
  (fun r => PointsResult.mk (PointsResult.points r) (PointsResult.exactMatch r)
              (PointsResult.closestPerformance r) a o)
    <$> searchPoints d table p None None.
Proof.
  unfold searchPoints.
  destruct (scanPoints d p table None) as [e|[b|]]; [reflexivity..|].
  destruct (lowestEntry table); reflexivity.
Qed.

Lemma searchPoints_returns (d : bool) (table : list Entry) (p : number)
    (a o : option number) :
  table <> [] -> exists r, searchPoints d table p a o = Some r.
Proof.
  intros Hne. unfold searchPoints.
  destruct (scanPoints d p table None) as [e|[b|]]; [eauto..|].
  destruct (lowestEntry_spec table Hne) as (b & -> & _). eauto.
Qed.

(** C3.  With hand timing requested and an offset available for the event,
    [lookupPoints] searches the table for the parsed performance plus the
    offset, and reports the offset itself as [appliedOffset] and the parsed
    performance as [originalPerformance]; the rest of its answer is that of
    the plain search for the sum.  [lookupPerformance] finds the same row
    as without hand timing, returns that row's performance minus the
    offset (printed with two decimals), and reports the negated offset as
    [appliedOffset] and the row's performance as [originalPerformance]. *)
Theorem hand_timing_offsets_inverted (L : Loaders) (gender event : string)
    (category : string) (eventData : list Entry) (offset : number) :
  usableCategory (findCategory L gender event) = Some category ->
  getEventData L gender category event = Some eventData ->
  eventData <> [] ->
  usableOffset (getHandTimingOffset L event) = Some offset ->
  (forall performance : string,
     let perfNum := parseFloat performance in
     isNaN (add64 perfNum offset) = false ->
     exists r0,
       searchPoints (isFieldEvent event) eventData (add64 perfNum offset) None None
         = Some r0 /\
       lookupPoints L gender event performance true =
         Some (PointsResult.mk (PointsResult.points r0)
                 (PointsResult.exactMatch r0)
                 (PointsResult.closestPerformance r0)
                 (Some offset) (Some perfNum))) /\
  (forall points : number,
     exists r0,
       lookupPerformance L gender event points false = Some r0 /\
       PerformanceResult.appliedOffset r0 = None /\
       lookupPerformance L gender event points true =
         Some (PerformanceResult.mk
                 (toFixed2 (sub64 (parseFloat (PerformanceResult.performance r0))
                              offset))
                 (PerformanceResult.exactMatch r0)
                 (PerformanceResult.points r0)
                 (Some (neg offset))
                 (Some (PerformanceResult.performance r0)))).
Proof.
  intros Hcat Hdata Hne Hoffset. split.
  - intros performance perfNum Hnum.
    destruct (searchPoints_returns (isFieldEvent event) eventData
                (add64 perfNum offset) None None Hne) as (r0 & Hr0).
    exists r0. split; [exact Hr0|].
    unfold lookupPoints. rewrite Hcat, Hdata, Hoffset.
    destruct eventData as [|e0 rest] eqn:Htable; [contradiction|].
    rewrite <- Htable in *. fold perfNum. rewrite Hnum.
    rewrite searchPoints_offsets, Hr0. reflexivity.
  - intros points. unfold lookupPerformance. rewrite Hcat, Hdata.
    destruct eventData as [|e0 rest] eqn:Htable; [contradiction|].
    rewrite <- Htable in *. clear e0 rest Htable.
    unfold adjustForHandTiming. rewrite Hoffset.
    destruct (scanPerformance (round points) eventData None) as [x|[b|]].
    + eexists. split; [reflexivity|]. split; reflexivity.
    + eexists. split; [reflexivity|]. split; reflexivity.
    + destruct (lowestEntry_spec eventData Hne) as (b & -> & _).
      eexists. split; [reflexivity|]. split; reflexivity.
Qed.

(** An offset of 0.24 s: 10.50 by hand is looked up as 10.74, and the
    1200-point row, 10.50, is given back as 10.26 by hand. *)
Lemma hand_timing_offsets_inverted_witness :
  (exists r,
     lookupPoints sampleLoaders "men" "100m" "10.50" true = Some r /\
     PointsResult.appliedOffset r = Some (Fin 0.24) /\
     PointsResult.originalPerformance r = Some (parseFloat "10.50")) /\
  (exists r,
     lookupPerformance sampleLoaders "men" "100m" (Fin 1200) true = Some r /\
     PerformanceResult.performance r = "10.26" /\
     PerformanceResult.appliedOffset r = Some (Fin (- 0.24)) /\
     PerformanceResult.originalPerformance r = Some "10.50").
Proof.
  destruct (hand_timing_offsets_inverted sampleLoaders "men" "100m" "sprints"
              [(1220, "10.40"); (1200, "10.50")] (Fin 0.24))
    as (Hforward & Hreverse).
  - reflexivity.
  - reflexivity.
  - discriminate.
  - reflexivity.
  - split.
    + destruct (Hforward "10.50" eq_refl) as (r0 & _ & Hr).
      eexists. split; [exact Hr|]. split; reflexivity.
    + destruct (Hreverse (Fin 1200)) as (r0 & Hr0 & _ & Hr).
      eexists. split; [exact Hr|].
      vm_compute in Hr0. inversion Hr0. subst r0. split; [|split]; reflexivity.
Defined.

End LookupProperties.

(* ===================================================================== *)
(** * Properties of the extractor: cleaning                               *)
(* ===================================================================== *)

Section CleaningProperties.
Import Js Extractor Spec.

(** ** The insertion-ordered map *)

Lemma mapGet_In (key : string) (m : UniqueMap) (v : TableEntry) :
  mapGet key m = Some v -> In (key, v) m.
Proof.
  induction m as [|[k x] m IH]; simpl; [discriminate|].
  destruct (String.eqb_spec k key) as [->|Hne].
  - intros [= ->]. left. reflexivity.
  - intros H. right. apply IH. exact H.
Qed.

Lemma mapGet_None (key : string) (m : UniqueMap) :
  mapGet key m = None -> ~ In key (map fst m).
Proof.
  induction m as [|[k x] m IH]; simpl; [tauto|].
  destruct (String.eqb_spec k key) as [->|Hne]; [discriminate|].
  intros H [Hk|Hk]; [contradiction|exact (IH H Hk)].
Qed.

Lemma mapSet_absent (key : string) (v : TableEntry) (m : UniqueMap) :
  ~ In key (map fst m) -> mapSet key v m = (m ++ [(key, v)])%list.
Proof.
  induction m as [|[k x] m IH]; simpl; [reflexivity|].
  intros Hnot. destruct (String.eqb_spec k key) as [->|Hne]; [tauto|].
  rewrite IH; [reflexivity|tauto].
Qed.

Lemma mapSet_keys_present (key : string) (v : TableEntry) (m : UniqueMap) :
  In key (map fst m) -> map fst (mapSet key v m) = map fst m.
Proof.
  induction m as [|[k x] m IH]; simpl; [tauto|].
  intros Hin. destruct (String.eqb_spec k key) as [->|Hne]; [reflexivity|].
  simpl. rewrite IH; [reflexivity|]. destruct Hin; [contradiction|assumption].
Qed.

Lemma mapSet_has (key : string) (v : TableEntry) (m : UniqueMap) :
  In (key, v) (mapSet key v m).
Proof.
  induction m as [|[k x] m IH]; simpl; [left; reflexivity|].
  destruct (String.eqb_spec k key) as [->|Hne]; [left; reflexivity|].
  right. exact IH.
Qed.

Lemma mapSet_In (key : string) (v : TableEntry) (m : UniqueMap)
    (k : string) (x : TableEntry) :
  In (k, x) (mapSet key v m) -> (k = key /\ x = v) \/ In (k, x) m.
Proof.
  induction m as [|[k0 x0] m IH]; simpl.
  - intros [[= <- <-]|[]]. left. split; reflexivity.
  - destruct (String.eqb_spec k0 key) as [->|Hne]; simpl.
    + intros [[= <- <-]|Hin]; [left; split; reflexivity|right; right; exact Hin].
    + intros [Heq|Hin]; [right; left; exact Heq|].
      destruct (IH Hin) as [H|H]; [left; exact H|right; right; exact H].
Qed.

Lemma mapSet_keeps (key : string) (v : TableEntry) (m : UniqueMap)
    (k : string) (x : TableEntry) :
  k <> key -> In (k, x) m -> In (k, x) (mapSet key v m).
Proof.
  intros Hk. induction m as [|[k0 x0] m IH]; simpl; [tauto|].
  destruct (String.eqb_spec k0 key) as [->|Hne]; simpl.
  - intros [[= <- <-]|Hin]; [contradiction|right; exact Hin].
  - intros [Heq|Hin]; [left; exact Heq|right; exact (IH Hin)].
Qed.

Lemma unique_keys_value (m : UniqueMap) (k : string) (a b : TableEntry) :
  List.NoDup (map fst m) -> In (k, a) m -> In (k, b) m -> a = b.
Proof.
  induction m as [|[k0 x0] m IH]; simpl; [tauto|].
  intros Hnd. inversion Hnd as [|? ? Hnot Hnd']; subst.
  intros [Ha|Ha] [Hb|Hb].
  - congruence.
  - inversion Ha; subst. elim Hnot.
    apply (in_map fst) in Hb. exact Hb.
  - inversion Hb; subst. elim Hnot.
    apply (in_map fst) in Ha. exact Ha.
  - exact (IH Hnd' Ha Hb).
Qed.

Lemma mapSet_NoDup (key : string) (v : TableEntry) (m : UniqueMap) :
  List.NoDup (map fst m) -> List.NoDup (map fst (mapSet key v m)).
Proof.
  intros Hnd. destruct (in_dec String.string_dec key (map fst m)) as [Hin|Hout].
  - rewrite mapSet_keys_present; assumption.
  - rewrite mapSet_absent by assumption. rewrite map_app. simpl.
    apply List.NoDup_app.
    + exact Hnd.
    + constructor; [intros []|constructor].
    + intros k Hk [<-|[]]. contradiction.
Qed.

(** ** The de-duplication loop *)

Lemma remember_step (m : UniqueMap) (seen : list TableEntry) (e : TableEntry) :
  remembers m seen -> remembers (remember m e) (seen ++ [e])%list.
Proof.
  intros (Hnd & Hval & Hcov). unfold remember.
  destruct (mapGet (performance e) m) as [old|] eqn:Hget.
  - apply mapGet_In in Hget.
    assert (Hkey : In (performance e) (map fst m)).
    { apply (in_map fst) in Hget. exact Hget. }
    destruct (Z.ltb_spec (points old) (points e)) as [Hlt|Hge].
    + split; [apply mapSet_NoDup; exact Hnd|]. split.
      * intros k v Hin.
        destruct (String.string_dec k (performance e)) as [->|Hk].
        -- assert (v = e) as ->.
           { eapply unique_keys_value;
               [apply mapSet_NoDup; exact Hnd|exact Hin|apply mapSet_has]. }
           split; [reflexivity|]. split; [apply in_or_app; right; left; reflexivity|].
           intros y Hy Hperf. apply in_app_or in Hy.
           destruct Hy as [Hy|[<-|[]]]; [|lia].
           destruct (Hval _ _ Hget) as (_ & _ & Hmax).
           specialize (Hmax y Hy Hperf). lia.
        -- apply mapSet_In in Hin. destruct Hin as [[Hin _]|Hin]; [contradiction|].
           destruct (Hval _ _ Hin) as (Hperf & Hseen & Hmax).
           split; [exact Hperf|]. split; [apply in_or_app; left; exact Hseen|].
           intros y Hy Hy'. apply in_app_or in Hy.
           destruct Hy as [Hy|[<-|[]]]; [exact (Hmax y Hy Hy')|congruence].
      * intros y Hy. rewrite mapSet_keys_present by exact Hkey.
        apply in_app_or in Hy. destruct Hy as [Hy|[<-|[]]]; [exact (Hcov y Hy)|exact Hkey].
    + split; [exact Hnd|]. split.
      * intros k v Hin. destruct (Hval _ _ Hin) as (Hperf & Hseen & Hmax).
        split; [exact Hperf|]. split; [apply in_or_app; left; exact Hseen|].
        intros y Hy Hy'. apply in_app_or in Hy.
        destruct Hy as [Hy|[<-|[]]]; [exact (Hmax y Hy Hy')|].
        subst k. rewrite <- Hy' in Hin.
        rewrite (unique_keys_value m _ v old Hnd Hin Hget). exact Hge.
      * intros y Hy. apply in_app_or in Hy.
        destruct Hy as [Hy|[<-|[]]]; [exact (Hcov y Hy)|exact Hkey].
  - apply mapGet_None in Hget.
    split; [apply mapSet_NoDup; exact Hnd|]. split.
    + intros k v Hin. apply mapSet_In in Hin.
      destruct Hin as [[-> ->]|Hin].
      * split; [reflexivity|]. split; [apply in_or_app; right; left; reflexivity|].
        intros y Hy Hperf. apply in_app_or in Hy.
        destruct Hy as [Hy|[<-|[]]]; [|lia].
        elim Hget. rewrite <- Hperf. exact (Hcov y Hy).
      * destruct (Hval _ _ Hin) as (Hperf & Hseen & Hmax).
        split; [exact Hperf|]. split; [apply in_or_app; left; exact Hseen|].
        intros y Hy Hy'. apply in_app_or in Hy.
        destruct Hy as [Hy|[<-|[]]]; [exact (Hmax y Hy Hy')|].
        elim Hget. rewrite Hy'. apply (in_map fst) in Hin. exact Hin.
    + intros y Hy. rewrite mapSet_absent by exact Hget.
      rewrite map_app. apply in_or_app. apply in_app_or in Hy.
      destruct Hy as [Hy|[<-|[]]]; [left; exact (Hcov y Hy)|right; left; reflexivity].
Qed.

Lemma remember_fold (entries : list TableEntry) :
  forall m seen,
    remembers m seen ->
    remembers (fold_left remember entries m) (seen ++ entries)%list.
Proof.
  induction entries as [|e entries IH]; intros m seen H; simpl.
  - rewrite app_nil_r. exact H.
  - replace (seen ++ e :: entries)%list with ((seen ++ [e]) ++ entries)%list
      by (rewrite <- app_assoc; reflexivity).
    apply IH. apply remember_step. exact H.
Qed.

Lemma uniqueEntries_spec (entries : list TableEntry) :
  List.NoDup (map performance (uniqueEntries entries)) /\
  (forall x, In x (uniqueEntries entries) ->
     In x entries /\
     forall y, In y entries -> performance y = performance x ->
               points y <= points x) /\
  (forall y, In y entries ->
     exists x, In x (uniqueEntries entries) /\ performance x = performance y).
Proof.
  unfold uniqueEntries.
  assert (remembers [] []) as H0.
  { split; [constructor|]. split; [intros ? ? []|intros ? []]. }
  pose proof (remember_fold entries [] [] H0) as (Hnd & Hval & Hcov).
  simpl in Hval, Hcov.
  set (m := fold_left remember entries []) in *.
  assert (Hkeys : map performance (map snd m) = map fst m).
  { rewrite map_map. apply map_ext_in. intros [k v] Hin.
    destruct (Hval k v Hin) as (Hperf & _). exact Hperf. }
  split; [rewrite Hkeys; exact Hnd|]. split.
  - intros x Hx. apply in_map_iff in Hx. destruct Hx as ([k v] & <- & Hin).
    destruct (Hval k v Hin) as (Hperf & Hseen & Hmax). simpl.
    split; [exact Hseen|]. intros y Hy Hy'. apply Hmax; congruence.
  - intros y Hy. specialize (Hcov y Hy).
    apply in_map_iff in Hcov. destruct Hcov as ([k v] & Hk & Hin).
    simpl in Hk. subst k. exists v. split.
    + apply in_map_iff. exists (performance y, v). split; [reflexivity|exact Hin].
    + destruct (Hval _ v Hin) as (Hperf & _). exact Hperf.
Qed.

(** ** The sort *)

Lemma insertBy_perm {A : Type} (cmp : A -> A -> Z) (x : A) (l : list A) :
  Permutation (insertBy cmp x l) (x :: l).
Proof.
  induction l as [|y l IH]; simpl; [reflexivity|].
  destruct (cmp y x <=? 0); [|reflexivity].
  rewrite IH. apply perm_swap.
Qed.

Lemma sortBy_perm {A : Type} (cmp : A -> A -> Z) (l : list A) :
  Permutation (sortBy cmp l) l.
Proof.
  unfold sortBy.
  assert (forall acc,
            Permutation (fold_left (fun acc x => insertBy cmp x acc) l acc)
              (acc ++ l)%list) as H.
  { induction l as [|x l IH]; intros acc; simpl.
    - rewrite app_nil_r. reflexivity.
    - rewrite IH, insertBy_perm. apply Permutation_middle. }
  exact (H []).
Qed.

Lemma insertBy_descending (x : TableEntry) (l : list TableEntry) :
  StronglySorted pointsDescend l ->
  StronglySorted pointsDescend (insertBy byPointsDescending x l).
Proof.
  induction l as [|y l IH]; intros Hs; simpl.
  - constructor; constructor.
  - inversion Hs as [|? ? Hl Hy]; subst.
    unfold byPointsDescending at 1.
    destruct (Z.leb_spec (points x - points y) 0) as [Hle|Hgt].
    + constructor; [exact (IH Hl)|].
      apply List.Forall_forall. intros z Hz.
      apply (Permutation_in _ (insertBy_perm byPointsDescending x l)) in Hz.
      destruct Hz as [<-|Hz]; [unfold pointsDescend; lia|].
      rewrite List.Forall_forall in Hy. exact (Hy z Hz).
    + constructor; [exact Hs|].
      apply List.Forall_forall. intros z [<-|Hz]; [unfold pointsDescend; lia|].
      rewrite List.Forall_forall in Hy. specialize (Hy z Hz).
      unfold pointsDescend in *. lia.
Qed.

Lemma sortBy_descending (l : list TableEntry) :
  StronglySorted pointsDescend (sortBy byPointsDescending l).
Proof.
  unfold sortBy.
  assert (forall acc,
            StronglySorted pointsDescend acc ->
            StronglySorted pointsDescend
              (fold_left (fun acc x => insertBy byPointsDescending x acc) l acc))
    as H.
  { induction l as [|x l IH]; intros acc Hacc; simpl; [exact Hacc|].
    apply IH. apply insertBy_descending. exact Hacc. }
  apply H. constructor.
Qed.

Lemma tableAt_cleaned
    (tables : gmap string (gmap string (gmap string (list TableEntry))))
    (gender category eventName : string) :
  tableAt (cleanAndSortData tables) gender category eventName =
  cleanEntries <$> tableAt tables gender category eventName.
Proof.
  unfold tableAt, cleanAndSortData.
  rewrite lookup_fmap. destruct (tables !! gender) as [categories|]; simpl;
    [|reflexivity].
  rewrite lookup_fmap. destruct (categories !! category) as [events|]; simpl;
    [|reflexivity].
  rewrite lookup_fmap. reflexivity.
Qed.

(** X24.  In a run without [--merge], where every row is an object that
    [storeCrossReferencedData] pushed: after [cleanAndSortData], the list
    filed under any gender, category and event is the cleaned form of the
    list that was there before: its performance strings are pairwise
    distinct; each entry kept
    comes from the raw list and has the most points of the raw entries with
    its performance; every raw performance is still represented; and the
    points never increase along the list. *)
Theorem cleanAndSortData_invariants
    (tables : gmap string (gmap string (gmap string (list TableEntry))))
    (gender category eventName : string) (cleaned : list TableEntry) :
  tableAt (cleanAndSortData tables) gender category eventName = Some cleaned ->
  exists raw,
    tableAt tables gender category eventName = Some raw /\
    List.NoDup (map performance cleaned) /\
    (forall x, In x cleaned ->
       In x raw /\
       forall y, In y raw -> performance y = performance x ->
                 points y <= points x) /\
    (forall y, In y raw ->
       exists x, In x cleaned /\ performance x = performance y) /\
    StronglySorted pointsDescend cleaned.
Proof.
  rewrite tableAt_cleaned.
  destruct (tableAt tables gender category eventName) as [raw|]; simpl;
    [|discriminate].
  intros [= <-]. exists raw. split; [reflexivity|].
  destruct (uniqueEntries_spec raw) as (Hnd & Hval & Hcov).
  unfold cleanEntries.
  pose proof (sortBy_perm byPointsDescending (uniqueEntries raw)) as Hperm.
  split; [|split; [|split]].
  - eapply Permutation_NoDup; [|exact Hnd].
    apply Permutation_map. symmetry. exact Hperm.
  - intros x Hx. apply Hval. eapply Permutation_in; [exact Hperm|exact Hx].
  - intros y Hy. destruct (Hcov y Hy) as (x & Hx & Hperf).
    exists x. split; [|exact Hperf].
    eapply Permutation_in; [symmetry; exact Hperm|exact Hx].
  - apply sortBy_descending.
Qed.

(** The sample tables: "10.00" keeps its 950 points, and the list comes
    out as 1200, 950, 800, 500. *)
Lemma cleanAndSortData_invariants_witness :
  tableAt (cleanAndSortData sampleTables) "men" "sprints" "100m"
    = Some sampleCleaned /\
  List.NoDup (map performance sampleCleaned) /\
  StronglySorted pointsDescend sampleCleaned.
Proof.
  assert (tableAt (cleanAndSortData sampleTables) "men" "sprints" "100m"
            = Some sampleCleaned) as Hrun by (vm_compute; reflexivity).
  split; [exact Hrun|].
  destruct (cleanAndSortData_invariants sampleTables "men" "sprints" "100m"
              sampleCleaned Hrun) as (raw & _ & Hnd & _ & _ & Hsorted).
  split; [exact Hnd|exact Hsorted].
Defined.

End CleaningProperties.

(* ===================================================================== *)
(** * Properties of the cleaning after a merge                            *)
(* ===================================================================== *)

Section MergeProperties.
Import Extractor Merge.

Lemma rowGet_asRows (key : string) (m : UniqueMap) :
  rowGet (Some key) (asRows m) = Extracted <$> mapGet key m.
Proof.
  induction m as [|[k v] m IH]; cbn [asRows map rowGet mapGet fst snd sameKey];
    [reflexivity|].
  destruct (String.eqb k key); [reflexivity|exact IH].
Qed.

Lemma rowSet_asRows (key : string) (v : TableEntry) (m : UniqueMap) :
  rowSet (Some key) (Extracted v) (asRows m) = asRows (mapSet key v m).
Proof.
  induction m as [|[k x] m IH]; cbn [asRows map rowSet mapSet fst snd sameKey];
    [reflexivity|].
  destruct (String.eqb k key); cbn [map fst snd]; [reflexivity|].
  f_equal. exact IH.
Qed.

Lemma rememberRow_asRows (m : UniqueMap) (entry : TableEntry) :
  rememberRow (asRows m) (Extracted entry) = asRows (remember m entry).
Proof.
  unfold rememberRow, remember. cbn [performanceOf].
  rewrite rowGet_asRows.
  destruct (mapGet (performance entry) m) as [seen|]; cbn [fmap option_fmap option_map].
  - unfold fewerPoints. cbn [pointsOf].
    destruct (points seen <? points entry); [apply rowSet_asRows|reflexivity].
  - apply rowSet_asRows.
Qed.

Lemma fold_rememberRow_asRows (entries : list TableEntry) :
  forall m,
    fold_left rememberRow (map Extracted entries) (asRows m)
    = asRows (fold_left remember entries m).
Proof.
  induction entries as [|entry entries IH]; intros m; cbn [map fold_left];
    [reflexivity|].
  rewrite rememberRow_asRows. apply IH.
Qed.

Lemma rowGet_undefined_absent (m : UniqueMap) : rowGet None (asRows m) = None.
Proof.
  induction m as [|[k v] m IH]; cbn [asRows map rowGet fst snd sameKey];
    [reflexivity|exact IH].
Qed.

Lemma rowSet_undefined (row : StoredRow) (m : UniqueMap) :
  rowSet None row (asRows m) = (asRows m ++ [(None, row)])%list.
Proof.
  induction m as [|[k v] m IH]; cbn [asRows map rowSet fst snd sameKey app];
    [reflexivity|].
  f_equal. exact IH.
Qed.

Lemma rowGet_undefined_last (row : StoredRow) (m : UniqueMap) :
  rowGet None (asRows m ++ [(None, row)])%list = Some row.
Proof.
  induction m as [|[k v] m IH]; cbn [asRows map rowGet fst snd sameKey app];
    [reflexivity|exact IH].
Qed.

(** Once an array is in the map, no later array gets in. *)
Lemma arrays_ignored (first : StoredRow) (m : UniqueMap)
    (others : list (Z * string)) :
  fold_left rememberRow
    (map (fun entry => Loaded (fst entry) (snd entry)) others)
    (asRows m ++ [(None, first)])%list
  = (asRows m ++ [(None, first)])%list.
Proof.
  induction others as [|[p s] others IH]; cbn [map fold_left fst snd];
    [reflexivity|].
  unfold rememberRow at 2. cbn [performanceOf].
  rewrite rowGet_undefined_last.
  unfold fewerPoints. cbn [pointsOf].
  destruct (pointsOf first); exact IH.
Qed.

Lemma uniqueRows_merged (extracted : list TableEntry) (points : Z)
    (performance : string) (others : list (Z * string)) :
  uniqueRows
    (loadAndMerge (map Extracted extracted) ((points, performance) :: others))
  = (map Extracted (uniqueEntries extracted) ++ [Loaded points performance])%list.
Proof.
  unfold uniqueRows, loadAndMerge. rewrite fold_left_app.
  change (@nil (option string * StoredRow)) with (asRows []).
  rewrite fold_rememberRow_asRows. cbn [map fold_left fst snd].
  unfold rememberRow at 2. cbn [performanceOf].
  rewrite rowGet_undefined_absent, rowSet_undefined, arrays_ignored.
  rewrite map_app. cbn [map snd]. f_equal.
  unfold uniqueEntries, asRows. rewrite !map_map. reflexivity.
Qed.

(** C5, in a run with [--merge].  When the file read by [loadAndMerge]
    holds at least one row for an event, [cleanAndSortData] leaves for that
    event the cleaned rows of the extraction and exactly one row of the
    file, the first, in some order: that row is an array, so it has neither
    [points] nor [performance], and every other row of the file is dropped,
    whatever its performance and points.  The list is then not one of
    entries with pairwise distinct performances in descending order of
    points. *)
Theorem cleanAndSortData_drops_merged_rows
    (sort : list StoredRow -> list StoredRow) (extracted : list TableEntry)
    (points : Z) (performance : string) (others : list (Z * string)) :
  (forall rows, Permutation (sort rows) rows) ->
  let merged :=
    loadAndMerge (map Extracted extracted) ((points, performance) :: others) in
  let cleaned := cleanRows sort merged in
  Permutation cleaned
    (map Extracted (uniqueEntries extracted) ++ [Loaded points performance])%list /\
  In (Loaded points performance) cleaned /\
  pointsOf (Loaded points performance) = None /\
  performanceOf (Loaded points performance) = None /\
  (forall p s, In (p, s) others -> (p, s) <> (points, performance) ->
     In (Loaded p s) merged /\ ~ In (Loaded p s) cleaned).
Proof.
  intros Hsort merged cleaned.
  assert (Hperm : Permutation cleaned
            (map Extracted (uniqueEntries extracted)
               ++ [Loaded points performance])%list).
  { unfold cleaned, cleanRows, merged. rewrite Hsort, uniqueRows_merged.
    reflexivity. }
  split; [exact Hperm|]. split.
  - apply (Permutation_in _ (Permutation_sym Hperm)).
    apply in_or_app. right. left. reflexivity.
  - split; [reflexivity|]. split; [reflexivity|].
    intros p s Hin Hother. split.
    + unfold merged, loadAndMerge. apply in_or_app. right. right.
      apply (in_map (fun entry => Loaded (fst entry) (snd entry)) others (p, s)).
      exact Hin.
    + intros Hkept. apply (Permutation_in _ Hperm) in Hkept.
      apply in_app_or in Hkept. destruct Hkept as [Hobject|[Hfirst|[]]].
      * apply in_map_iff in Hobject. destruct Hobject as (entry & Habs & _).
        discriminate.
      * injection Hfirst as -> ->. apply Hother. reflexivity.
Qed.

(** One extracted row for the event, and a file that holds two: the first
    row of the file is kept as it is, the second is lost. *)
Lemma cleanAndSortData_drops_merged_rows_witness :
  cleanRows (sortBy byPoints)
    (loadAndMerge [Extracted (mkEntry "10.50" 1200)]
       [(1220, "10.40"); (1210, "10.45")])
  = [Extracted (mkEntry "10.50" 1200); Loaded 1220 "10.40"] /\
  ~ In (Loaded 1210 "10.45")
      (cleanRows (sortBy byPoints)
         (loadAndMerge [Extracted (mkEntry "10.50" 1200)]
            [(1220, "10.40"); (1210, "10.45")])).
Proof.
  split; [vm_compute; reflexivity|].
  destruct (cleanAndSortData_drops_merged_rows (sortBy byPoints)
              [mkEntry "10.50" 1200] 1220 "10.40" [(1210, "10.45")]
              (sortBy_perm byPoints))
    as (_ & _ & _ & _ & Hdropped).
  apply (Hdropped 1210 "10.45"); [left; reflexivity|discriminate].
Defined.

End MergeProperties.

(* ===================================================================== *)
(** * Properties of the extractor: rows                                   *)
(* ===================================================================== *)

Section RowProperties.
Import Js Extractor Spec.

Lemma spanDigits_allDigits (s : string) :
  allDigits s = true -> spanDigits s = (s, EmptyString).
Proof.
  induction s as [|c r IH]; simpl; [reflexivity|].
  destruct (isDigit c); simpl; [|discriminate].
  intros H. rewrite (IH H). reflexivity.
Qed.

Lemma isDigit_cases (c : ascii) :
  isDigit c = true ->
  isSpace c = false /\ c <> "-"%char /\ c <> "+"%char /\
  c <> "x"%char /\ c <> "X"%char.
Proof.
  unfold isDigit, isSpace. intros H.
  repeat split; try (intros ->; vm_compute in H; discriminate).
  apply andb_prop in H. destruct H as (H1 & H2).
  apply Nat.leb_le in H1. apply Nat.leb_le in H2.
  apply orb_false_intro.
  - apply andb_false_intro2. apply Nat.leb_gt. lia.
  - apply Nat.eqb_neq. lia.
Qed.

Lemma dropSpaces_digit (c : ascii) (r : string) :
  isDigit c = true -> dropSpaces (String c r) = String c r.
Proof.
  intros Hc.
  destruct c as [[] [] [] [] [] [] [] []]; try discriminate Hc;
    destruct r as [|c2 [|c3 r3]]; reflexivity.
Qed.

(** On a token written with digits only, [parseInt] is the strict parse. *)
Lemma parseInt_strict (token : string) (p : Z) :
  strictPoints token = Some p -> parseInt token = Some p.
Proof.
  unfold strictPoints. destruct token as [|c r]; [discriminate|].
  destruct (allDigits (String c r)) eqn:Hall; [|discriminate].
  intros [= <-]. pose proof Hall as Hspan. apply spanDigits_allDigits in Hspan.
  simpl in Hall. apply andb_prop in Hall. destruct Hall as (Hc & Hr).
  destruct (isDigit_cases c Hc) as (Hsp & Hminus & Hplus & _).
  unfold parseInt. rewrite (dropSpaces_digit c r Hc).
  assert (Hhex : startsWith "0x" (String c r) || startsWith "0X" (String c r)
                 = false).
  { destruct r as [|c' r']; cbn [startsWith].
    - rewrite !andb_false_r. reflexivity.
    - simpl in Hr. apply andb_prop in Hr. destruct Hr as (Hc' & _).
      destruct (isDigit_cases c' Hc') as (_ & _ & _ & Hx & HX).
      assert (Ascii.eqb "x" c' = false) as -> by (apply Ascii.eqb_neq; congruence).
      assert (Ascii.eqb "X" c' = false) as -> by (apply Ascii.eqb_neq; congruence).
      rewrite !andb_false_r. reflexivity. }
  assert (Hrun : unsignedInt (String c r) = Some (digitsValue 0 (String c r))).
  { unfold unsignedInt. rewrite Hhex, Hspan. reflexivity. }
  destruct (Ascii.ascii_dec c "-") as [->|_]; [congruence|].
  destruct (Ascii.ascii_dec c "+") as [->|_]; [congruence|].
  destruct c as [[] [] [] [] [] [] [] []]; try exact Hrun; congruence.
Qed.

(** ** The fuel of the global match *)

Lemma spanDigits_length (s d r : string) :
  spanDigits s = (d, r) ->
  String.length s = (String.length d + String.length r)%nat.
Proof.
  revert d r. induction s as [|c s IH]; intros d r; simpl.
  - intros [= <- <-]. reflexivity.
  - destruct (isDigit c).
    + destruct (spanDigits s) as [d' r'] eqn:Hspan.
      intros [= <- <-]. simpl. rewrite (IH d' r' eq_refl). reflexivity.
    + intros [= <- <-]. reflexivity.
Qed.

Lemma colonPair_length (s g r : string) :
  colonPair s = Some (g, r) -> (String.length r < String.length s)%nat.
Proof.
  unfold colonPair.
  destruct s as [|c0 [|a [|b t]]]; try discriminate;
    destruct c0 as [[] [] [] [] [] [] [] []]; try discriminate.
  destruct (isDigit a && isDigit b); [|discriminate].
  intros [= <- <-]. simpl. lia.
Qed.

Lemma pointPair_length (s g r : string) :
  pointPair s = Some (g, r) -> (String.length r < String.length s)%nat.
Proof.
  unfold pointPair.
  destruct s as [|c0 [|a [|b t]]]; try discriminate;
    destruct c0 as [[] [] [] [] [] [] [] []]; try discriminate.
  destruct (isDigit a && isDigit b); [|discriminate].
  intros [= <- <-]. simpl. lia.
Qed.

Lemma performanceAt_shorter (s m rest : string) :
  performanceAt s = Some (m, rest) ->
  (String.length rest < String.length s)%nat.
Proof.
  unfold performanceAt.
  destruct (spanDigits s) as [d r0] eqn:Hspan.
  apply spanDigits_length in Hspan.
  destruct d as [|c d]; [discriminate|]. simpl in Hspan.
  assert (H1 : forall r, (String.length
            (snd match colonPair r with
                 | Some (g, r') => (g, r')
                 | None => (EmptyString, r)
                 end) <= String.length r)%nat).
  { intros r. destruct (colonPair r) as [[g r']|] eqn:Hc; simpl; [|lia].
    apply colonPair_length in Hc. lia. }
  assert (H2 : forall r, (String.length
            (snd match pointPair r with
                 | Some (g, r') => (g, r')
                 | None => (EmptyString, r)
                 end) <= String.length r)%nat).
  { intros r. destruct (pointPair r) as [[g r']|] eqn:Hc; simpl; [|lia].
    apply pointPair_length in Hc. lia. }
  pose proof (H1 r0) as Ha.
  destruct (match colonPair r0 with
            | Some (g, r) => (g, r)
            | None => (EmptyString, r0)
            end) as [c1 r1].
  simpl in Ha.
  assert (Hb : forall c2 r2,
            match c1 with
            | EmptyString => (EmptyString, r1)
            | String _ _ =>
                match colonPair r1 with
                | Some (g, r) => (g, r)
                | None => (EmptyString, r1)
                end
            end = (c2, r2) -> (String.length r2 <= String.length r1)%nat).
  { intros c2 r2. destruct c1; [intros [= <- <-]; lia|].
    intros Heq. pose proof (H1 r1) as Hle. rewrite Heq in Hle. exact Hle. }
  destruct (match c1 with
            | EmptyString => (EmptyString, r1)
            | String _ _ => _
            end) as [c2 r2] eqn:Hsecond.
  specialize (Hb c2 r2 eq_refl).
  pose proof (H2 r2) as Hc.
  destruct (match pointPair r2 with
            | Some (g, r) => (g, r)
            | None => (EmptyString, r2)
            end) as [pt r3].
  simpl in Hc. intros [= <- <-]. lia.
Qed.

Lemma performanceMatchesFrom_stable (n : nat) :
  forall fuel1 fuel2 s,
    (String.length s <= n)%nat -> (n <= fuel1)%nat -> (n <= fuel2)%nat ->
    performanceMatchesFrom fuel1 s = performanceMatchesFrom fuel2 s.
Proof.
  induction n as [|n IH]; intros fuel1 fuel2 s Hlen Hfuel1 Hfuel2.
  - destruct s; [|simpl in Hlen; lia]. destruct fuel1, fuel2; reflexivity.
  - destruct s as [|c s]; [destruct fuel1, fuel2; reflexivity|].
    destruct fuel1 as [|fuel1]; [lia|]. destruct fuel2 as [|fuel2]; [lia|].
    cbn [performanceMatchesFrom].
    destruct (performanceAt (String c s)) as [[m rest]|] eqn:Hat.
    + apply performanceAt_shorter in Hat. simpl in Hat, Hlen.
      f_equal. apply IH; lia.
    + simpl in Hlen. apply IH; lia.
Qed.

(** More fuel than the length of the token changes nothing. *)
Lemma performanceMatches_fuel (fuel : nat) (s : string) :
  (String.length s <= fuel)%nat ->
  performanceMatchesFrom fuel s = performanceMatches s.
Proof.
  intros Hfuel. unfold performanceMatches.
  apply (performanceMatchesFrom_stable (String.length s)); lia.
Qed.

Lemma zipPerformances_length (eventHeaders values : list string) :
  List.length (zipPerformances eventHeaders values) = List.length eventHeaders.
Proof. unfold zipPerformances. rewrite length_map, length_seq. reflexivity. Qed.

Lemma zipPerformances_cell (eventHeaders values : list string) (i : nat) :
  (i < List.length eventHeaders)%nat ->
  nth_error (zipPerformances eventHeaders values) i =
  Some (match nth_error values i with
        | Some v => parsePerformanceValue v
        | None => None
        end).
Proof.
  intros Hi. unfold zipPerformances.
  rewrite nth_error_map.
  assert (Hseq : forall n start, (i < n)%nat ->
            nth_error (seq start n) i = Some (start + i)%nat).
  { clear. revert i. induction i as [|i IH]; intros [|n] start Hn; try lia; simpl.
    - f_equal. lia.
    - rewrite IH by lia. f_equal. lia. }
  rewrite (Hseq _ 0%nat Hi). reflexivity.
Qed.

Lemma rejectedPoints_range (p : Z) :
  rejectedPoints (Some p) = false <-> 0 <= p <= 1500.
Proof.
  unfold rejectedPoints.
  destruct (Z.ltb_spec p 0), (Z.gtb_spec p 1500); simpl; split;
    intros; try lia; try discriminate; reflexivity.
Qed.

(** C6, as the code has it.  The points token is the first token of the
    repaired line for "left" and the last for "right".  It is read by
    [parseInt], which on a token of decimal digits is the strict parse but
    otherwise reads the leading digits and ignores what follows.  The row
    is kept exactly when that integer exists and lies in [0, 1500]; its
    points are that integer, and its performances have one cell per event
    header: cell [i] is token [i] of the remaining tokens when that token
    is made of digits, colons and points, and is absent for a dash, for
    any other token and past the last token.  A line without tokens gives
    no row. *)
Theorem parseCrossReferencedRow_reads_points (line : string)
    (eventHeaders : list string) :
  (allTokens line = [] ->
   forall pointsPosition,
     parseCrossReferencedRow line eventHeaders pointsPosition = None) /\
  (forall first rest,
     allTokens line = first :: rest ->
     parseCrossReferencedRow line eventHeaders "left" =
     match parseInt first with
     | Some p =>
         if (0 <=? p) && (p <=? 1500)
         then Some (mkRow (Some p) (zipPerformances eventHeaders rest) eventHeaders)
         else None
     | None => None
     end) /\
  (forall before final,
     allTokens line = (before ++ [final])%list ->
     parseCrossReferencedRow line eventHeaders "right" =
     match parseInt final with
     | Some p =>
         if (0 <=? p) && (p <=? 1500)
         then Some (mkRow (Some p) (zipPerformances eventHeaders before) eventHeaders)
         else None
     | None => None
     end) /\
  (forall token p, strictPoints token = Some p -> parseInt token = Some p) /\
  (forall values,
     List.length (zipPerformances eventHeaders values) = List.length eventHeaders /\
     forall i, (i < List.length eventHeaders)%nat ->
       nth_error (zipPerformances eventHeaders values) i =
       Some (match nth_error values i with
             | Some v =>
                 if String.eqb v "-" then None
                 else if allPerformanceChars v && negb (String.eqb v EmptyString)
                 then Some v else None
             | None => None
             end)).
Proof.
  assert (Hguard : forall p,
            rejectedPoints (Some p) = negb ((0 <=? p) && (p <=? 1500))).
  { intros p. unfold rejectedPoints.
    destruct (Z.ltb_spec p 0), (Z.gtb_spec p 1500),
      (Z.leb_spec 0 p), (Z.leb_spec p 1500); simpl; try reflexivity; lia. }
  split; [|split; [|split; [|split]]].
  - intros Hnone pointsPosition. unfold parseCrossReferencedRow.
    rewrite Hnone. reflexivity.
  - intros first rest Htokens. unfold parseCrossReferencedRow. rewrite Htokens.
    change (String.eqb "left" "left") with true. cbv iota.
    destruct (parseInt first) as [p|]; [|reflexivity].
    rewrite Hguard. destruct ((0 <=? p) && (p <=? 1500)); reflexivity.
  - intros before final Htokens. unfold parseCrossReferencedRow.
    destruct (allTokens line) as [|first others] eqn:Hall.
    { destruct before; discriminate. }
    change (String.eqb "right" "left") with false.
    change (String.eqb "right" "right") with true. cbv iota.
    rewrite Htokens, last_last, removelast_last.
    destruct (parseInt final) as [p|]; [|reflexivity].
    rewrite Hguard. destruct ((0 <=? p) && (p <=? 1500)); reflexivity.
  - exact parseInt_strict.
  - intros values. split; [apply zipPerformances_length|].
    intros i Hi. rewrite zipPerformances_cell by exact Hi.
    destruct (nth_error values i) as [v|]; [|reflexivity].
    unfold parsePerformanceValue. f_equal.
    destruct (String.eqb v EmptyString) eqn:Hempty.
    + apply String.eqb_eq in Hempty. subst v. reflexivity.
    + simpl. destruct (String.eqb v "-"); [reflexivity|].
      rewrite andb_true_r. reflexivity.
Qed.

(** The line "1200 10.50 - 21.34" under three event headers; and a line
    in which a no-break space stands between two spaces, under two: the
    three make one separator, and the performance goes to the first
    header. *)
Lemma parseCrossReferencedRow_reads_points_witness :
  parseCrossReferencedRow "1200 10.50 - 21.34" ["100m"; "200m"; "400m"] "left" =
  Some (mkRow (Some 1200) [Some "10.50"; None; Some "21.34"]
          ["100m"; "200m"; "400m"]) /\
  allTokens paddedLine = ["1200"; "10.50"] /\
  parseCrossReferencedRow paddedLine ["100m"; "200m"] "left" =
  Some (mkRow (Some 1200) [Some "10.50"; None] ["100m"; "200m"]).
Proof.
  destruct (parseCrossReferencedRow_reads_points "1200 10.50 - 21.34"
              ["100m"; "200m"; "400m"]) as (_ & Hleft & _).
  destruct (parseCrossReferencedRow_reads_points paddedLine ["100m"; "200m"])
    as (_ & Hpadded & _).
  split; [rewrite (Hleft "1200" ["10.50"; "-"; "21.34"]); reflexivity|].
  split; [reflexivity|].
  rewrite (Hpadded "1200" ["10.50"]); reflexivity.
Defined.

(** C6, as the specification words it, fails: the points token "1200.5"
    is not an integer under the strict reading, yet the row is kept, with
    1200 points. *)
Lemma parseCrossReferencedRow_not_strict :
  ~ (forall line eventHeaders first rest,
       allTokens line = first :: rest ->
       strictPoints first = None ->
       parseCrossReferencedRow line eventHeaders "left" = None).
Proof.
  intros Hstrict.
  specialize (Hstrict "1200.5 10.50" ["100m"] "1200.5" ["10.50"]
                eq_refl eq_refl).
  vm_compute in Hstrict. discriminate.
Qed.

End RowProperties.

(* ===================================================================== *)
(** * Properties of the pace formatter                                    *)
(* ===================================================================== *)

Section FormatterProperties.
Import Js PaceFormatter.

Lemma Qltb_lt (x y : Q) : Qltb x y = true <-> (x < y)%Q.
Proof.
  unfold Qltb. rewrite Qlt_alt. destruct (x ?= y)%Q; split; congruence.
Qed.

Lemma Qltb_ge (x y : Q) : Qltb x y = false <-> (y <= x)%Q.
Proof.
  rewrite <- not_true_iff_false, Qltb_lt. split.
  - apply Qnot_lt_le.
  - apply Qle_not_lt.
Qed.

Lemma append_nonempty (a b : string) (c : ascii) :
  (a ++ String c b)%string <> EmptyString.
Proof. destruct a; discriminate. Qed.

Lemma formatSubMinuteTime_nonempty (seconds : number) :
  formatSubMinuteTime seconds <> EmptyString.
Proof.
  unfold formatSubMinuteTime.
  destruct (geb _ _).
  - apply append_nonempty.
  - apply append_nonempty.
Qed.

Lemma clockTime_nonempty (seconds : number) : clockTime seconds <> EmptyString.
Proof.
  unfold clockTime. destruct (gtb _ _); apply append_nonempty.
Qed.

(** C9.  [formatPaceTime] and [formatTotalTime] return the empty string on
    [null], on [undefined], on [NaN] and on every negative number, and a
    string that is not empty on every finite number that is not negative.
    Being functions, they return on every input. *)
Theorem formatters_total :
  (forall v,
     v = Null \/ v = Undefined \/ v = Num NaN \/ v = Num NInf \/
     (exists q, (q < 0)%Q /\ v = Num (Fin q)) ->
     formatPaceTime v = EmptyString /\ formatTotalTime v = EmptyString) /\
  (forall q,
     (0 <= q)%Q ->
     formatPaceTime (Num (Fin q)) <> EmptyString /\
     formatTotalTime (Num (Fin q)) <> EmptyString).
Proof.
  split.
  - intros v [->|[->|[->|[->|(q & Hq & ->)]]]]; try (split; reflexivity).
    apply Qltb_lt in Hq.
    unfold formatPaceTime, formatTotalTime. cbn [isNaN ltb orb].
    rewrite Hq. split; reflexivity.
  - intros q Hq. apply Qltb_ge in Hq.
    unfold formatPaceTime, formatTotalTime. cbn [isNaN ltb orb].
    rewrite Hq.
    destruct (Qltb q 60); split;
      first [apply formatSubMinuteTime_nonempty|apply clockTime_nonempty].
Qed.

(** A negative time prints as nothing; 45.5 s prints as "45.5s" and
    3725.4 s as "1:02:05". *)
Lemma formatters_total_witness :
  formatPaceTime (Num (Fin (-1))) = EmptyString /\
  formatTotalTime (Num (Fin 45.5)) = "45.5s" /\
  formatPaceTime (Num (Fin 3725.4)) = "1:02:05" /\
  formatPaceTime (Num (Fin 45.5)) <> EmptyString.
Proof.
  destruct formatters_total as (Hempty & Hfull).
  split; [|split; [|split]].
  - apply (Hempty (Num (Fin (-1)))). do 4 right. exists (-1)%Q.
    split; reflexivity.
  - reflexivity.
  - reflexivity.
  - apply (Hfull 45.5%Q). discriminate.
Defined.

End FormatterProperties.

(* ===================================================================== *)
(** * Properties of the pace engine: round trips                          *)
(* ===================================================================== *)

Section EngineProperties.
Import Js PaceFormatter PaceEngine.

Local Open Scope Q_scope.

Lemma guard_passes (a b : Q) : 0 < a -> 0 < b -> Qle_bool a 0 || Qle_bool b 0 = false.
Proof.
  intros Ha Hb. apply orb_false_intro; apply not_true_iff_false;
    rewrite Qle_bool_iff; lra.
Qed.

Lemma guard_fires (a b : Q) : a <= 0 \/ b <= 0 -> Qle_bool a 0 || Qle_bool b 0 = true.
Proof.
  intros [H|H]; apply orb_true_intro; [left|right]; apply Qle_bool_iff; exact H.
Qed.

Lemma adjustedDistance_pos (distanceMetres : Q) (paceUnit : string) :
  0 < distanceMetres -> 0 < adjustedDistance distanceMetres paceUnit.
Proof.
  intros Hd. unfold adjustedDistance.
  destruct (String.eqb paceUnit "mile"), (String.eqb paceUnit "400m"),
    (String.eqb paceUnit "200m"), (String.eqb paceUnit "100m");
    cbv [orb convertDistance normalizeUnit toMetres String.eqb Ascii.eqb
         Bool.eqb];
    repeat (apply Qlt_shift_div_l; [reflexivity|]); lra.
Qed.

Lemma speed_factors (speedUnit : string) :
  0 < speedFactor speedUnit /\
  speedFactor speedUnit * speedToMetresPerSecond speedUnit == 1.
Proof.
  unfold speedFactor, speedToMetresPerSecond.
  destruct (String.eqb speedUnit "ms");
    [|destruct (String.eqb speedUnit "kmh");
      [|destruct (String.eqb speedUnit "mph");
        [|destruct (String.eqb speedUnit "fts");
          [|destruct (String.eqb speedUnit "yds")]]]];
    split; reflexivity.
Qed.

(** C4.  For a positive distance and a positive time, the pace computed by
    [calculatePace] gives the time back through [calculateTotalTime], in
    every pace unit, and the speed computed by [calculateSpeed] gives it
    back through [calculateTotalTimeFromSpeed], in every speed unit; the
    arithmetic being exact, the time comes back as the same rational.  All
    four functions throw when the distance, or their other argument, is
    zero or negative. *)
Theorem pace_and_speed_round_trip (distanceMetres totalTimeSeconds : Q)
    (unit : string) :
  (0 < distanceMetres -> 0 < totalTimeSeconds ->
   (exists pace time,
      calculatePace distanceMetres totalTimeSeconds unit = Returned pace /\
      calculateTotalTime distanceMetres pace unit = Returned time /\
      time == totalTimeSeconds) /\
   (exists speed time,
      calculateSpeed distanceMetres totalTimeSeconds unit = Returned speed /\
      calculateTotalTimeFromSpeed distanceMetres speed unit = Returned time /\
      time == totalTimeSeconds)) /\
  (distanceMetres <= 0 \/ totalTimeSeconds <= 0 ->
   (exists m, calculatePace distanceMetres totalTimeSeconds unit = Thrown m) /\
   (exists m, calculateTotalTime distanceMetres totalTimeSeconds unit = Thrown m) /\
   (exists m, calculateSpeed distanceMetres totalTimeSeconds unit = Thrown m) /\
   (exists m, calculateTotalTimeFromSpeed distanceMetres totalTimeSeconds unit
              = Thrown m)).
Proof.
  split.
  - intros Hd Ht. split.
    + pose proof (adjustedDistance_pos distanceMetres unit Hd) as Hadj.
      assert (Hpace : 0 < totalTimeSeconds / adjustedDistance distanceMetres unit).
      { apply Qlt_shift_div_l; [exact Hadj|]. lra. }
      eexists. eexists. unfold calculatePace, calculateTotalTime.
      rewrite (guard_passes _ _ Hd Ht), (guard_passes _ _ Hd Hpace).
      split; [reflexivity|]. split; [reflexivity|].
      field. lra.
    + destruct (speed_factors unit) as (Hf & Hfg).
      assert (Hspeed : 0 < distanceMetres / totalTimeSeconds * speedFactor unit).
      { apply Qmult_lt_0_compat; [|exact Hf].
        apply Qlt_shift_div_l; [exact Ht|]. lra. }
      eexists. eexists. unfold calculateSpeed, calculateTotalTimeFromSpeed.
      rewrite (guard_passes _ _ Hd Ht), (guard_passes _ _ Hd Hspeed).
      split; [reflexivity|]. split; [reflexivity|].
      cbv zeta.
      assert (Heq : distanceMetres / totalTimeSeconds * speedFactor unit
                    * speedToMetresPerSecond unit
                    == distanceMetres / totalTimeSeconds).
      { rewrite <- Qmult_assoc, Hfg. ring. }
      rewrite Heq. field. split; lra.
  - intros Hbad. pose proof (guard_fires _ _ Hbad) as Hguard.
    unfold calculatePace, calculateTotalTime, calculateSpeed,
      calculateTotalTimeFromSpeed.
    rewrite Hguard. repeat split; eexists; reflexivity.
Qed.

(** 5000 m in 1500 s, per 400 m and in miles per hour; and a distance of
    zero. *)
Lemma pace_and_speed_round_trip_witness :
  (exists pace time,
     calculatePace 5000 1500 "400m" = Returned pace /\
     calculateTotalTime 5000 pace "400m" = Returned time /\
     time == 1500) /\
  (exists speed time,
     calculateSpeed 5000 1500 "mph" = Returned speed /\
     calculateTotalTimeFromSpeed 5000 speed "mph" = Returned time /\
     time == 1500) /\
  (exists m, calculatePace 0 1500 "km" = Thrown m).
Proof.
  destruct (pace_and_speed_round_trip 5000 1500 "400m") as (Hpace & _).
  destruct (pace_and_speed_round_trip 5000 1500 "mph") as (Hspeed & _).
  destruct (pace_and_speed_round_trip 0 1500 "km") as (_ & Hthrow).
  split; [|split].
  - apply Hpace; reflexivity.
  - apply Hspeed; reflexivity.
  - apply Hthrow. left. discriminate.
Defined.

End EngineProperties.

(* ===================================================================== *)
(** * Properties of the split loops                                       *)
(* ===================================================================== *)

Section SplitProperties.
Import Js PaceFormatter PaceEngine PacePage Spec.

Local Open Scope Q_scope.

(** ** Ceilings and floors *)

Lemma inject_Z_pred (z : Z) : inject_Z (z - 1) == inject_Z z - 1.
Proof. unfold Z.sub. rewrite inject_Z_plus. reflexivity. Qed.

Lemma Qceiling_unique (x : Q) (z : Z) :
  inject_Z z - 1 < x -> x <= inject_Z z -> Qceiling x = z.
Proof.
  intros Hlo Hhi.
  pose proof (Qle_ceiling x) as Hc1. pose proof (Qceiling_lt x) as Hc2.
  rewrite inject_Z_pred in Hc2.
  assert (H1 : inject_Z (z - 1) < inject_Z (Qceiling x))
    by (rewrite inject_Z_pred; lra).
  assert (H2 : inject_Z (Qceiling x - 1) < inject_Z z)
    by (rewrite inject_Z_pred; lra).
  rewrite <- Zlt_Qlt in H1, H2. lia.
Qed.

Lemma Qceiling_pos (x : Q) : 0 < x -> (0 < Qceiling x)%Z.
Proof.
  intros Hx. pose proof (Qle_ceiling x) as Hc.
  assert (H : inject_Z 0 < inject_Z (Qceiling x))
    by (change (inject_Z 0) with 0; lra).
  rewrite <- Zlt_Qlt in H. exact H.
Qed.

Lemma Qceiling_bounds (x : Q) :
  inject_Z (Qceiling x) - 1 < x /\ x <= inject_Z (Qceiling x).
Proof.
  split; [rewrite <- inject_Z_pred; apply Qceiling_lt|apply Qle_ceiling].
Qed.

(** ** One turn of the loop *)

Lemma turns_at_end (fuel : nat) (distanceMetres splitIntervalMetres cur : Q) :
  distanceMetres <= cur ->
  turns fuel distanceMetres splitIntervalMetres cur = Some O.
Proof.
  intros Hend. apply Qltb_ge in Hend.
  destruct fuel; cbn [turns]; rewrite Hend; reflexivity.
Qed.

Lemma turns_count (distanceMetres splitIntervalMetres : Q) :
  0 < splitIntervalMetres ->
  forall fuel cur,
    cur <= distanceMetres ->
    (Qceiling ((distanceMetres - cur) / splitIntervalMetres) <= Z.of_nat fuel)%Z ->
    turns fuel distanceMetres splitIntervalMetres cur =
    Some (Z.to_nat (Qceiling ((distanceMetres - cur) / splitIntervalMetres))).
Proof.
  intros Hi. induction fuel as [|fuel IH]; intros cur Hcur Hfuel.
  all: destruct (Qlt_le_dec cur distanceMetres) as [Hlt|Hge].
  all: try (rewrite turns_at_end by exact Hge;
            rewrite (Qceiling_unique _ 0); [reflexivity| |];
            change (inject_Z 0) with 0;
            [apply Qlt_le_trans with 0; [reflexivity|];
             apply Qle_shift_div_l; [exact Hi|]; lra
            |apply Qle_shift_div_r; [exact Hi|]; lra]).
  - assert (0 < (distanceMetres - cur) / splitIntervalMetres) as Hpos.
    { apply Qlt_shift_div_l; [exact Hi|]. lra. }
    apply Qceiling_pos in Hpos. simpl in Hfuel. lia.
  - cbn [turns]. apply Qltb_lt in Hlt. rewrite Hlt. apply Qltb_lt in Hlt.
    set (x := (distanceMetres - cur) / splitIntervalMetres) in *.
    assert (Hx : x * splitIntervalMetres == distanceMetres - cur)
      by (unfold x; field; lra).
    destruct (Qceiling_bounds x) as (Hlo & Hhi).
    unfold advance.
    destruct (Qltb distanceMetres (cur + splitIntervalMetres)) eqn:Hcap.
    + apply Qltb_lt in Hcap.
      rewrite turns_at_end by apply Qle_refl.
      assert (Hone : Qceiling x = 1%Z).
      { apply Qceiling_unique; change (inject_Z 1) with 1.
        - apply Qlt_shift_div_l; [exact Hi|]. lra.
        - apply Qle_shift_div_r; [exact Hi|]. lra. }
      rewrite Hone. reflexivity.
    + apply Qltb_ge in Hcap.
      assert (Hshift : (distanceMetres - (cur + splitIntervalMetres))
                         / splitIntervalMetres == x - 1)
        by (unfold x; field; lra).
      assert (Hnext : Qceiling ((distanceMetres - (cur + splitIntervalMetres))
                                  / splitIntervalMetres)
                      = (Qceiling x - 1)%Z).
      { rewrite Hshift. apply Qceiling_unique; rewrite inject_Z_pred; lra. }
      assert (Hk : (0 < Qceiling x)%Z).
      { apply Qceiling_pos. apply Qlt_shift_div_l; [exact Hi|]. lra. }
      rewrite IH; [|exact Hcap|rewrite Hnext; lia].
      rewrite Hnext. simpl. f_equal. lia.
Qed.

(** ** The two split loops take the same turns *)

Lemma smartLoop_turns (distanceMetres pacePerKm splitIntervalMetres : Q)
    (info : IntervalInfo) :
  forall fuel cur previousDistance previousTime,
    List.length <$> smartLoop fuel distanceMetres pacePerKm splitIntervalMetres
                      info cur previousDistance previousTime
    = turns fuel distanceMetres splitIntervalMetres cur.
Proof.
  induction fuel as [|fuel IH]; intros cur previousDistance previousTime;
    cbn [smartLoop turns]; destruct (Qltb cur distanceMetres); try reflexivity.
  match goal with
  | |- context [smartLoop fuel ?d ?p ?i ?n ?c ?pd ?pt] =>
      rewrite <- (IH c pd pt); destruct (smartLoop fuel d p i n c pd pt); reflexivity
  end.
Qed.

Lemma customLoop_turns (distanceMetres pacePerKm splitIntervalMetres : Q)
    (info : option IntervalInfo) :
  forall fuel cur previousDistance previousTime,
    List.length <$> customLoop fuel distanceMetres pacePerKm splitIntervalMetres
                      info cur previousDistance previousTime
    = turns fuel distanceMetres splitIntervalMetres cur.
Proof.
  induction fuel as [|fuel IH]; intros cur previousDistance previousTime;
    cbn [customLoop turns]; destruct (Qltb cur distanceMetres); try reflexivity.
  match goal with
  | |- context [customLoop fuel ?d ?p ?i ?n ?c ?pd ?pt] =>
      rewrite <- (IH c pd pt); destruct (customLoop fuel d p i n c pd pt); reflexivity
  end.
Qed.

Lemma turns_from_start (distanceMetres splitIntervalMetres : Q) (fuel : nat) :
  0 < distanceMetres -> 0 < splitIntervalMetres ->
  (Z.to_nat (Qceiling (distanceMetres / splitIntervalMetres)) <= fuel)%nat ->
  turns fuel distanceMetres splitIntervalMetres 0 =
  Some (Z.to_nat (Qceiling (distanceMetres / splitIntervalMetres))).
Proof.
  intros Hd Hi Hfuel.
  assert (Heq : (distanceMetres - 0) / splitIntervalMetres
                == distanceMetres / splitIntervalMetres) by (field; lra).
  rewrite <- Heq in Hfuel |- *.
  apply turns_count; [exact Hi|lra|lia].
Qed.

(** ** The loop that grows the interval *)

Lemma tooManySplits_floor (distanceMetres splitIntervalMetres : Q) :
  0 < splitIntervalMetres ->
  tooManySplits distanceMetres splitIntervalMetres =
  (100 <=? Qfloor (distanceMetres / splitIntervalMetres))%Z.
Proof.
  intros Hi. unfold tooManySplits.
  destruct (Qeq_bool splitIntervalMetres 0) eqn:Hzero; [|reflexivity].
  apply Qeq_bool_iff in Hzero. lra.
Qed.

Lemma growInterval_returns (distanceMetres : Q) :
  0 < distanceMetres ->
  forall fuel multiplier splitIntervalMetres intervalValue,
    0 < splitIntervalMetres ->
    (Qfloor (distanceMetres / splitIntervalMetres) <= Z.of_nat fuel)%Z ->
    exists m i v,
      growInterval fuel distanceMetres multiplier splitIntervalMetres intervalValue
        = Some (m, i, v) /\
      0 < i /\ (Qfloor (distanceMetres / i) < 100)%Z.
Proof.
  intros Hd. induction fuel as [|fuel IH];
    intros multiplier interval intervalValue Hi Hfuel;
    cbn [growInterval]; rewrite (tooManySplits_floor _ _ Hi);
    destruct (Z.leb_spec 100 (Qfloor (distanceMetres / interval))) as [Hmany|Hfew].
  - lia.
  - exists multiplier, interval, intervalValue. repeat split; assumption.
  - apply IH; [lra|].
    set (x := distanceMetres / interval) in *.
    assert (Hx : distanceMetres / (interval * 10) == x / 10)
      by (unfold x; field; lra).
    rewrite Hx.
    pose proof (Qfloor_le x) as Hfl. pose proof (Qlt_floor x) as Hfu.
    rewrite inject_Z_plus in Hfu. change (inject_Z 1) with 1 in Hfu.
    assert (H100 : inject_Z 100 <= inject_Z (Qfloor x))
      by (rewrite <- Zle_Qle; exact Hmany).
    change (inject_Z 100) with 100 in H100.
    pose proof (Qfloor_le (x / 10)) as Hgl.
    assert (Hlt : inject_Z (Qfloor (x / 10)) < inject_Z (Qfloor x)).
    { apply Qle_lt_trans with (x / 10); [exact Hgl|].
      apply Qlt_shift_div_r; [reflexivity|]. lra. }
    rewrite <- Zlt_Qlt in Hlt. lia.
  - exists multiplier, interval, intervalValue. repeat split; assumption.
Qed.

Lemma Qceiling_le_floor_succ (x : Q) : (Qceiling x <= Qfloor x + 1)%Z.
Proof.
  pose proof (Qlt_floor x) as Hfu. pose proof (Qceiling_lt x) as Hcl.
  assert (H : inject_Z (Qceiling x - 1) < inject_Z (Qfloor x + 1))
    by (eapply Qlt_trans; [exact Hcl|exact Hfu]).
  rewrite <- Zlt_Qlt in H. lia.
Qed.

(** C7, evaluated.  Over 9950 m with an interval of 100 m there are 99
    whole splits, so the interval is left alone (the multiplier stays 1),
    and the loop then produces 100 rows: 99 whole ones and the last 50 m.
    The example of the specification does hold: 1 m over 100 000 m becomes
    10 000 m, and 10 rows. *)
Theorem calculateSmartSplits_hundred_rows :
  growInterval 100 9950 1 100 100 = Some (1, 100, 100) /\
  (exists splits,
     calculateSmartSplits 100 9950 300 sampleEvent 100 (mkInfo 100 100 "m")
       = Some splits /\
     List.length splits = 100%nat) /\
  (exists m i v,
     growInterval 100 100000 1 1 1 = Some (m, i, v) /\
     m == 10000 /\ i == 10000 /\ v == 10000) /\
  (exists splits,
     calculateSmartSplits 100 100000 300 sampleEvent 1 (mkInfo 1 1 "m")
       = Some splits /\
     List.length splits = 10%nat).
Proof.
  split; [reflexivity|]. split; [|split].
  - assert (Hrows : List.length <$> calculateSmartSplits 100 9950 300 sampleEvent
                                       100 (mkInfo 100 100 "m")
                    = Some 100%nat) by (vm_compute; reflexivity).
    destruct (calculateSmartSplits 100 9950 300 sampleEvent 100
                (mkInfo 100 100 "m")) as [splits|]; [|discriminate].
    exists splits. split; [reflexivity|].
    injection Hrows as Hrows. exact Hrows.
  - eexists. eexists. eexists. split; [vm_compute; reflexivity|].
    repeat split; reflexivity.
  - eexists. split; [vm_compute; reflexivity|]. reflexivity.
Qed.

End SplitProperties.

(* ===================================================================== *)
(** * Properties of the collapsible panels                                *)
(* ===================================================================== *)

Section PanelProperties.
Import Collapsible PaceEngine PacePage Spec.

(** C8, evaluated.  Both panels go through [makeCollapsible], under two
    different keys.  With nothing stored under either key, the equivalent
    paces start collapsed, but the split times start expanded: the call in
    [displaySplits] passes [false] for [defaultCollapsed], under a comment
    that says the panel starts collapsed. *)
Theorem splits_panel_starts_expanded (sessionStorage : gmap string string)
    (splits : list Split) :
  sessionStorage !! "paceCalculator.equivalentPaces.collapsed" = None ->
  sessionStorage !! "paceCalculator.splitTimes.collapsed" = None ->
  splits <> [] ->
  storageKey (equivalentsPanel sessionStorage)
    = "paceCalculator.equivalentPaces.collapsed" /\
  contentCollapsed (equivalentsPanel sessionStorage) = true /\
  exists panel,
    displaySplits sessionStorage splits = Some panel /\
    storageKey panel = "paceCalculator.splitTimes.collapsed" /\
    storageKey panel <> storageKey (equivalentsPanel sessionStorage) /\
    contentCollapsed panel = false /\
    ariaExpanded panel = "true".
Proof.
  intros Hequivalents Hsplits Hne.
  unfold equivalentsPanel, displaySplits, makeCollapsible, isCollapsed.
  rewrite Hequivalents, Hsplits.
  split; [reflexivity|]. split; [reflexivity|].
  destruct splits as [|split0 rest]; [contradiction|].
  eexists. split; [reflexivity|]. simpl.
  repeat split; try reflexivity. discriminate.
Qed.

(** A fresh session, and one split to show. *)
Lemma splits_panel_starts_expanded_witness :
  contentCollapsed (equivalentsPanel ∅) = true /\
  exists panel,
    displaySplits ∅ [mkSplit "1km" "1km" 300 300] = Some panel /\
    contentCollapsed panel = false.
Proof.
  destruct (splits_panel_starts_expanded ∅ [mkSplit "1km" "1km" 300 300])
    as (_ & Hequivalents & panel & Hrun & _ & _ & Hopen & _).
  - reflexivity.
  - reflexivity.
  - discriminate.
  - split; [exact Hequivalents|]. exists panel. split; [exact Hrun|exact Hopen].
Defined.

End PanelProperties.

(* ===================================================================== *)
(** * Further properties of the performance lookup                        *)
(* ===================================================================== *)

Section LookupOutcomes.
Import Js Lookup Spec.

Lemma scanPoints_outcome (d : bool) (p : number) (table : list Entry) :
  forall start,
    match scanPoints d p table start with
    | ExactAt e =>
        exists before after,
          table = (before ++ e :: after)%list /\
          (forall x, In x before ->
             withinTolerance (parseFloat (snd x)) p = false) /\
          withinTolerance (parseFloat (snd e)) p = true
    | Tracked best =>
        (forall x, In x table -> withinTolerance (parseFloat (snd x)) p = false) /\
        (best = start \/ exists b, best = Some b /\ In b table)
    end.
Proof.
  induction table as [|e table IH]; intros start; cbn [scanPoints].
  - split; [intros ? []|left; reflexivity].
  - destruct (withinTolerance (parseFloat (snd e)) p) eqn:Hnear.
    + exists [], table. repeat split; [intros ? []|exact Hnear].
    + set (next := if beats d p (parseFloat (snd e))
                   then keepHigher start e else start).
      specialize (IH next).
      destruct (scanPoints d p table next) as [x|best].
      * destruct IH as (before & after & -> & Hfar & Hx).
        exists (e :: before), after. repeat split; [|exact Hx].
        intros y [<-|Hy]; [exact Hnear|exact (Hfar y Hy)].
      * destruct IH as (Hfar & Hbest). split.
        -- intros y [<-|Hy]; [exact Hnear|exact (Hfar y Hy)].
        -- destruct Hbest as [->|(b & -> & Hb)].
           ++ unfold next, keepHigher.
              destruct (beats d p (parseFloat (snd e))); [|left; reflexivity].
              destruct start as [c|];
                [destruct (fst e >? fst c); [|left; reflexivity]|];
                right; exists e; split; auto; left; reflexivity.
           ++ right. exists b. split; [reflexivity|right; exact Hb].
Qed.

Lemma lookupPoints_found (L : Loaders) (gender event performance : string)
    (isHandTimed : bool) (category : string) (eventData : list Entry) :
  usableCategory (findCategory L gender event) = Some category ->
  getEventData L gender category event = Some eventData ->
  eventData <> [] ->
  lookupPoints L gender event performance isHandTimed =
  if isNaN (effectivePerformance L event performance isHandTimed) then None
  else
    searchPoints (isFieldEvent event) eventData
      (effectivePerformance L event performance isHandTimed)
      (if isHandTimed then usableOffset (getHandTimingOffset L event) else None)
      (if isHandTimed
       then match usableOffset (getHandTimingOffset L event) with
            | Some _ => Some (parseFloat performance)
            | None => None
            end
       else None).
Proof.
  intros Hcat Hdata Hne. unfold lookupPoints, effectivePerformance.
  rewrite Hcat, Hdata. destruct eventData as [|e0 rest]; [contradiction|].
  destruct isHandTimed;
    [destruct (usableOffset (getHandTimingOffset L event))|]; reflexivity.
Qed.

Lemma lookupPoints_some_iff (L : Loaders)
    (gender event performance : string) (isHandTimed : bool) :
  (exists r, lookupPoints L gender event performance isHandTimed = Some r) <->
  (exists category eventData,
     usableCategory (findCategory L gender event) = Some category /\
     getEventData L gender category event = Some eventData /\
     eventData <> [] /\
     isNaN (effectivePerformance L event performance isHandTimed) = false).
Proof.
  split.
  - intros (r & Hr).
    destruct (usableCategory (findCategory L gender event)) as [category|] eqn:Hcat;
      [|unfold lookupPoints in Hr; rewrite Hcat in Hr; discriminate].
    destruct (getEventData L gender category event) as [eventData|] eqn:Hdata;
      [|unfold lookupPoints in Hr; rewrite Hcat, Hdata in Hr; discriminate].
    destruct eventData as [|e0 rest] eqn:Htable;
      [unfold lookupPoints in Hr; rewrite Hcat, Hdata in Hr; discriminate|].
    exists category, (e0 :: rest).
    repeat split; [exact Hdata|discriminate|].
    rewrite (lookupPoints_found L gender event performance isHandTimed
               category (e0 :: rest) Hcat Hdata) in Hr by discriminate.
    destruct (isNaN (effectivePerformance L event performance isHandTimed));
      [discriminate|reflexivity].
  - intros (category & eventData & Hcat & Hdata & Hne & Hnum).
    rewrite (lookupPoints_found L gender event performance isHandTimed
               category eventData Hcat Hdata Hne), Hnum.
    apply searchPoints_returns. exact Hne.
Qed.

(** X1.  [lookupPoints] answers exactly when the event has a category, the
    category has a table that is not empty, and the performance, with the
    hand-timing offset applied, is a number; in every other case it gives
    [null]. *)
Theorem lookupPoints_returns_iff (L : Loaders)
    (gender event performance : string) (isHandTimed : bool) :
  (exists r, lookupPoints L gender event performance isHandTimed = Some r) <->
  (exists category eventData,
     usableCategory (findCategory L gender event) = Some category /\
     getEventData L gender category event = Some eventData /\
     eventData <> [] /\
     isNaN (effectivePerformance L event performance isHandTimed) = false).
Proof. apply lookupPoints_some_iff. Qed.

(** X2.  When the table is found and the performance is a number,
    [lookupPoints] reports [exactMatch] exactly when some row passes the
    test of the code, [Math.abs(perfValue - perfNum) < 0.005] on the
    binary64 numbers; the row it then returns is the first such row of the
    table. *)
Theorem lookupPoints_exact_match (L : Loaders)
    (gender event performance : string) (isHandTimed : bool)
    (category : string) (eventData : list Entry) :
  usableCategory (findCategory L gender event) = Some category ->
  getEventData L gender category event = Some eventData ->
  eventData <> [] ->
  let perfNum := effectivePerformance L event performance isHandTimed in
  isNaN perfNum = false ->
  exists r,
    lookupPoints L gender event performance isHandTimed = Some r /\
    (PointsResult.exactMatch r = true <->
     exists e, In e eventData /\
               withinTolerance (parseFloat (snd e)) perfNum = true) /\
    (PointsResult.exactMatch r = true ->
     exists before after,
       eventData =
         (before ++ (PointsResult.points r, PointsResult.closestPerformance r)
                    :: after)%list /\
       (forall x, In x before ->
          withinTolerance (parseFloat (snd x)) perfNum = false) /\
       withinTolerance (parseFloat (PointsResult.closestPerformance r)) perfNum
         = true).
Proof.
  intros Hcat Hdata Hne perfNum Hnum.
  rewrite (lookupPoints_found L gender event performance isHandTimed
             category eventData Hcat Hdata Hne).
  fold perfNum. rewrite Hnum. unfold searchPoints.
  pose proof (scanPoints_outcome (isFieldEvent event) perfNum eventData None)
    as Hscan.
  destruct (scanPoints (isFieldEvent event) perfNum eventData None) as [x|best].
  - destruct Hscan as (before & after & Htable & Hfar & Hx).
    eexists. split; [reflexivity|]. simpl. split.
    + split; [intros _|reflexivity].
      exists x. split; [|exact Hx]. rewrite Htable. apply in_elt.
    + intros _. exists before, after. rewrite <- surjective_pairing.
      repeat split; assumption.
  - destruct Hscan as (Hfar & _).
    assert (Hlow : exists b,
              match best with Some _ => best | None => lowestEntry eventData end
              = Some b).
    { destruct best as [b|]; [eauto|].
      destruct (lowestEntry_spec eventData Hne) as (b & -> & _). eauto. }
    destruct Hlow as (b & ->).
    eexists. split; [reflexivity|]. simpl. split.
    + split; [discriminate|].
      intros (e & He & Hnear). rewrite (Hfar e He) in Hnear. discriminate.
    + discriminate.
Qed.

(** The sample table holds 10.40, and 10.405 passes the test against it:
    the difference of the two binary64 numbers is a little under 0.005. *)
Lemma lookupPoints_exact_match_witness :
  exists r,
    lookupPoints sampleLoaders "men" "100m" "10.405" false = Some r /\
    PointsResult.exactMatch r = true /\
    PointsResult.points r = 1220.
Proof.
  destruct (lookupPoints_exact_match sampleLoaders "men" "100m" "10.405" false
              "sprints" [(1220, "10.40"); (1200, "10.50")])
    as (r & Hr & Hiff & _).
  - reflexivity.
  - reflexivity.
  - discriminate.
  - reflexivity.
  - exists r. split; [exact Hr|]. split.
    + apply Hiff. exists (1220, "10.40").
      split; [left; reflexivity|vm_compute; reflexivity].
    + vm_compute in Hr. inversion Hr. reflexivity.
Defined.

Lemma lookupPerformance_some_iff (L : Loaders) (gender event : string)
    (points : number) (isHandTimed : bool) :
  (exists r, lookupPerformance L gender event points isHandTimed = Some r) <->
  (exists category eventData,
     usableCategory (findCategory L gender event) = Some category /\
     getEventData L gender category event = Some eventData /\
     eventData <> []).
Proof.
  unfold lookupPerformance. split.
  - intros (r & Hr).
    destruct (usableCategory (findCategory L gender event)) as [category|];
      [|discriminate].
    destruct (getEventData L gender category event) as [[|e0 rest]|] eqn:Hdata;
      try discriminate.
    exists category, (e0 :: rest). repeat split; [exact Hdata|discriminate].
  - intros (category & eventData & -> & -> & Hne).
    destruct eventData as [|e0 rest] eqn:Htable; [contradiction|].
    rewrite <- Htable in *. clear e0 rest Htable.
    destruct (scanPerformance (round points) eventData None) as [x|[b|]].
    + destruct (adjustForHandTiming L event isHandTimed (snd x)) as [[p a] o].
      eauto.
    + destruct (adjustForHandTiming L event isHandTimed (snd b)) as [[p a] o].
      eauto.
    + destruct (lowestEntry_spec eventData Hne) as (b & -> & _).
      destruct (adjustForHandTiming L event isHandTimed (snd b)) as [[p a] o].
      eauto.
Qed.

(** X3.  [lookupPerformance] answers for every score, [NaN] and the
    infinities included, as soon as the event has a category and a table
    that is not empty, and gives [null] in every other case. *)
Theorem lookupPerformance_returns_iff (L : Loaders) (gender event : string)
    (points : number) (isHandTimed : bool) :
  (exists r, lookupPerformance L gender event points isHandTimed = Some r) <->
  (exists category eventData,
     usableCategory (findCategory L gender event) = Some category /\
     getEventData L gender category event = Some eventData /\
     eventData <> []).
Proof. apply lookupPerformance_some_iff. Qed.

End LookupOutcomes.

Section LookupRanges.
Import Js Lookup Spec Ranges.

Lemma lookupPoints_row (L : Loaders) (gender event performance : string)
    (isHandTimed : bool) (category : string) (eventData : list Entry)
    (r : PointsResult.t) :
  usableCategory (findCategory L gender event) = Some category ->
  getEventData L gender category event = Some eventData ->
  lookupPoints L gender event performance isHandTimed = Some r ->
  In (PointsResult.points r, PointsResult.closestPerformance r) eventData.
Proof.
  intros Hcat Hdata Hr.
  destruct eventData as [|e0 rest] eqn:Htable;
    [unfold lookupPoints in Hr; rewrite Hcat, Hdata in Hr; discriminate|].
  rewrite <- Htable in *.
  assert (Hne : eventData <> []) by (rewrite Htable; discriminate).
  rewrite (lookupPoints_found L gender event performance isHandTimed
             category eventData Hcat Hdata Hne) in Hr.
  destruct (isNaN _); [discriminate|]. unfold searchPoints in Hr.
  pose proof (scanPoints_outcome (isFieldEvent event)
                (effectivePerformance L event performance isHandTimed)
                eventData None) as Hscan.
  destruct (scanPoints _ _ eventData None) as [x|best].
  - destruct Hscan as (before & after & Hsplit & _).
    injection Hr as <-. simpl. rewrite <- surjective_pairing.
    rewrite Hsplit. apply in_elt.
  - destruct Hscan as (_ & [->|(b & -> & Hb)]).
    + destruct (lowestEntry_spec eventData Hne) as (b & Hlow & Hb & _).
      rewrite Hlow in Hr. injection Hr as <-. simpl.
      rewrite <- surjective_pairing. exact Hb.
    + injection Hr as <-. simpl. rewrite <- surjective_pairing. exact Hb.
Qed.

Lemma lookupPerformance_row (L : Loaders) (gender event : string)
    (points : number) (isHandTimed : bool) (category : string)
    (eventData : list Entry) (r : PerformanceResult.t) :
  usableCategory (findCategory L gender event) = Some category ->
  getEventData L gender category event = Some eventData ->
  lookupPerformance L gender event points isHandTimed = Some r ->
  In (PerformanceResult.points r, tablePerformance r) eventData /\
  (PerformanceResult.exactMatch r = true <->
   exists e, In e eventData /\ eqb (ofZ (fst e)) (round points) = true).
Proof.
  intros Hcat Hdata Hr. unfold lookupPerformance in Hr.
  rewrite Hcat, Hdata in Hr.
  destruct eventData as [|e0 rest] eqn:Htable; [discriminate|].
  rewrite <- Htable in *.
  assert (Hne : eventData <> []) by (rewrite Htable; discriminate).
  clear e0 rest Htable.
  pose proof (scanPerformance_spec (round points) eventData None) as Hscan.
  destruct (scanPerformance (round points) eventData None) as [x|best].
  - destruct Hscan as (Hin & Hx).
    pose proof (adjustForHandTiming_table L event isHandTimed (snd x) true (fst x))
      as Hadj.
    destruct (adjustForHandTiming L event isHandTimed (snd x)) as [[p a] o].
    destruct Hadj as (Htab & _). injection Hr as <-.
    rewrite Htab. cbn [PerformanceResult.points PerformanceResult.exactMatch]. rewrite <- surjective_pairing.
    split; [exact Hin|]. split; [intros _; eauto|reflexivity].
  - destruct Hscan as (Hnone & Hbest).
    assert (Hrow : exists b,
              In b eventData /\
              match best with Some _ => best | None => lowestEntry eventData end
              = Some b).
    { destruct best as [b|].
      - destruct Hbest as ([Hb|[Hb _]] & _); [discriminate|eauto].
      - destruct (lowestEntry_spec eventData Hne) as (b & -> & Hb & _). eauto. }
    destruct Hrow as (b & Hb & Hsel).
    assert (Hres : exists p a o,
              adjustForHandTiming L event isHandTimed (snd b) = (p, a, o) /\
              r = PerformanceResult.mk p false (fst b) a o).
    { destruct best as [b'|].
      - injection Hsel as ->.
        destruct (adjustForHandTiming L event isHandTimed (snd b)) as [[p a] o].
        injection Hr as <-. eauto.
      - rewrite Hsel in Hr.
        destruct (adjustForHandTiming L event isHandTimed (snd b)) as [[p a] o].
        injection Hr as <-. eauto. }
    destruct Hres as (p & a & o & Hadj & ->).
    pose proof (adjustForHandTiming_table L event isHandTimed (snd b) false (fst b))
      as Htab.
    rewrite Hadj in Htab. destruct Htab as (Htab & _).
    rewrite Htab. cbn [PerformanceResult.points PerformanceResult.exactMatch]. rewrite <- surjective_pairing.
    split; [exact Hb|]. split; [discriminate|].
    intros (e & He & Heq). rewrite (Hnone e He) in Heq. discriminate.
Qed.

Lemma round_ofZ (z : Z) : round (ofZ z) = ofZ z.
Proof.
  unfold round, ofZ, roundI, ofIntegral. do 2 f_equal.
  pose proof (Qfloor_le (inject_Z z + (1 # 2))) as Hlo.
  pose proof (Qlt_floor (inject_Z z + (1 # 2))) as Hhi.
  set (f := Qfloor (inject_Z z + (1 # 2))) in *.
  rewrite inject_Z_plus in Hhi. change (inject_Z 1) with 1%Q in Hhi.
  assert (H1 : (inject_Z f < inject_Z (z + 1))%Q)
    by (rewrite inject_Z_plus; change (inject_Z 1) with 1%Q; lra).
  assert (H2 : (inject_Z z < inject_Z (f + 1))%Q)
    by (rewrite inject_Z_plus; change (inject_Z 1) with 1%Q; lra).
  rewrite <- Zlt_Qlt in H1, H2. lia.
Qed.

(** X4.  A score that [lookupPoints] returns is a score of the table: asked
    for that score, [lookupPerformance] finds an exact match with the same
    points, whatever the hand-timing flags of the two calls. *)
Theorem lookup_round_trip (L : Loaders) (gender event performance : string)
    (isHandTimed : bool) (r : PointsResult.t) :
  lookupPoints L gender event performance isHandTimed = Some r ->
  forall isHandTimed',
    exists r',
      lookupPerformance L gender event (ofZ (PointsResult.points r)) isHandTimed'
        = Some r' /\
      PerformanceResult.exactMatch r' = true /\
      PerformanceResult.points r' = PointsResult.points r.
Proof.
  intros Hr isHandTimed'.
  destruct (proj1 (lookupPoints_some_iff L gender event performance isHandTimed)
              (ex_intro _ r Hr))
    as (category & eventData & Hcat & Hdata & Hne & _).
  pose proof (lookupPoints_row L gender event performance isHandTimed
                category eventData r Hcat Hdata Hr) as Hrow.
  destruct (proj2 (lookupPerformance_some_iff L gender event
                     (ofZ (PointsResult.points r)) isHandTimed'))
    as (r' & Hr'); [eauto|].
  exists r'. split; [exact Hr'|].
  destruct (lookupPerformance_row L gender event _ isHandTimed' category
              eventData r' Hcat Hdata Hr') as (Hin & Hexact).
  rewrite round_ofZ in Hexact.
  assert (Hyes : PerformanceResult.exactMatch r' = true).
  { apply Hexact. eexists. split; [exact Hrow|]. apply eqb_ofZ. reflexivity. }
  split; [exact Hyes|].
  unfold lookupPerformance in Hr'. rewrite Hcat, Hdata, round_ofZ in Hr'.
  destruct eventData as [|e0 rest] eqn:Htable; [contradiction|].
  rewrite <- Htable in *. clear e0 rest Htable.
  pose proof (scanPerformance_spec (ofZ (PointsResult.points r)) eventData None)
    as Hscan.
  destruct (scanPerformance (ofZ (PointsResult.points r)) eventData None)
    as [x|best].
  - destruct Hscan as (_ & Hx). apply eqb_ofZ in Hx.
    destruct (adjustForHandTiming L event isHandTimed' (snd x)) as [[p a] o].
    injection Hr' as <-. exact Hx.
  - exfalso. destruct best as [b|].
    + destruct (adjustForHandTiming L event isHandTimed' (snd b)) as [[p a] o].
      injection Hr' as <-. discriminate.
    + destruct (lowestEntry eventData) as [b|]; [|discriminate].
      destruct (adjustForHandTiming L event isHandTimed' (snd b)) as [[p a] o].
      injection Hr' as <-. discriminate.
Qed.

(** 10.45 scores 1200 points, and 1200 points are the row 10.50. *)
Lemma lookup_round_trip_witness :
  exists r',
    lookupPerformance sampleLoaders "men" "100m" (ofZ 1200) false = Some r' /\
    PerformanceResult.exactMatch r' = true /\
    PerformanceResult.points r' = 1200.
Proof.
  exact (lookup_round_trip sampleLoaders "men" "100m" "10.45" false
           (PointsResult.mk 1200 false "10.50" None None) eq_refl false).
Defined.

Lemma min_ofZ (a b : Z) : min (ofZ a) (ofZ b) = ofZ (Z.min a b).
Proof.
  unfold min. cbn [ofZ ofIntegral].
  change (ltb (Fin (inject_Z b)) (Fin (inject_Z a))) with (ltb (ofZ b) (ofZ a)).
  destruct (ltb (ofZ b) (ofZ a)) eqn:Hlt.
  - apply ltb_ofZ in Hlt. rewrite Z.min_r by lia. reflexivity.
  - assert (~ b < a) by (rewrite <- ltb_ofZ; congruence).
    rewrite Z.min_l by lia. reflexivity.
Qed.

Lemma max_ofZ (a b : Z) : max (ofZ a) (ofZ b) = ofZ (Z.max a b).
Proof.
  unfold max. cbn [ofZ ofIntegral].
  change (ltb (Fin (inject_Z a)) (Fin (inject_Z b))) with (ltb (ofZ a) (ofZ b)).
  destruct (ltb (ofZ a) (ofZ b)) eqn:Hlt.
  - apply ltb_ofZ in Hlt. rewrite Z.max_r by lia. reflexivity.
  - assert (~ a < b) by (rewrite <- ltb_ofZ; congruence).
    rewrite Z.max_l by lia. reflexivity.
Qed.

Lemma pointsBounds_from (table : list Entry) :
  forall lo hi seen,
    (exists a, In a seen /\ fst a = lo) ->
    (exists b, In b seen /\ fst b = hi) ->
    (forall e, In e seen -> lo <= fst e <= hi) ->
    exists lo' hi',
      fold_left
        (fun '(lo, hi) e => (min lo (ofZ (fst e)), max hi (ofZ (fst e))))
        table (ofZ lo, ofZ hi) = (ofZ lo', ofZ hi') /\
      (exists a, In a (seen ++ table)%list /\ fst a = lo') /\
      (exists b, In b (seen ++ table)%list /\ fst b = hi') /\
      (forall e, In e (seen ++ table)%list -> lo' <= fst e <= hi').
Proof.
  induction table as [|e table IH]; intros lo hi seen Hlo Hhi Hall.
  - exists lo, hi. rewrite app_nil_r. repeat split; try assumption;
      apply Hall; assumption.
  - cbn [fold_left]. rewrite min_ofZ, max_ofZ.
    destruct (IH (Z.min lo (fst e)) (Z.max hi (fst e)) (seen ++ [e])%list)
      as (lo' & hi' & Hfold & Ha & Hb & Hbound).
    + destruct (Z.min_spec lo (fst e)) as [[_ ->]|[_ ->]].
      * destruct Hlo as (a & Ha & <-). exists a. split; [|reflexivity].
        apply in_or_app. left. exact Ha.
      * exists e. split; [|reflexivity]. apply in_or_app. right. left. reflexivity.
    + destruct (Z.max_spec hi (fst e)) as [[_ ->]|[_ ->]].
      * exists e. split; [|reflexivity]. apply in_or_app. right. left. reflexivity.
      * destruct Hhi as (b & Hb & <-). exists b. split; [|reflexivity].
        apply in_or_app. left. exact Hb.
    + intros x Hx. apply in_app_or in Hx. destruct Hx as [Hx|[<-|[]]].
      * specialize (Hall x Hx). lia.
      * lia.
    + exists lo', hi'. rewrite <- app_assoc in Ha, Hb, Hbound.
      repeat split; try assumption; apply Hbound; assumption.
Qed.

Lemma pointsBounds_spec (table : list Entry) :
  table <> [] ->
  exists lo hi,
    pointsBounds table = (ofZ lo, ofZ hi) /\
    (exists a, In a table /\ fst a = lo) /\
    (exists b, In b table /\ fst b = hi) /\
    (forall e, In e table -> lo <= fst e <= hi).
Proof.
  destruct table as [|e table]; [contradiction|]. intros _.
  unfold pointsBounds. cbn [fold_left].
  change (min PInf (ofZ (fst e))) with (ofZ (fst e)).
  change (max NInf (ofZ (fst e))) with (ofZ (fst e)).
  destruct (pointsBounds_from table (fst e) (fst e) [e])
    as (lo & hi & Hfold & Ha & Hb & Hall).
  - exists e. split; [left|]; reflexivity.
  - exists e. split; [left|]; reflexivity.
  - intros x [<-|[]]. lia.
  - exists lo, hi. repeat split; try assumption; apply Hall; assumption.
Qed.

(** X5.  [getPointsRange] gives [null] exactly when the lookups do for want
    of a table.  Otherwise its two bounds are the points of two rows of the
    table, every row lies between them, and so does every score that
    [lookupPoints] or [lookupPerformance] returns for the event. *)
Theorem getPointsRange_bounds (L : Loaders) (gender event : string) :
  (getPointsRange L gender event = None <->
   forall points isHandTimed,
     lookupPerformance L gender event points isHandTimed = None) /\
  (forall category eventData,
     usableCategory (findCategory L gender event) = Some category ->
     getEventData L gender category event = Some eventData ->
     eventData <> [] ->
     exists lo hi,
       getPointsRange L gender event = Some (ofZ lo, ofZ hi) /\
       (exists a, In a eventData /\ fst a = lo) /\
       (exists b, In b eventData /\ fst b = hi) /\
       (forall e, In e eventData -> lo <= fst e <= hi) /\
       (forall performance isHandTimed r,
          lookupPoints L gender event performance isHandTimed = Some r ->
          lo <= PointsResult.points r <= hi) /\
       (forall points isHandTimed r,
          lookupPerformance L gender event points isHandTimed = Some r ->
          lo <= PerformanceResult.points r <= hi)).
Proof.
  split.
  - split.
    + intros Hnone points isHandTimed.
      destruct (lookupPerformance L gender event points isHandTimed) as [r|] eqn:Hr;
        [|reflexivity].
      destruct (proj1 (lookupPerformance_some_iff L gender event points
                         isHandTimed) (ex_intro _ r Hr))
        as (category & eventData & Hcat & Hdata & Hne).
      unfold getPointsRange in Hnone. rewrite Hcat, Hdata in Hnone.
      destruct eventData; [contradiction|discriminate].
    + intros Hall. unfold getPointsRange.
      destruct (usableCategory (findCategory L gender event)) as [category|] eqn:Hcat;
        [|reflexivity].
      destruct (getEventData L gender category event) as [[|e0 rest]|] eqn:Hdata;
        try reflexivity.
      destruct (proj2 (lookupPerformance_some_iff L gender event NaN false))
        as (r & Hr).
      { exists category, (e0 :: rest).
        split; [exact Hcat|]. split; [exact Hdata|discriminate]. }
      rewrite Hall in Hr. discriminate.
  - intros category eventData Hcat Hdata Hne.
    destruct (pointsBounds_spec eventData Hne) as (lo & hi & Hb & Ha & Hz & Hall).
    exists lo, hi. split.
    { unfold getPointsRange. rewrite Hcat, Hdata.
      destruct eventData; [contradiction|]. rewrite Hb. reflexivity. }
    repeat split; try assumption; try (apply Hall; assumption).
    + apply (Hall (PointsResult.points r, PointsResult.closestPerformance r)).
      eapply lookupPoints_row; eassumption.
    + apply (Hall (PointsResult.points r, PointsResult.closestPerformance r)).
      eapply lookupPoints_row; eassumption.
    + apply (Hall (PerformanceResult.points r, tablePerformance r)).
      eapply lookupPerformance_row; eassumption.
    + apply (Hall (PerformanceResult.points r, tablePerformance r)).
      eapply lookupPerformance_row; eassumption.
Qed.

(** The sample table runs from 1200 to 1220 points. *)
Lemma getPointsRange_bounds_witness :
  getPointsRange sampleLoaders "men" "100m" = Some (ofZ 1200, ofZ 1220).
Proof.
  destruct (getPointsRange_bounds sampleLoaders "men" "100m") as (_ & Hfound).
  destruct (Hfound "sprints" [(1220, "10.40"); (1200, "10.50")])
    as (lo & hi & Hrange & _); [reflexivity|reflexivity|discriminate|].
  rewrite Hrange. vm_compute in Hrange. inversion Hrange. reflexivity.
Defined.

End LookupRanges.

Section ClosestAndRange.
Import Js Lookup Spec Ranges.

Local Open Scope Q_scope.

Lemma closestEntry_from (q : Q) (table : list Entry) :
  forall c0,
    exists c exact,
      closestEntry (Fin q) table (Some c0) = (Some c, exact) /\
      (exact = true -> In c table /\ inject_Z (fst c) == q) /\
      (exact = false ->
         (forall e, In e table -> ~ inject_Z (fst e) == q) /\
         (c = c0 \/ In c table) /\
         Qabs (inject_Z (fst c) - q) <= Qabs (inject_Z (fst c0) - q) /\
         forall e, In e table ->
                   Qabs (inject_Z (fst c) - q) <= Qabs (inject_Z (fst e) - q)).
Proof.
  induction table as [|e table IH]; intros c0; cbn [closestEntry].
  - exists c0, false. split; [reflexivity|]. split; [discriminate|].
    intros _. repeat split; [intros ? []|left; reflexivity|apply Qle_refl|intros ? []].
  - change (eqb (ofZ (fst e)) (Fin q)) with (Qeq_bool (inject_Z (fst e)) q).
    destruct (Qeq_bool (inject_Z (fst e)) q) eqn:Heq.
    + apply Qeq_bool_iff in Heq. exists e, true.
      split; [reflexivity|]. split; [|discriminate].
      intros _. split; [left; reflexivity|exact Heq].
    + assert (Hne : ~ inject_Z (fst e) == q).
      { intros H. apply Qeq_bool_iff in H. congruence. }
      change (ltb (abs (sub (ofZ (fst e)) (Fin q)))
                  (abs (sub (ofZ (fst c0)) (Fin q))))
        with (Qltb (Qabs (inject_Z (fst e) - q)) (Qabs (inject_Z (fst c0) - q))).
      destruct (Qltb (Qabs (inject_Z (fst e) - q)) (Qabs (inject_Z (fst c0) - q)))
        eqn:Hlt.
      * apply Qltb_lt in Hlt.
        destruct (IH e) as (c & exact & Hrun & Hyes & Hno).
        exists c, exact. split; [exact Hrun|]. split.
        -- intros Hex. destruct (Hyes Hex) as (Hin & Hc).
           split; [right; exact Hin|exact Hc].
        -- intros Hex. destruct (Hno Hex) as (Hnone & Hc & Hle & Hall).
           repeat split.
           ++ intros x [<-|Hx]; [exact Hne|exact (Hnone x Hx)].
           ++ destruct Hc as [->|Hc]; right; [left; reflexivity|right; exact Hc].
           ++ lra.
           ++ intros x [<-|Hx]; [exact Hle|exact (Hall x Hx)].
      * apply Qltb_ge in Hlt.
        destruct (IH c0) as (c & exact & Hrun & Hyes & Hno).
        exists c, exact. split; [exact Hrun|]. split.
        -- intros Hex. destruct (Hyes Hex) as (Hin & Hc).
           split; [right; exact Hin|exact Hc].
        -- intros Hex. destruct (Hno Hex) as (Hnone & Hc & Hle & Hall).
           repeat split.
           ++ intros x [<-|Hx]; [exact Hne|exact (Hnone x Hx)].
           ++ destruct Hc as [->|Hc]; [left; reflexivity|right; right; exact Hc].
           ++ exact Hle.
           ++ intros x [<-|Hx]; [lra|exact (Hall x Hx)].
Qed.

(** X6.  The row that [findEquivalentPerformances] picks in the table of an
    event, for a finite score: it is a row of the table, no row is nearer
    to the score, and the match is exact precisely when some row has that
    very score. *)
Theorem closestEntry_minimises (q : Q) (table : list Entry) :
  table <> [] ->
  exists c exact,
    closestEntry (Fin q) table None = (Some c, exact) /\
    In c table /\
    (exact = true <-> exists e, In e table /\ inject_Z (fst e) == q) /\
    (exact = true -> inject_Z (fst c) == q) /\
    forall e, In e table ->
              Qabs (inject_Z (fst c) - q) <= Qabs (inject_Z (fst e) - q).
Proof.
  destruct table as [|e table]; [contradiction|]. intros _.
  cbn [closestEntry].
  change (eqb (ofZ (fst e)) (Fin q)) with (Qeq_bool (inject_Z (fst e)) q).
  assert (Hzero : forall c x : Entry, inject_Z (fst c) == q ->
            Qabs (inject_Z (fst c) - q) <= Qabs (inject_Z (fst x) - q)).
  { intros c x Hc. rewrite Hc.
    assert (Hz : q - q == 0) by ring. rewrite Hz. apply Qabs_nonneg. }
  destruct (Qeq_bool (inject_Z (fst e)) q) eqn:Heq.
  - apply Qeq_bool_iff in Heq. exists e, true.
    split; [reflexivity|]. split; [left; reflexivity|]. split; [|split].
    + split; [intros _|reflexivity]. exists e. split; [left; reflexivity|exact Heq].
    + intros _. exact Heq.
    + intros x _. apply Hzero. exact Heq.
  - assert (Hne : ~ inject_Z (fst e) == q).
    { intros H. apply Qeq_bool_iff in H. congruence. }
    destruct (closestEntry_from q table e) as (c & exact & Hrun & Hyes & Hno).
    exists c, exact. split; [exact Hrun|].
    destruct exact.
    + destruct (Hyes eq_refl) as (Hin & Hc).
      split; [right; exact Hin|]. split; [|split].
      * split; [intros _|reflexivity]. exists c. split; [right; exact Hin|exact Hc].
      * intros _. exact Hc.
      * intros x _. apply Hzero. exact Hc.
    + destruct (Hno eq_refl) as (Hnone & Hc & Hle & Hall).
      split; [destruct Hc as [->|Hc]; [left; reflexivity|right; exact Hc]|].
      split; [|split].
      * split; [discriminate|].
        intros (x & [<-|Hx] & Hq); [contradiction|elim (Hnone x Hx Hq)].
      * discriminate.
      * intros x [<-|Hx]; [exact Hle|exact (Hall x Hx)].
Qed.

(** 1212 points lie nearer to the 1220-point row than to the 1200-point
    row. *)
Lemma closestEntry_minimises_witness :
  closestEntry (Fin 1212) [(1220, "10.40"); (1200, "10.50")]%Z None
    = (Some (1220%Z, "10.40"), false).
Proof.
  destruct (closestEntry_minimises 1212 [(1220, "10.40"); (1200, "10.50")]%Z)
    as (c & exact & Hrun & _); [discriminate|].
  rewrite Hrun. vm_compute in Hrun. inversion Hrun. reflexivity.
Defined.

End ClosestAndRange.

Section PerformanceRanges.
Import Js Lookup Spec Ranges.

Lemma isNaN_true (n : number) : isNaN n = true -> n = NaN.
Proof. destruct n; simpl; congruence. Qed.

Lemma Qle_bool_of_Qltb (x y : Q) : Qltb y x = false -> Qle_bool x y = true.
Proof. intros H. apply Qle_bool_iff. apply Qltb_ge. exact H. Qed.

Lemma leb_of_not_ltb (a b : number) :
  isNaN a = false -> isNaN b = false -> ltb b a = false -> leb a b = true.
Proof.
  destruct a, b; simpl; try congruence. intros _ _. apply Qle_bool_of_Qltb.
Qed.

Lemma leb_of_ltb (a b : number) : ltb a b = true -> leb a b = true.
Proof.
  destruct a, b; simpl; try congruence.
  intros H. apply Qle_bool_iff. apply Qltb_lt in H. apply Qlt_le_weak. exact H.
Qed.

Lemma leb_refl (a : number) : isNaN a = false -> leb a a = true.
Proof.
  destruct a; simpl; try congruence. intros _. apply Qle_bool_iff. apply Qle_refl.
Qed.

Lemma leb_trans (a b c : number) :
  leb a b = true -> leb b c = true -> leb a c = true.
Proof.
  destruct a, b, c; simpl; try congruence.
  rewrite !Qle_bool_iff. apply Qle_trans.
Qed.

Lemma eqb_refl (a : number) : isNaN a = false -> eqb a a = true.
Proof.
  destruct a; simpl; try congruence. intros _. apply Qeq_bool_iff. reflexivity.
Qed.

Lemma min_cases (a b : number) :
  isNaN a = false -> isNaN b = false ->
  isNaN (min a b) = false /\ (min a b = a \/ min a b = b) /\
  leb (min a b) a = true /\ leb (min a b) b = true.
Proof.
  intros Ha Hb.
  assert (Hmin : min a b = if ltb b a then b else a)
    by (destruct a, b; simpl in *; congruence).
  rewrite Hmin. destruct (ltb b a) eqn:Hlt.
  - repeat split; [exact Hb|right; reflexivity|apply leb_of_ltb; exact Hlt
                  |apply leb_refl; exact Hb].
  - repeat split; [exact Ha|left; reflexivity|apply leb_refl; exact Ha
                  |apply leb_of_not_ltb; assumption].
Qed.

Lemma max_cases (a b : number) :
  isNaN a = false -> isNaN b = false ->
  isNaN (max a b) = false /\ (max a b = a \/ max a b = b) /\
  leb a (max a b) = true /\ leb b (max a b) = true.
Proof.
  intros Ha Hb.
  assert (Hmax : max a b = if ltb a b then b else a)
    by (destruct a, b; simpl in *; congruence).
  rewrite Hmax. destruct (ltb a b) eqn:Hlt.
  - repeat split; [exact Hb|right; reflexivity|apply leb_of_ltb; exact Hlt
                  |apply leb_refl; exact Hb].
  - repeat split; [exact Ha|left; reflexivity|apply leb_refl; exact Ha
                  |apply leb_of_not_ltb; assumption].
Qed.

Lemma min_fold (l : list number) :
  forall acc,
    isNaN acc = false -> (forall x, In x l -> isNaN x = false) ->
    isNaN (fold_left min l acc) = false /\
    (fold_left min l acc = acc \/ In (fold_left min l acc) l) /\
    leb (fold_left min l acc) acc = true /\
    forall x, In x l -> leb (fold_left min l acc) x = true.
Proof.
  induction l as [|y l IH]; intros acc Hacc Hall; cbn [fold_left].
  - repeat split; [exact Hacc|left; reflexivity|apply leb_refl; exact Hacc
                  |intros ? []].
  - destruct (min_cases acc y Hacc (Hall y (or_introl eq_refl)))
      as (Hn & Hsel & Hle1 & Hle2).
    destruct (IH (min acc y) Hn (fun x Hx => Hall x (or_intror Hx)))
      as (Hn' & Hsel' & Hle & Hrest).
    repeat split.
    + exact Hn'.
    + destruct Hsel' as [->|Hin]; [|right; right; exact Hin].
      destruct Hsel as [->| ->]; [left; reflexivity|right; left; reflexivity].
    + eapply leb_trans; eassumption.
    + intros x [<-|Hx]; [eapply leb_trans; eassumption|exact (Hrest x Hx)].
Qed.

Lemma max_fold (l : list number) :
  forall acc,
    isNaN acc = false -> (forall x, In x l -> isNaN x = false) ->
    isNaN (fold_left max l acc) = false /\
    (fold_left max l acc = acc \/ In (fold_left max l acc) l) /\
    leb acc (fold_left max l acc) = true /\
    forall x, In x l -> leb x (fold_left max l acc) = true.
Proof.
  induction l as [|y l IH]; intros acc Hacc Hall; cbn [fold_left].
  - repeat split; [exact Hacc|left; reflexivity|apply leb_refl; exact Hacc
                  |intros ? []].
  - destruct (max_cases acc y Hacc (Hall y (or_introl eq_refl)))
      as (Hn & Hsel & Hle1 & Hle2).
    destruct (IH (max acc y) Hn (fun x Hx => Hall x (or_intror Hx)))
      as (Hn' & Hsel' & Hle & Hrest).
    repeat split.
    + exact Hn'.
    + destruct Hsel' as [->|Hin]; [|right; right; exact Hin].
      destruct Hsel as [->| ->]; [left; reflexivity|right; left; reflexivity].
    + eapply leb_trans; eassumption.
    + intros x [<-|Hx]; [eapply leb_trans; eassumption|exact (Hrest x Hx)].
Qed.

Lemma nan_fold (f : number -> number -> number) (l : list number) :
  (forall a, f NaN a = NaN) -> (forall a, f a NaN = NaN) ->
  forall acc,
    acc = NaN \/ In NaN l -> fold_left f l acc = NaN.
Proof.
  intros Hl Hr. induction l as [|y l IH]; intros acc [->|Hin]; cbn [fold_left].
  - reflexivity.
  - destruct Hin.
  - apply IH. left. apply Hl.
  - destruct Hin as [->|Hin]; apply IH; [left; apply Hr|right; exact Hin].
Qed.

Lemma lastWith_spec (bound : number) (table : list Entry) :
  forall found,
    let result :=
      fold_left
        (fun found e =>
           if eqb (parseFloat (snd e)) bound then Some (snd e) else found)
        table found in
    ((forall e, In e table -> eqb (parseFloat (snd e)) bound = false) ->
     result = found) /\
    ((exists e, In e table /\ eqb (parseFloat (snd e)) bound = true) ->
     exists e, In e table /\ result = Some (snd e) /\
               eqb (parseFloat (snd e)) bound = true).
Proof.
  induction table as [|e table IH]; intros found; cbn [fold_left].
  - split; [reflexivity|intros (? & [] & _)].
  - destruct (IH (if eqb (parseFloat (snd e)) bound then Some (snd e) else found))
      as (Hnone & Hsome).
    split.
    + intros Hall. rewrite Hnone by (intros x Hx; apply Hall; right; exact Hx).
      rewrite (Hall e (or_introl eq_refl)). reflexivity.
    + intros (x & Hx & Heq).
      destruct (existsb (fun e => eqb (parseFloat (snd e)) bound) table) eqn:Hlater.
      * apply existsb_exists in Hlater.
        destruct (Hsome Hlater) as (y & Hy & Hres & Hyeq).
        exists y. repeat split; [right; exact Hy|exact Hres|exact Hyeq].
      * assert (Hall : forall y, In y table ->
                  eqb (parseFloat (snd y)) bound = false).
        { intros y Hy. destruct (eqb (parseFloat (snd y)) bound) eqn:Hb;
            [|reflexivity].
          assert (existsb (fun e => eqb (parseFloat (snd e)) bound) table = true)
            by (apply existsb_exists; eauto).
          congruence. }
        rewrite (Hnone Hall).
        destruct Hx as [<-|Hx]; [|rewrite (Hall x Hx) in Heq; discriminate].
        rewrite Heq. exists e. repeat split; [left; reflexivity|exact Heq].
Qed.

(** X7.  [getPerformanceRange] on a table that is found.  If one
    performance string of the table is not a number, both bounds are [NaN]
    and no string is reported for either.  Otherwise the two bounds are the
    numbers of two rows, whose strings are reported, and the number of
    every row lies between them. *)
Theorem getPerformanceRange_bounds (L : Loaders) (gender event : string)
    (category : string) (eventData : list Entry) :
  usableCategory (findCategory L gender event) = Some category ->
  getEventData L gender category event = Some eventData ->
  eventData <> [] ->
  exists range,
    getPerformanceRange L gender event = Some range /\
    ((exists e, In e eventData /\ isNaN (parseFloat (snd e)) = true) ->
     rangeMin range = NaN /\ rangeMax range = NaN /\
     minPerformance range = None /\ maxPerformance range = None) /\
    ((forall e, In e eventData -> isNaN (parseFloat (snd e)) = false) ->
     (exists e, In e eventData /\ minPerformance range = Some (snd e) /\
                eqb (parseFloat (snd e)) (rangeMin range) = true) /\
     (exists e, In e eventData /\ maxPerformance range = Some (snd e) /\
                eqb (parseFloat (snd e)) (rangeMax range) = true) /\
     forall e, In e eventData ->
               leb (rangeMin range) (parseFloat (snd e)) = true /\
               leb (parseFloat (snd e)) (rangeMax range) = true).
Proof.
  intros Hcat Hdata Hne. unfold getPerformanceRange. rewrite Hcat, Hdata.
  destruct eventData as [|e0 rest] eqn:Htable; [contradiction|].
  rewrite <- Htable in *. clear e0 rest Htable.
  eexists. split; [reflexivity|]. cbn [rangeMin rangeMax minPerformance maxPerformance].
  set (performances := map (fun e => parseFloat (snd e)) eventData).
  split.
  - intros (e & He & Hnan). apply isNaN_true in Hnan.
    assert (Hin : In NaN performances).
    { rewrite <- Hnan. unfold performances.
      apply (in_map (fun e => parseFloat (snd e))). exact He. }
    assert (Hlo : minOf performances = NaN).
    { apply nan_fold; [reflexivity|intros []; reflexivity|right; exact Hin]. }
    assert (Hhi : maxOf performances = NaN).
    { apply nan_fold; [reflexivity|intros []; reflexivity|right; exact Hin]. }
    rewrite Hlo, Hhi. repeat split; try reflexivity.
    all: apply (proj1 (lastWith_spec NaN eventData None));
      intros x _; destruct (parseFloat (snd x)); reflexivity.
  - intros Hnum.
    assert (Hall : forall x, In x performances -> isNaN x = false).
    { intros x Hx. apply in_map_iff in Hx. destruct Hx as (e & <- & He).
      exact (Hnum e He). }
    destruct (min_fold performances PInf eq_refl Hall)
      as (Hlon & Hlosel & _ & Hlo).
    destruct (max_fold performances NInf eq_refl Hall)
      as (Hhin & Hhisel & _ & Hhi).
    fold (minOf performances) in *. fold (maxOf performances) in *.
    assert (Hwitness : exists e1, In e1 eventData).
    { destruct eventData as [|e1 ?]; [contradiction|]. exists e1. left. reflexivity. }
    destruct Hwitness as (e1 & He1).
    assert (Hp1 : In (parseFloat (snd e1)) performances).
    { apply (in_map (fun e => parseFloat (snd e))). exact He1. }
    assert (Hloin : exists e, In e eventData /\
              eqb (parseFloat (snd e)) (minOf performances) = true).
    { destruct Hlosel as [Heq|Hin].
      - exists e1. split; [exact He1|].
        pose proof (Hlo _ Hp1) as Hle. rewrite Heq in Hle |- *.
        destruct (parseFloat (snd e1)); simpl in *; congruence.
      - apply in_map_iff in Hin. destruct Hin as (e & Heq & He).
        exists e. split; [exact He|]. rewrite Heq. apply eqb_refl. exact Hlon. }
    assert (Hhiin : exists e, In e eventData /\
              eqb (parseFloat (snd e)) (maxOf performances) = true).
    { destruct Hhisel as [Heq|Hin].
      - exists e1. split; [exact He1|].
        pose proof (Hhi _ Hp1) as Hle. rewrite Heq in Hle |- *.
        destruct (parseFloat (snd e1)); simpl in *; congruence.
      - apply in_map_iff in Hin. destruct Hin as (e & Heq & He).
        exists e. split; [exact He|]. rewrite Heq. apply eqb_refl. exact Hhin. }
    split; [exact (proj2 (lastWith_spec _ eventData None) Hloin)|].
    split; [exact (proj2 (lastWith_spec _ eventData None) Hhiin)|].
    intros e He.
    assert (Hp : In (parseFloat (snd e)) performances)
      by (apply (in_map (fun e => parseFloat (snd e))); exact He).
    split; [exact (Hlo _ Hp)|exact (Hhi _ Hp)].
Qed.

(** The sample table: from "10.40" to "10.50". *)
Lemma getPerformanceRange_bounds_witness :
  exists range,
    getPerformanceRange sampleLoaders "men" "100m" = Some range /\
    minPerformance range = Some "10.40" /\
    maxPerformance range = Some "10.50".
Proof.
  destruct (getPerformanceRange_bounds sampleLoaders "men" "100m" "sprints"
              [(1220, "10.40"); (1200, "10.50")])
    as (range & Hrun & _); [reflexivity|reflexivity|discriminate|].
  exists range. split; [exact Hrun|].
  vm_compute in Hrun. inversion Hrun. split; reflexivity.
Defined.

End PerformanceRanges.

(* ===================================================================== *)
(** * Further properties of the extractor                                 *)
(* ===================================================================== *)

Section CleaningTwice.
Import Js Extractor Spec.

Lemma mapGet_absent (key : string) (m : UniqueMap) :
  ~ In key (map fst m) -> mapGet key m = None.
Proof.
  induction m as [|[k x] m IH]; simpl; [reflexivity|].
  intros Hnot. destruct (String.eqb_spec k key) as [->|Hne]; [tauto|].
  apply IH. tauto.
Qed.

Lemma remember_distinct (l : list TableEntry) :
  forall m,
    List.NoDup (map fst m ++ map performance l)%list ->
    fold_left remember l m = (m ++ map (fun e => (performance e, e)) l)%list.
Proof.
  induction l as [|e l IH]; intros m Hnd; cbn [fold_left map].
  - rewrite app_nil_r. reflexivity.
  - assert (Hfresh : ~ In (performance e) (map fst m)).
    { apply NoDup_remove_2 in Hnd. intros Hin. apply Hnd.
      apply in_or_app. left. exact Hin. }
    unfold remember at 2. rewrite (mapGet_absent _ _ Hfresh).
    rewrite (mapSet_absent _ _ _ Hfresh).
    rewrite IH.
    + rewrite <- app_assoc. reflexivity.
    + rewrite map_app. cbn [map fst]. rewrite <- app_assoc. exact Hnd.
Qed.

Lemma uniqueEntries_distinct (l : list TableEntry) :
  List.NoDup (map performance l) -> uniqueEntries l = l.
Proof.
  intros Hnd. unfold uniqueEntries.
  rewrite (remember_distinct l []) by exact Hnd.
  cbn [app]. rewrite map_map. cbn [snd]. apply map_id.
Qed.

Lemma insertBy_last (x : TableEntry) (acc : list TableEntry) :
  (forall y, In y acc -> points x <= points y) ->
  insertBy byPointsDescending x acc = (acc ++ [x])%list.
Proof.
  induction acc as [|y acc IH]; intros Hall; cbn [insertBy app]; [reflexivity|].
  unfold byPointsDescending at 1.
  pose proof (Hall y (or_introl eq_refl)) as Hy.
  destruct (Z.leb_spec (points x - points y) 0); [|lia].
  rewrite IH; [reflexivity|]. intros z Hz. apply Hall. right. exact Hz.
Qed.

Lemma sortBy_sorted_fixed (l : list TableEntry) :
  StronglySorted pointsDescend l -> sortBy byPointsDescending l = l.
Proof.
  unfold sortBy.
  assert (H : forall acc,
            StronglySorted pointsDescend l ->
            (forall y x, In y acc -> In x l -> points x <= points y) ->
            fold_left (fun acc x => insertBy byPointsDescending x acc) l acc
            = (acc ++ l)%list).
  { induction l as [|x l IH]; intros acc Hs Hall; cbn [fold_left].
    - rewrite app_nil_r. reflexivity.
    - inversion Hs as [|? ? Hl Hx]; subst.
      rewrite insertBy_last
        by (intros y Hy; apply (Hall y x Hy); left; reflexivity).
      rewrite IH; [rewrite <- app_assoc; reflexivity|exact Hl|].
      intros y z Hy Hz. apply in_app_or in Hy. destruct Hy as [Hy|[<-|[]]].
      + apply (Hall y z Hy). right. exact Hz.
      + rewrite List.Forall_forall in Hx. exact (Hx z Hz). }
  intros Hs. apply (H [] Hs). intros y x [].
Qed.

Lemma cleanEntries_clean (l : list TableEntry) :
  List.NoDup (map performance (cleanEntries l)) /\
  StronglySorted pointsDescend (cleanEntries l).
Proof.
  unfold cleanEntries. split; [|apply sortBy_descending].
  destruct (uniqueEntries_spec l) as (Hnd & _).
  eapply Permutation_NoDup; [|exact Hnd].
  apply Permutation_map. symmetry. apply sortBy_perm.
Qed.

(** X8.  Cleaning is idempotent: a list that is already free of repeated
    performances and in descending order is left exactly as it is, so
    cleaning the tables a second time changes nothing. *)
Theorem cleanAndSortData_idempotent
    (tables : gmap string (gmap string (gmap string (list TableEntry)))) :
  (forall entries,
     List.NoDup (map performance entries) ->
     StronglySorted pointsDescend entries ->
     cleanEntries entries = entries) /\
  cleanAndSortData (cleanAndSortData tables) = cleanAndSortData tables.
Proof.
  assert (Hfixed : forall entries,
            List.NoDup (map performance entries) ->
            StronglySorted pointsDescend entries ->
            cleanEntries entries = entries).
  { intros entries Hnd Hs. unfold cleanEntries.
    rewrite uniqueEntries_distinct by exact Hnd.
    apply sortBy_sorted_fixed. exact Hs. }
  split; [exact Hfixed|].
  assert (Htwice : forall l, cleanEntries (cleanEntries l) = cleanEntries l).
  { intros l. destruct (cleanEntries_clean l) as (Hnd & Hs).
    apply Hfixed; assumption. }
  unfold cleanAndSortData.
  apply map_eq. intros gender. rewrite !lookup_fmap.
  destruct (tables !! gender) as [categories|]; [|reflexivity].
  cbn [fmap option_fmap option_map]. f_equal.
  apply map_eq. intros category. rewrite !lookup_fmap.
  destruct (categories !! category) as [events|]; [|reflexivity].
  cbn [fmap option_fmap option_map]. f_equal.
  apply map_eq. intros eventName. rewrite !lookup_fmap.
  destruct (events !! eventName) as [entries|]; [|reflexivity].
  cbn [fmap option_fmap option_map]. f_equal. apply Htwice.
Qed.

(** The cleaned sample list is a fixed point. *)
Lemma cleanAndSortData_idempotent_witness :
  cleanEntries sampleCleaned = sampleCleaned.
Proof.
  assert (Hclean : sampleCleaned = cleanEntries sampleRaw)
    by (vm_compute; reflexivity).
  destruct (cleanEntries_clean sampleRaw) as (Hnd & Hs).
  rewrite <- Hclean in Hnd, Hs.
  exact (proj1 (cleanAndSortData_idempotent ∅) sampleCleaned Hnd Hs).
Defined.

End CleaningTwice.

Section StorageProperties.
Import Js Extractor Storage Spec.

Local Ltac nothing_added :=
  exists []; rewrite app_nil_r; split; [reflexivity|split; [tauto|intros ? []]].

Lemma entriesMatch_eq (table1 table2 : list TableEntry) :
  List.length table1 = List.length table2 ->
  (entriesMatch table1 table2 = true <-> table1 = table2).
Proof.
  revert table2.
  induction table1 as [|[perf1 pts1] rest1 IH]; intros [|[perf2 pts2] rest2];
    cbn [entriesMatch List.length points performance]; try discriminate.
  - intros _. split; reflexivity.
  - intros [= Hlen].
    destruct (Z.eqb_spec pts1 pts2) as [->|Hpts];
      [|split; [discriminate|intros [= _ Heq _]; contradiction]].
    destruct (String.eqb_spec perf1 perf2) as [->|Hperf];
      [|split; [discriminate|intros [= Heq _]; contradiction]].
    cbn [negb orb]. rewrite (IH rest2 Hlen).
    split; [intros ->; reflexivity|intros [= ->]; reflexivity].
Qed.

(** X9.  [areTablesIdentical] decides equality: it answers [true] for two
    tables exactly when they hold the same points and performances in the
    same order; tables of different lengths are never identical. *)
Theorem areTablesIdentical_iff (table1 table2 : list TableEntry) :
  areTablesIdentical table1 table2 = true <-> table1 = table2.
Proof.
  unfold areTablesIdentical.
  destruct (Nat.eqb_spec (List.length table1) (List.length table2)) as [Hlen|Hlen];
    cbn [negb].
  - apply entriesMatch_eq. exact Hlen.
  - split; [discriminate|]. intros ->. contradiction.
Qed.

(** ** Storing a row *)

Lemma tableAt_storeEntry_same
    (tables : gmap string (gmap string (gmap string (list TableEntry))))
    (g c e : string) (x : TableEntry) :
  tableAt (storeEntry tables g c e x) g c e
  = Some (default [] (tableAt tables g c e) ++ [x])%list.
Proof.
  unfold tableAt, storeEntry. rewrite !lookup_insert_eq.
  destruct (tables !! g) as [categories|]; cbn [default from_option id];
    [|rewrite !lookup_empty; reflexivity].
  destruct (categories !! c) as [events|]; cbn [default from_option id];
    [|rewrite lookup_empty]; reflexivity.
Qed.

Lemma tableAt_storeEntry_other
    (tables : gmap string (gmap string (gmap string (list TableEntry))))
    (g c e : string) (x : TableEntry) (g' c' e' : string) :
  (g, c, e) <> (g', c', e') ->
  tableAt (storeEntry tables g c e x) g' c' e' = tableAt tables g' c' e'.
Proof.
  intros Hne. unfold tableAt, storeEntry.
  destruct (decide (g = g')) as [<-|Hg];
    [|rewrite lookup_insert_ne by exact Hg; reflexivity].
  rewrite lookup_insert_eq.
  destruct (decide (c = c')) as [<-|Hc].
  - rewrite lookup_insert_eq.
    assert (He : e <> e') by congruence.
    rewrite lookup_insert_ne by exact He.
    destruct (tables !! g) as [categories|]; cbn [default from_option id];
      [|rewrite !lookup_empty; reflexivity].
    destruct (categories !! c) as [events|]; cbn [default from_option id];
      [|rewrite lookup_empty]; reflexivity.
  - rewrite lookup_insert_ne by exact Hc.
    destruct (tables !! g) as [categories|]; cbn [default from_option id];
      [|rewrite lookup_empty]; reflexivity.
Qed.

Lemma tableAt_ensureGender
    (tables : gmap string (gmap string (gmap string (list TableEntry))))
    (g g' c' e' : string) :
  tableAt (ensureGender tables g) g' c' e' = tableAt tables g' c' e'.
Proof.
  unfold ensureGender. destruct (tables !! g) as [categories|] eqn:Hg;
    [reflexivity|].
  unfold tableAt. destruct (decide (g = g')) as [<-|Hne].
  - rewrite lookup_insert_eq, Hg, lookup_empty. reflexivity.
  - rewrite lookup_insert_ne by exact Hne. reflexivity.
Qed.

(** What one turn of the loop adds under a given gender, category and
    event. *)
Lemma storeCell_appends (getCategory : string -> option string)
    (gender : string) (sectionCategory : option string) (points : Z)
    (tables : gmap string (gmap string (gmap string (list TableEntry))))
    (cell : option string * string) (g c e : string) :
  exists extra,
    default [] (tableAt (storeCell getCategory gender sectionCategory points
                           tables cell) g c e)
    = (default [] (tableAt tables g c e) ++ extra)%list /\
    (tableAt tables g c e <> None ->
     tableAt (storeCell getCategory gender sectionCategory points tables cell)
       g c e <> None) /\
    forall x, In x extra ->
      Extractor.points x = points /\
      cell = (Some (performance x), e) /\
      g = (if includes e "mix" then "mixed" else gender).
Proof.
  destruct cell as [performance eventName]. unfold storeCell.
  assert (Hsame : exists extra : list TableEntry,
            default [] (tableAt tables g c e)
            = (default [] (tableAt tables g c e) ++ extra)%list /\
            (tableAt tables g c e <> None -> tableAt tables g c e <> None) /\
            forall x, In x extra ->
              Extractor.points x = points /\
              (performance, eventName) = (Some (Extractor.performance x), e) /\
              g = (if includes e "mix" then "mixed" else gender)).
  { nothing_added. }
  destruct (present performance) as [perf|] eqn:Hperf; [|exact Hsame].
  destruct eventName as [|ch name] eqn:Hname; [exact Hsame|].
  rewrite <- Hname in *. clear Hsame.
  set (eventGender := if includes eventName "mix" then "mixed" else gender).
  destruct (present (orElse (getCategory eventName) sectionCategory))
    as [eventCategory|].
  - destruct (decide ((eventGender, eventCategory, eventName) = (g, c, e)))
      as [Heq|Hne].
    + injection Heq as <- <- <-.
      rewrite tableAt_storeEntry_same, tableAt_ensureGender.
      exists [mkEntry perf points]. repeat split.
      * discriminate.
      * destruct H as [<-|[]]. reflexivity.
      * destruct H as [<-|[]]. cbn [Extractor.performance].
        destruct performance as [[|? ?]|]; try discriminate.
        injection Hperf as <-. reflexivity.
    + rewrite tableAt_storeEntry_other by exact Hne.
      rewrite tableAt_ensureGender.
      nothing_added.
  - rewrite tableAt_ensureGender.
    nothing_added.
Qed.

Lemma storeCells_append (getCategory : string -> option string)
    (gender : string) (sectionCategory : option string) (points : Z)
    (cells : list (option string * string)) (g c e : string) :
  forall tables,
    exists extra,
      default [] (tableAt (fold_left
                             (storeCell getCategory gender sectionCategory points)
                             cells tables) g c e)
      = (default [] (tableAt tables g c e) ++ extra)%list /\
      (tableAt tables g c e <> None ->
       tableAt (fold_left (storeCell getCategory gender sectionCategory points)
                  cells tables) g c e <> None) /\
      forall x, In x extra ->
        Extractor.points x = points /\
        In (Some (performance x), e) cells /\
        g = (if includes e "mix" then "mixed" else gender).
Proof.
  induction cells as [|cell cells IH]; intros tables; cbn [fold_left].
  - nothing_added.
  - destruct (storeCell_appends getCategory gender sectionCategory points
                tables cell g c e) as (first & Hfirst & Hkeep & Hin).
    destruct (IH (storeCell getCategory gender sectionCategory points tables cell))
      as (rest & Hrest & Hkeep' & Hin').
    exists (first ++ rest)%list. split; [|split].
    + rewrite Hrest, Hfirst, <- app_assoc. reflexivity.
    + intros H. apply Hkeep'. apply Hkeep. exact H.
    + intros x Hx. apply in_app_or in Hx. destruct Hx as [Hx|Hx].
      * destruct (Hin x Hx) as (Hp & Hcell & Hg).
        repeat split; [exact Hp|left; exact Hcell|exact Hg].
      * destruct (Hin' x Hx) as (Hp & Hcell & Hg).
        repeat split; [exact Hp|right; exact Hcell|exact Hg].
Qed.

(** X10.  [storeCrossReferencedData] only ever appends, when the gender of
    the section, the categories and the event names of the row are not
    among the names every object inherits.  Under any gender, category and
    event, the list after the call is the list before it
    followed by new entries; each new entry carries the points of the row,
    which are not zero, and a performance the row gives for that event, and
    it is filed under "mixed" when the event name contains "mix" and under
    the gender of the section otherwise.  A row with zero points, or read
    before any gender was detected, leaves the tables untouched. *)
Theorem storeCrossReferencedData_appends
    (getCategory : string -> option string)
    (tables : gmap string (gmap string (gmap string (list TableEntry))))
    (section : SectionState) (dataRow : Row) (g c e : string) :
  (forall gender,
     present (sectionGender section) = Some gender -> inherited gender = false) ->
  (forall eventName category,
     orElse (getCategory eventName) (sectionCategory section) = Some category ->
     inherited category = false) ->
  (forall eventName, In eventName (rowEvents dataRow) ->
     inherited eventName = false) ->
  let stored := storeCrossReferencedData getCategory tables section dataRow in
  (exists extra,
     default [] (tableAt stored g c e)
     = (default [] (tableAt tables g c e) ++ extra)%list /\
     (tableAt tables g c e <> None -> tableAt stored g c e <> None) /\
     forall x, In x extra ->
       rowPoints dataRow = Some (points x) /\ points x <> 0 /\
       In (Some (performance x), e)
          (combine (rowPerformances dataRow) (rowEvents dataRow)) /\
       (includes e "mix" = true -> g = "mixed") /\
       (includes e "mix" = false -> present (sectionGender section) = Some g)) /\
  (rowPoints dataRow = None \/ rowPoints dataRow = Some 0 \/
   present (sectionGender section) = None -> stored = tables).
Proof.
  intros _ _ _ stored. unfold storeCrossReferencedData in stored.
  assert (Hsame : exists extra : list TableEntry,
            default [] (tableAt tables g c e)
            = (default [] (tableAt tables g c e) ++ extra)%list /\
            (tableAt tables g c e <> None -> tableAt tables g c e <> None) /\
            forall x, In x extra ->
              rowPoints dataRow = Some (points x) /\ points x <> 0 /\
              In (Some (performance x), e)
                 (combine (rowPerformances dataRow) (rowEvents dataRow)) /\
              (includes e "mix" = true -> g = "mixed") /\
              (includes e "mix" = false ->
               present (sectionGender section) = Some g)).
  { nothing_added. }
  subst stored.
  destruct (present (sectionGender section)) as [gender|] eqn:Hgender;
    [|split; [exact Hsame|reflexivity]].
  destruct (rowPoints dataRow) as [points|] eqn:Hpoints;
    [|split; [exact Hsame|reflexivity]].
  destruct (Z.eqb_spec points 0) as [->|Hnz];
    [split; [exact Hsame|reflexivity]|].
  clear Hsame. split.
  - destruct (storeCells_append getCategory gender (sectionCategory section)
                points (combine (rowPerformances dataRow) (rowEvents dataRow))
                g c e tables) as (extra & Happ & Hkeep & Hin).
    exists extra. split; [exact Happ|]. split; [exact Hkeep|].
    intros x Hx. destruct (Hin x Hx) as (Hp & Hcell & Hg).
    rewrite Hp. split; [reflexivity|]. split; [exact Hnz|].
    split; [exact Hcell|]. split.
    + intros Hmix. rewrite Hmix in Hg. exact Hg.
    + intros Hmix. rewrite Hmix in Hg. rewrite Hg. reflexivity.
  - intros [H|[H|H]]; try discriminate. injection H as ->. contradiction.
Qed.

(** A row of 1200 points for the 100m, stored into the sample tables. *)
Lemma storeCrossReferencedData_appends_witness :
  exists extra,
    default []
      (tableAt
         (storeCrossReferencedData (fun _ => Some "sprints") sampleTables
            (mkSectionState (Some "men") None)
            (mkRow (Some 1200) [Some "10.50"] ["100m"]))
         "men" "sprints" "100m")
    = (sampleRaw ++ extra)%list /\
    forall x, In x extra -> points x = 1200.
Proof.
  destruct (storeCrossReferencedData_appends (fun _ => Some "sprints")
              sampleTables (mkSectionState (Some "men") None)
              (mkRow (Some 1200) [Some "10.50"] ["100m"])
              "men" "sprints" "100m")
    as ((extra & Hstored & _ & Hnew) & _).
  - intros gender [= <-]. reflexivity.
  - intros eventName category [= <-]. reflexivity.
  - intros eventName [<-|[]]. reflexivity.
  - exists extra. split; [exact Hstored|].
    intros x Hx. destruct (Hnew x Hx) as (Hpoints & _).
    injection Hpoints as <-. reflexivity.
Defined.

End StorageProperties.


(* ===================================================================== *)
(** * Properties of the unit conversions                                  *)
(* ===================================================================== *)

Section ConversionProperties.
Import Js PaceFormatter PaceEngine Conversions.

Local Open Scope Q_scope.

Lemma toMetres_pos (unit : string) : 0 < toMetres unit.
Proof.
  unfold toMetres.
  repeat (match goal with |- context [String.eqb ?a ?b] =>
            destruct (String.eqb a b) end); reflexivity.
Qed.

(** X11.  For two unit names that no object inherits (so not
    "constructor", "toString" and the like): [convertDistance] is undone
    by the conversion in the other direction (an unknown unit counts as
    metres), and the page's [convertDistanceToMetres] agrees with
    [convertDistance] to ['metres']. *)
Theorem convertDistance_round_trip (distance : Q) (fromUnit toUnit : string) :
  inherited fromUnit = false -> inherited toUnit = false ->
  convertDistance (convertDistance distance fromUnit toUnit) toUnit fromUnit
    == distance /\
  convertDistanceToMetres distance fromUnit
    == convertDistance distance fromUnit "metres".
Proof.
  intros _ _. split.
  - unfold convertDistance. rewrite (String.eqb_sym toUnit fromUnit).
    destruct (String.eqb fromUnit toUnit); [reflexivity|].
    pose proof (toMetres_pos (normalizeUnit fromUnit)) as Hfrom.
    pose proof (toMetres_pos (normalizeUnit toUnit)) as Hto.
    cbv zeta. field. split; lra.
  - unfold convertDistanceToMetres, convertDistance.
    destruct (String.eqb_spec fromUnit "metres") as [->|Hne].
    + change (toMetres "metres") with 1. ring.
    + unfold normalizeUnit at 1.
      rewrite (proj2 (String.eqb_neq fromUnit "metres") Hne).
      cbv zeta. change (toMetres (normalizeUnit "metres")) with 1. field.
Qed.

(** Five miles in kilometres and back. *)
Lemma convertDistance_round_trip_witness :
  convertDistance (convertDistance 5 "miles" "km") "km" "miles" == 5 /\
  convertDistanceToMetres 5 "miles" == convertDistance 5 "miles" "metres".
Proof. apply (convertDistance_round_trip 5 "miles" "km"); reflexivity. Defined.

(** X12.  The page's [convertPaceToPerKm] and [convertPaceFromPerKm] undo
    each other in every pace unit, the engine's [convertPaceUnit] is undone
    by the call with the two units exchanged, and the two agree on the pace
    per mile. *)
Theorem pace_units_round_trip (pace : Q) (paceUnit fromUnit toUnit : string) :
  convertPaceToPerKm (convertPaceFromPerKm pace paceUnit) paceUnit == pace /\
  convertPaceFromPerKm (convertPaceToPerKm pace paceUnit) paceUnit == pace /\
  convertPaceUnit (convertPaceUnit pace fromUnit toUnit) toUnit fromUnit == pace /\
  convertPaceUnit pace "km" "mile" == convertPaceFromPerKm pace "mile" /\
  convertPaceUnit pace "mile" "km" == convertPaceToPerKm pace "mile".
Proof.
  split; [|split; [|split; [|split]]].
  - unfold convertPaceToPerKm, convertPaceFromPerKm.
    repeat (match goal with |- context [String.eqb ?a ?b] =>
              destruct (String.eqb a b) end); try reflexivity; field.
  - unfold convertPaceToPerKm, convertPaceFromPerKm.
    repeat (match goal with |- context [String.eqb ?a ?b] =>
              destruct (String.eqb a b) end); try reflexivity; field.
  - unfold convertPaceUnit. rewrite (String.eqb_sym toUnit fromUnit).
    destruct (String.eqb fromUnit toUnit); [reflexivity|].
    destruct (String.eqb_spec fromUnit "km") as [Hfk|Hfk],
             (String.eqb_spec toUnit "mile") as [Htm|Htm],
             (String.eqb_spec toUnit "km") as [Htk|Htk],
             (String.eqb_spec fromUnit "mile") as [Hfm|Hfm];
      cbn [andb]; try reflexivity; try field;
      exfalso; congruence.
  - reflexivity.
  - reflexivity.
Qed.

(** X13.  For a positive distance and time, the pace [calculatePace] gives
    in any pace unit, brought to kilometres by the page's
    [convertPaceToPerKm], is the pace it gives per kilometre:
    [totalTimeSeconds / (distanceMetres / 1000)]. *)
Theorem calculatePace_per_km (distanceMetres totalTimeSeconds : Q)
    (paceUnit : string) :
  0 < distanceMetres -> 0 < totalTimeSeconds ->
  exists pace perKm,
    calculatePace distanceMetres totalTimeSeconds paceUnit = Returned pace /\
    calculatePace distanceMetres totalTimeSeconds "km" = Returned perKm /\
    convertPaceToPerKm pace paceUnit == perKm /\
    perKm == totalTimeSeconds / (distanceMetres / 1000).
Proof.
  intros Hd Ht. unfold calculatePace.
  assert (Hguard : Qle_bool distanceMetres 0 || Qle_bool totalTimeSeconds 0 = false).
  { apply orb_false_intro; apply not_true_iff_false; rewrite Qle_bool_iff; lra. }
  rewrite Hguard. eexists. eexists.
  split; [reflexivity|]. split; [reflexivity|].
  change (adjustedDistance distanceMetres "km")
    with (distanceMetres * 1 / 1000).
  split; [|field; lra].
  unfold convertPaceToPerKm, adjustedDistance.
  destruct (String.eqb_spec paceUnit "mile") as [Hmile|Hmile],
           (String.eqb_spec paceUnit "400m") as [H400|H400],
           (String.eqb_spec paceUnit "200m") as [H200|H200],
           (String.eqb_spec paceUnit "100m") as [H100|H100];
    try (exfalso; congruence);
    cbn [orb];
    repeat (match goal with
            | |- context [convertDistance ?d "metres" "miles"] =>
                change (convertDistance d "metres" "miles") with (d * 1 / 1609.344)
            | |- context [convertDistance ?d "metres" "m"] =>
                change (convertDistance d "metres" "m") with (d * 1 / 1)
            | |- context [convertDistance ?d "metres" "km"] =>
                change (convertDistance d "metres" "km") with (d * 1 / 1000)
            end);
    field; lra.
Qed.

Lemma calculatePace_per_km_witness :
  exists pace perKm,
    calculatePace 1609.344 480 "mile" = Returned pace /\
    calculatePace 1609.344 480 "km" = Returned perKm /\
    convertPaceToPerKm pace "mile" == perKm /\
    perKm == 480 / (1609.344 / 1000).
Proof. apply (calculatePace_per_km 1609.344 480 "mile"); reflexivity. Defined.

(** X14.  Turning a positive pace into a speed with
    [convertPaceToSpeedUnit] and back with [convertSpeedToPace] gives the
    pace back in km/h, in m/s and under an unknown unit name that no object
    inherits.  The two
    tables of factors do not match for the other units: in miles per hour
    and feet per second the pace comes back changed by less than a
    millionth of itself, and in yards per second it comes back more than
    0.3 % slower.  Both functions return 0 on a pace or speed that is zero
    or negative. *)
Theorem speed_unit_round_trip (pace : Q) (speedUnit : string) :
  (0 < pace ->
   let back unit := convertSpeedToPace (convertPaceToSpeedUnit pace unit) unit in
   (~ In speedUnit ["mph"; "fts"; "yds"]%string ->
    inherited speedUnit = false -> back speedUnit == pace) /\
   (pace < back "mph"%string < pace * 1.000001) /\
   (pace * 0.999999 < back "fts"%string < pace) /\
   (pace * 1.003 < back "yds"%string)) /\
  (pace <= 0 ->
   convertPaceToSpeedUnit pace speedUnit == 0 /\
   convertSpeedToPace pace speedUnit == 0).
Proof.
  assert (Hback : forall unit, 0 < pace -> 0 < fromKmh unit ->
            convertSpeedToPace (convertPaceToSpeedUnit pace unit) unit
            == pace / (fromKmh unit * toKmh unit)).
  { intros unit Hp Hf. unfold convertSpeedToPace, convertPaceToSpeedUnit.
    assert (Hpace : Qle_bool pace 0 = false).
    { apply not_true_iff_false. rewrite Qle_bool_iff. lra. }
    rewrite Hpace.
    assert (Hspeed : 0 < 3600 / pace * fromKmh unit).
    { apply Qmult_lt_0_compat; [|exact Hf].
      apply Qlt_shift_div_l; [exact Hp|]. lra. }
    assert (Hguard : Qle_bool (3600 / pace * fromKmh unit) 0 = false).
    { apply not_true_iff_false. rewrite Qle_bool_iff. lra. }
    rewrite Hguard.
    assert (Hto : 0 < toKmh unit).
    { unfold toKmh.
      repeat (match goal with |- context [String.eqb ?a ?b] =>
                destruct (String.eqb a b) end); reflexivity. }
    field. repeat split; lra. }
  split.
  - intros Hp back. subst back. cbv beta.
    split; [|split; [|split]].
    + intros Hnot _. rewrite Hback; [|exact Hp|].
      * assert (Hone : fromKmh speedUnit * toKmh speedUnit == 1).
        { unfold fromKmh, toKmh.
          destruct (String.eqb_spec speedUnit "kmh"); [reflexivity|].
          destruct (String.eqb_spec speedUnit "mph") as [->|_];
            [exfalso; apply Hnot; cbn; tauto|].
          destruct (String.eqb_spec speedUnit "ms"); [reflexivity|].
          destruct (String.eqb_spec speedUnit "fts") as [->|_];
            [exfalso; apply Hnot; cbn; tauto|].
          destruct (String.eqb_spec speedUnit "yds") as [->|_];
            [exfalso; apply Hnot; cbn; tauto|].
          reflexivity. }
        rewrite Hone. field.
      * unfold fromKmh.
        repeat (match goal with |- context [String.eqb ?a ?b] =>
                  destruct (String.eqb a b) end); reflexivity.
    + rewrite Hback; [|exact Hp|reflexivity].
      set (k := fromKmh "mph" * toKmh "mph").
      assert (Hlow : 0.9999995 < k) by reflexivity.
      assert (Hhigh : k < 1) by reflexivity. clearbody k.
      assert (Hup : 0 < pace * (1 - k)) by (apply Qmult_lt_0_compat; lra).
      assert (Hdown : 0 < pace * (k - 0.9999995)) by (apply Qmult_lt_0_compat; lra).
      split.
      * apply Qlt_shift_div_l; lra.
      * apply Qlt_shift_div_r; lra.
    + rewrite Hback; [|exact Hp|reflexivity].
      set (k := fromKmh "fts" * toKmh "fts").
      assert (Hlow : 1 < k) by reflexivity.
      assert (Hhigh : k < 1.000001) by reflexivity. clearbody k.
      assert (Hup : 0 < pace * (1.000001 - k)) by (apply Qmult_lt_0_compat; lra).
      assert (Hdown : 0 < pace * (k - 1)) by (apply Qmult_lt_0_compat; lra).
      split.
      * apply Qlt_shift_div_l; lra.
      * apply Qlt_shift_div_r; lra.
    + rewrite Hback; [|exact Hp|reflexivity].
      set (k := fromKmh "yds" * toKmh "yds").
      assert (Hlow : 0 < k) by reflexivity.
      assert (Hhigh : k < 0.997) by reflexivity. clearbody k.
      assert (Hup : 0 < pace * (0.997 - k)) by (apply Qmult_lt_0_compat; lra).
      apply Qlt_shift_div_l; lra.
  - intros Hp. unfold convertPaceToSpeedUnit, convertSpeedToPace.
    assert (Hguard : Qle_bool pace 0 = true) by (apply Qle_bool_iff; exact Hp).
    rewrite Hguard. split; reflexivity.
Qed.

Lemma speed_unit_round_trip_witness :
  convertSpeedToPace (convertPaceToSpeedUnit 300 "ms") "ms" == 300 /\
  300 * 1.003 < convertSpeedToPace (convertPaceToSpeedUnit 300 "yds") "yds".
Proof.
  destruct (speed_unit_round_trip 300 "ms") as [Hpositive _].
  destruct (Hpositive ltac:(reflexivity)) as (Hexact & _ & _ & Hyards).
  split; [apply Hexact; [|reflexivity]|exact Hyards].
  cbn. intros [H|[H|[H|[]]]]; discriminate.
Defined.

End ConversionProperties.


(* ===================================================================== *)
(** * The split times add up                                              *)
(* ===================================================================== *)

Section SplitTotalProperties.
Import Js PaceFormatter PaceEngine PacePage Conversions SplitTotals.

Local Open Scope Q_scope.

Lemma advance_capped (distanceMetres splitIntervalMetres cur : Q) :
  cur <= distanceMetres ->
  advance distanceMetres splitIntervalMetres cur <= distanceMetres.
Proof.
  intros Hcur. unfold advance.
  destruct (Qltb distanceMetres (cur + splitIntervalMetres)) eqn:Hcap.
  - apply Qle_refl.
  - apply Qltb_ge in Hcap. exact Hcap.
Qed.

Lemma loop_left (distanceMetres pacePerKm cur previousTime : Q) :
  cur <= distanceMetres -> Qltb cur distanceMetres = false ->
  previousTime == cur / 1000 * pacePerKm ->
  0 == distanceMetres / 1000 * pacePerKm - previousTime /\
  previousTime == distanceMetres / 1000 * pacePerKm.
Proof.
  intros Hcur Hleft Htime. apply Qltb_ge in Hleft.
  assert (Heq : cur == distanceMetres) by lra.
  rewrite Htime, Heq. split; [ring|reflexivity].
Qed.

Lemma smartLoop_totals (distanceMetres pacePerKm splitIntervalMetres : Q)
    (info : IntervalInfo) :
  forall fuel cur previousDistance previousTime splits,
    cur <= distanceMetres ->
    previousTime == cur / 1000 * pacePerKm ->
    smartLoop fuel distanceMetres pacePerKm splitIntervalMetres info
      cur previousDistance previousTime = Some splits ->
    totalSplitTime splits == distanceMetres / 1000 * pacePerKm - previousTime /\
    finalTime previousTime splits == distanceMetres / 1000 * pacePerKm.
Proof.
  induction fuel as [|fuel IH];
    intros cur previousDistance previousTime splits Hcur Htime Hrun;
    cbn [smartLoop] in Hrun;
    destruct (Qltb cur distanceMetres) eqn:Hgo; try discriminate;
    try (injection Hrun as <-; apply (loop_left _ _ cur); assumption).
  match type of Hrun with
  | context [smartLoop fuel ?d ?p ?i ?n ?c ?pd ?pt] =>
      destruct (smartLoop fuel d p i n c pd pt) as [rest|] eqn:Hrest;
        [|discriminate];
      apply (IH c pd pt rest) in Hrest;
        [|apply advance_capped; exact Hcur|reflexivity]
  end.
  injection Hrun as <-. destruct Hrest as (Hsum & Hlast).
  cbn [totalSplitTime fold_right splitTime finalTime fold_left time].
  split; [|exact Hlast].
  fold (totalSplitTime rest). rewrite Hsum. ring.
Qed.

Lemma customLoop_totals (distanceMetres pacePerKm splitIntervalMetres : Q)
    (info : option IntervalInfo) :
  forall fuel cur previousDistance previousTime splits,
    cur <= distanceMetres ->
    previousTime == cur / 1000 * pacePerKm ->
    customLoop fuel distanceMetres pacePerKm splitIntervalMetres info
      cur previousDistance previousTime = Some splits ->
    totalSplitTime splits == distanceMetres / 1000 * pacePerKm - previousTime /\
    finalTime previousTime splits == distanceMetres / 1000 * pacePerKm.
Proof.
  induction fuel as [|fuel IH];
    intros cur previousDistance previousTime splits Hcur Htime Hrun;
    cbn [customLoop] in Hrun;
    destruct (Qltb cur distanceMetres) eqn:Hgo; try discriminate;
    try (injection Hrun as <-; apply (loop_left _ _ cur); assumption).
  match type of Hrun with
  | context [customLoop fuel ?d ?p ?i ?n ?c ?pd ?pt] =>
      destruct (customLoop fuel d p i n c pd pt) as [rest|] eqn:Hrest;
        [|discriminate];
      apply (IH c pd pt rest) in Hrest;
        [|apply advance_capped; exact Hcur|reflexivity]
  end.
  injection Hrun as <-. destruct Hrest as (Hsum & Hlast).
  cbn [totalSplitTime fold_right splitTime finalTime fold_left time].
  split; [|exact Hlast].
  fold (totalSplitTime rest). rewrite Hsum. ring.
Qed.

(** X15.  For a positive distance and a positive interval, the rows that
    [calculateCustomSplits] and [calculateSmartSplits] return account for
    the whole race: the split times add up to the total time
    [distanceMetres / 1000 * pacePerKm], and the cumulative time of the
    last row is that total. *)
Theorem split_times_add_up (distanceMetres pacePerKm splitIntervalMetres : Q)
    (eventConfig : EventConfig) (splitIntervalInfo : IntervalInfo)
    (paceIntervalInfo : option IntervalInfo) (fuel : nat) :
  0 < distanceMetres -> 0 < splitIntervalMetres ->
  (Z.to_nat (Qceiling (distanceMetres / splitIntervalMetres)) <= fuel)%nat ->
  (100 <= fuel)%nat ->
  (exists splits,
     calculateCustomSplits fuel distanceMetres pacePerKm eventConfig
       splitIntervalMetres paceIntervalInfo = Some splits /\
     totalSplitTime splits == distanceMetres / 1000 * pacePerKm /\
     finalTime 0 splits == distanceMetres / 1000 * pacePerKm) /\
  (exists splits,
     calculateSmartSplits fuel distanceMetres pacePerKm eventConfig
       splitIntervalMetres splitIntervalInfo = Some splits /\
     totalSplitTime splits == distanceMetres / 1000 * pacePerKm /\
     finalTime 0 splits == distanceMetres / 1000 * pacePerKm).
Proof.
  intros Hd Hi Hfuel Hhundred.
  assert (Hstart : 0 == 0 / 1000 * pacePerKm) by field.
  split.
  - unfold calculateCustomSplits.
    pose proof (customLoop_turns distanceMetres pacePerKm splitIntervalMetres
                  paceIntervalInfo fuel 0 0 0) as Hturns.
    rewrite (turns_from_start _ _ _ Hd Hi Hfuel) in Hturns.
    destruct (customLoop fuel distanceMetres pacePerKm splitIntervalMetres
                paceIntervalInfo 0 0 0) as [splits|] eqn:Hrun; [|discriminate].
    exists splits. split; [reflexivity|].
    destruct (customLoop_totals _ _ _ _ _ _ _ _ _ (Qlt_le_weak _ _ Hd) Hstart Hrun)
      as (Hsum & Hlast).
    split; [rewrite Hsum; ring|exact Hlast].
  - assert (Hfloor : (Qfloor (distanceMetres / splitIntervalMetres)
                      <= Qceiling (distanceMetres / splitIntervalMetres))%Z).
    { rewrite Zle_Qle.
      apply Qle_trans with (distanceMetres / splitIntervalMetres);
        [apply Qfloor_le|apply Qle_ceiling]. }
    destruct (growInterval_returns distanceMetres Hd fuel 1 splitIntervalMetres
                (value splitIntervalInfo) Hi) as (m & i & v & Hgrow & Hpos & Hfew);
      [lia|].
    unfold calculateSmartSplits. rewrite Hgrow.
    pose proof (Qceiling_le_floor_succ (distanceMetres / i)) as Hceil.
    assert (Henough : (Z.to_nat (Qceiling (distanceMetres / i)) <= fuel)%nat) by lia.
    pose proof (smartLoop_turns distanceMetres pacePerKm i
                  (mkInfo (metres splitIntervalInfo) v (unit splitIntervalInfo))
                  fuel 0 0 0) as Hturns.
    rewrite (turns_from_start _ _ _ Hd Hpos Henough) in Hturns.
    destruct (smartLoop fuel distanceMetres pacePerKm i _ 0 0 0)
      as [splits|] eqn:Hrun; [|discriminate].
    exists splits. split; [reflexivity|].
    destruct (smartLoop_totals _ _ _ _ _ _ _ _ _ (Qlt_le_weak _ _ Hd) Hstart Hrun)
      as (Hsum & Hlast).
    split; [rewrite Hsum; ring|exact Hlast].
Qed.

Lemma split_times_add_up_witness :
  (exists splits,
     calculateCustomSplits 100 2500 300 Spec.sampleEvent 1000 None = Some splits /\
     totalSplitTime splits == 2500 / 1000 * 300 /\
     finalTime 0 splits == 2500 / 1000 * 300) /\
  (exists splits,
     calculateSmartSplits 100 2500 300 Spec.sampleEvent 1000 (mkInfo 1000 1 "km")
       = Some splits /\
     totalSplitTime splits == 2500 / 1000 * 300 /\
     finalTime 0 splits == 2500 / 1000 * 300).
Proof.
  apply (split_times_add_up 2500 300 1000 Spec.sampleEvent (mkInfo 1000 1 "km") None
           100%nat); try reflexivity; vm_compute; lia.
Defined.

End SplitTotalProperties.


(* ===================================================================== *)
(** * Properties of the race splits                                       *)
(* ===================================================================== *)

Section RaceSplitProperties.
Import Js PaceFormatter PaceEngine Conversions.

Local Open Scope Q_scope.

Lemma splitsBefore_returns (distanceKm paceSecondsPerKm splitInterval : Q) :
  0 < splitInterval ->
  forall fuel currentKm,
    (Qceiling ((distanceKm - currentKm) / splitInterval) <= Z.of_nat fuel)%Z ->
    exists splits,
      splitsBefore fuel distanceKm paceSecondsPerKm splitInterval currentKm
        = Some splits /\
      (Z.of_nat (List.length splits)
       <= Z.max 0 (Qceiling ((distanceKm - currentKm) / splitInterval)))%Z /\
      List.Forall (intermediate (distanceKm * 1000) paceSecondsPerKm) splits.
Proof.
  intros Hi. induction fuel as [|fuel IH]; intros currentKm Hfuel;
    cbn [splitsBefore]; destruct (Qltb currentKm distanceKm) eqn:Hgo;
    try (exists []; split; [reflexivity|]; split; [cbn; lia|constructor]).
  - apply Qltb_lt in Hgo.
    assert (Hpos : 0 < (distanceKm - currentKm) / splitInterval).
    { apply Qlt_shift_div_l; [exact Hi|]. lra. }
    apply Qceiling_pos in Hpos. lia.
  - apply Qltb_lt in Hgo.
    set (x := (distanceKm - currentKm) / splitInterval) in *.
    assert (Hshift : (distanceKm - (currentKm + splitInterval)) / splitInterval
                     == x - 1) by (unfold x; field; lra).
    destruct (Qceiling_bounds x) as (Hlo & Hhi).
    assert (Hnext : Qceiling ((distanceKm - (currentKm + splitInterval))
                                / splitInterval) = (Qceiling x - 1)%Z).
    { rewrite Hshift. apply Qceiling_unique; rewrite inject_Z_pred; lra. }
    assert (Hk : (0 < Qceiling x)%Z).
    { apply Qceiling_pos. apply Qlt_shift_div_l; [exact Hi|]. lra. }
    destruct (IH (currentKm + splitInterval)) as (rest & Hrest & Hlen & Hall);
      [rewrite Hnext; lia|].
    rewrite Hrest. eexists. split; [reflexivity|].
    rewrite Hnext in Hlen. split; [cbn [List.length]; lia|].
    constructor; [|exact Hall].
    unfold intermediate. cbn [isFinal raceDistance raceTime racePace].
    split; [reflexivity|]. split; [lra|]. split; [field|reflexivity].
Qed.

(** X17.  [calculateSplits] returns for every distance and pace.  Its last
    row is the whole race: the distance, the event's display name, the
    total time [paceSecondsPerKm * (distanceMetres / 1000)], marked final.
    Every row before it is not final, lies before the finish and carries
    the time the pace gives at its distance; up to 30 km there are at most
    five of them. *)
Theorem calculateSplits_rows (distanceMetres paceSecondsPerKm : Q)
    (eventConfig : EventConfig) (fuel : nat) :
  (Z.to_nat (Qceiling (distanceMetres / 1000)) <= fuel)%nat ->
  exists before,
    calculateSplits fuel distanceMetres paceSecondsPerKm eventConfig
    = Some (before ++
              [mkRaceSplit distanceMetres (displayName eventConfig)
                 (paceSecondsPerKm * (distanceMetres / 1000))
                 paceSecondsPerKm true])%list /\
    List.Forall (intermediate distanceMetres paceSecondsPerKm) before /\
    (distanceMetres <= 30000 -> (List.length before <= 5)%nat).
Proof.
  intros Hfuel. unfold calculateSplits.
  set (distanceKm := distanceMetres / 1000) in *.
  set (splitInterval :=
         if Qle_bool distanceKm 5 then 1
         else if Qle_bool distanceKm 15 then 5
         else if Qle_bool distanceKm 30 then 5 else 10).
  assert (Hinterval : 1 <= splitInterval /\
            (distanceMetres <= 30000 ->
             (distanceKm - splitInterval) / splitInterval <= 5)).
  { unfold splitInterval.
    destruct (Qle_bool distanceKm 5) eqn:H5;
      [|destruct (Qle_bool distanceKm 15) eqn:H15;
        [|destruct (Qle_bool distanceKm 30) eqn:H30]];
      (split; [discriminate|]); intros Hshort;
      try (apply Qle_bool_iff in H5); try (apply Qle_bool_iff in H15);
      try (apply Qle_bool_iff in H30);
      try (apply Qle_shift_div_r; [reflexivity|]; lra).
    exfalso. apply not_true_iff_false in H30. apply H30. apply Qle_bool_iff.
    unfold distanceKm. apply Qle_shift_div_r; [reflexivity|]. lra. }
  destruct Hinterval as (Hone & Hshort). clearbody splitInterval.
  assert (Hi : 0 < splitInterval) by lra.
  assert (Hturns : (Qceiling ((distanceKm - splitInterval) / splitInterval)
                    <= Z.max 0 (Qceiling distanceKm))%Z).
  { destruct (Qlt_le_dec distanceKm 0) as [Hneg|Hpos].
    - apply Z.le_trans with (Qceiling 0); [|change (Qceiling 0) with 0%Z; lia].
      apply Qceiling_resp_le. apply Qle_shift_div_r; [exact Hi|]. lra.
    - apply Z.le_trans with (Qceiling distanceKm); [|lia].
      apply Qceiling_resp_le. apply Qle_shift_div_r; [exact Hi|].
      assert (Hprod : 0 <= distanceKm * (splitInterval - 1))
        by (apply Qmult_le_0_compat; lra).
      lra. }
  destruct (splitsBefore_returns distanceKm paceSecondsPerKm splitInterval Hi
              fuel splitInterval) as (before & Hrun & Hlen & Hall); [lia|].
  rewrite Hrun. exists before.
  split; [f_equal; f_equal; f_equal; ring|].
  split.
  - assert (Hsame : distanceKm * 1000 == distanceMetres)
      by (unfold distanceKm; field).
    eapply List.Forall_impl; [|exact Hall].
    intros split (Hfinal & Hbefore & Htime & Hpace).
    split; [exact Hfinal|]. split; [lra|]. split; assumption.
  - intros Hcap. apply Hshort in Hcap. apply Qceiling_resp_le in Hcap.
    change (Qceiling 5) with 5%Z in Hcap. lia.
Qed.

Lemma calculateSplits_rows_witness :
  exists before,
    calculateSplits 10 10000 300 Spec.sampleEvent
    = Some (before ++
              [mkRaceSplit 10000 (displayName Spec.sampleEvent)
                 (300 * (10000 / 1000)) 300 true])%list /\
    List.Forall (intermediate 10000 300) before /\
    (10000 <= 30000 -> (List.length before <= 5)%nat).
Proof. apply (calculateSplits_rows 10000 300 Spec.sampleEvent 10%nat). vm_compute. lia. Defined.

End RaceSplitProperties.


(* ===================================================================== *)
(** * Properties of the collapsible sections and of the history           *)
(* ===================================================================== *)

Section SessionProperties.
Import Collapsible.

(** X18.  A click on a collapsible title flips the section, and stores the
    new state: a section made later over the same key comes up in the state
    the click left, whatever default its caller passes; the other keys of
    the session storage are untouched, and a second click brings the first
    section back. *)
Theorem click_persists (sessionStorage : gmap string string)
    (key : string) (defaultCollapsed laterDefault : bool) :
  let section := makeCollapsible sessionStorage key defaultCollapsed in
  let stored := fst (click sessionStorage section) in
  let clicked := snd (click sessionStorage section) in
  contentCollapsed clicked = negb (contentCollapsed section) /\
  makeCollapsible stored key laterDefault = clicked /\
  (forall other, other <> key ->
     stored !! other = sessionStorage !! other) /\
  snd (click stored clicked) = section.
Proof.
  cbv zeta. unfold makeCollapsible, click, isCollapsed.
  cbn [fst snd storageKey contentCollapsed iconCollapsed ariaExpanded role
       tabindex].
  split; [reflexivity|]. split; [|split].
  - rewrite lookup_insert_eq.
    destruct (sessionStorage !! key) as [storedState|];
      [destruct (String.eqb storedState "true")|destruct defaultCollapsed];
      reflexivity.
  - intros other Hother. apply lookup_insert_ne. congruence.
  - destruct (sessionStorage !! key) as [storedState|];
      [destruct (String.eqb storedState "true")|destruct defaultCollapsed];
      reflexivity.
Qed.

End SessionProperties.

Section HistoryProperties.
Import History.
Context {Payload : Type}.
Variable fits : list (Entry Payload) -> bool.

Lemma save_outcome (history : list (Entry Payload)) :
  (fits history = true -> save fits history = Kept (Some (Array history))) /\
  (fits history = false -> fits (take 5 history) = true ->
   save fits history = Kept (Some (Array (take 5 history)))) /\
  (fits history = false -> fits (take 5 history) = false ->
   save fits history = Escaped).
Proof.
  unfold save. split; [|split].
  - intros ->. reflexivity.
  - intros -> ->. reflexivity.
  - intros -> ->. reflexivity.
Qed.

Lemma addEntry_history (generated : string) (store : option (Stored Payload))
    (entry : Entry Payload) :
  snd (addEntry fits generated store entry)
  = (if lacksId entry
     then mkEntry (Some ("hist-" ++ generated)%string) (payload entry)
     else entry) :: take 9 (load store).
Proof.
  unfold addEntry. cbn [snd]. unfold MAX_ENTRIES. cbn [List.length].
  destruct (Nat.ltb_spec 10 (S (List.length (load store)))) as [Hlong|Hshort].
  - reflexivity.
  - rewrite take_ge by lia. reflexivity.
Qed.

(** X19.  [addEntry] puts the new entry first, with an id of its own when
    it came without one, keeps the nine most recent of the entries that
    were stored, and so never returns more than [MAX_ENTRIES] entries.
    When the storage has room the next [load] returns that same list; when
    it has not, only the first five entries are stored, while the caller
    still gets the whole list; when there is no room for those either the
    exception escapes. *)
Theorem addEntry_caps (generated : string) (store : option (Stored Payload))
    (entry : Entry Payload) :
  let history := snd (addEntry fits generated store entry) in
  let saved := fst (addEntry fits generated store entry) in
  (exists first,
     history = first :: take 9 (load store) /\
     lacksId first = false /\
     payload first = payload entry /\
     (lacksId entry = false -> first = entry)) /\
  (List.length history <= MAX_ENTRIES)%nat /\
  (fits history = true ->
   exists kept, saved = Kept kept /\ load kept = history) /\
  (fits history = false -> fits (take 5 history) = true ->
   exists kept, saved = Kept kept /\ load kept = take 5 history) /\
  (fits history = false -> fits (take 5 history) = false -> saved = Escaped).
Proof.
  cbv zeta.
  assert (Hsaved : fst (addEntry fits generated store entry)
                   = save fits (snd (addEntry fits generated store entry)))
    by reflexivity.
  rewrite Hsaved, addEntry_history.
  set (first := if lacksId entry then _ else entry).
  destruct (save_outcome (first :: take 9 (load store))) as (Hroom & Hfive & Hnone).
  split; [|split; [|split; [|split]]].
  - exists first. split; [reflexivity|]. unfold first.
    destruct (lacksId entry) eqn:Hlacks.
    + split; [reflexivity|]. split; [reflexivity|discriminate].
    + split; [exact Hlacks|]. split; reflexivity.
  - cbn [List.length]. rewrite length_take. unfold MAX_ENTRIES. lia.
  - intros Hfits. eexists. split; [apply Hroom; exact Hfits|reflexivity].
  - intros Hfits Htrimmed. eexists.
    split; [apply Hfive; assumption|reflexivity].
  - exact Hnone.
Qed.

Lemma filter_hasOtherId (wanted : string) (history : list (Entry Payload)) :
  forall entry,
    In entry (List.filter (hasOtherId wanted) history)
    <-> In entry history /\ id entry <> Some wanted.
Proof.
  intros entry. rewrite filter_In. unfold hasOtherId.
  destruct (id entry) as [text|].
  - destruct (String.eqb_spec text wanted) as [->|Hne]; cbn [negb].
    + split; [intros [_ H]; discriminate|intros [_ H]; contradiction].
    + split; intros [Hin _]; (split; [exact Hin|]); [congruence|reflexivity].
  - split; intros [Hin _]; (split; [exact Hin|]); [discriminate|reflexivity].
Qed.

Lemma filter_keeps_all {A : Type} (keep : A -> bool) (items : list A) :
  (forall item, In item items -> keep item = true) ->
  List.filter keep items = items.
Proof.
  induction items as [|item items IH]; intros Hall; cbn [List.filter].
  - reflexivity.
  - rewrite (Hall item) by (left; reflexivity).
    rewrite IH; [reflexivity|]. intros other Hin. apply Hall. right. exact Hin.
Qed.

Lemma In_take {A : Type} (item : A) (count : nat) (items : list A) :
  In item (take count items) -> In item items.
Proof.
  revert count. induction items as [|head items IH]; intros [|count];
    cbn [take In]; try tauto.
  intros [Hhead|Hrest]; [left; exact Hhead|right; exact (IH count Hrest)].
Qed.

(** X20.  [removeEntry] returns the stored entries without those of the
    given id, and loses no other: an entry is returned exactly when it was
    stored under another id, or without one.  When no stored entry has the
    id the list comes back as it was, and removing the same id from what
    was stored a second time changes nothing. *)
Theorem removeEntry_removes (store : option (Stored Payload)) (wanted : string) :
  let filtered := snd (removeEntry fits store wanted) in
  (forall entry,
     In entry filtered <-> In entry (load store) /\ id entry <> Some wanted) /\
  (List.length filtered <= List.length (load store))%nat /\
  ((forall entry, In entry (load store) -> id entry <> Some wanted) ->
   filtered = load store) /\
  (fits filtered = true ->
   exists kept,
     fst (removeEntry fits store wanted) = Kept kept /\
     load kept = filtered /\
     snd (removeEntry fits kept wanted) = filtered).
Proof.
  cbv zeta. unfold removeEntry. cbn [fst snd].
  split; [apply filter_hasOtherId|]. split; [apply List.filter_length_le|].
  split.
  - intros Habsent. apply filter_keeps_all. intros entry Hin.
    specialize (Habsent entry Hin). unfold hasOtherId.
    destruct (id entry) as [text|]; [|reflexivity].
    destruct (String.eqb_spec text wanted) as [->|Hne]; [|reflexivity].
    contradiction.
  - intros Hfits. eexists.
    split; [apply (proj1 (save_outcome _)); exact Hfits|].
    split; [reflexivity|]. cbn [load].
    apply filter_keeps_all. intros entry Hin.
    apply filter_In in Hin. tauto.
Qed.

(** X21.  Adding an entry that has no id and removing it again by the id
    it was given leaves the nine most recent of the entries stored before,
    provided none of them carries that id and the storage has room. *)
Theorem addEntry_then_removeEntry (generated : string)
    (store : option (Stored Payload)) (entry : Entry Payload) :
  lacksId entry = true ->
  fits (snd (addEntry fits generated store entry)) = true ->
  (forall old, In old (load store) ->
     id old <> Some ("hist-" ++ generated)%string) ->
  exists kept,
    fst (addEntry fits generated store entry) = Kept kept /\
    snd (removeEntry fits kept ("hist-" ++ generated)%string)
    = take 9 (load store).
Proof.
  intros Hlacks Hfits Hfresh.
  assert (Hsaved : fst (addEntry fits generated store entry)
                   = save fits (snd (addEntry fits generated store entry)))
    by reflexivity.
  rewrite Hsaved. rewrite addEntry_history in *. rewrite Hlacks in *.
  eexists. split; [apply (proj1 (save_outcome _)); exact Hfits|].
  unfold removeEntry. cbn [snd load List.filter hasOtherId id].
  rewrite String.eqb_refl. cbn [negb].
  apply filter_keeps_all. intros old Hin.
  assert (Hold : In old (load store)).
  { eapply In_take. exact Hin. }
  specialize (Hfresh old Hold). unfold hasOtherId.
  destruct (id old) as [text|]; [|reflexivity].
  destruct (String.eqb_spec text ("hist-" ++ generated)) as [->|Hne];
    [contradiction|reflexivity].
Qed.

End HistoryProperties.

Lemma addEntry_then_removeEntry_witness :
  exists kept,
    fst (History.addEntry (fun _ => true) "1"
           (Some (History.Array [History.mkEntry (Some "a") 7%nat]))
           (History.mkEntry None 8%nat)) = History.Kept kept /\
    snd (History.removeEntry (fun _ => true) kept "hist-1")
    = take 9 (History.load (Some (History.Array [History.mkEntry (Some "a") 7%nat]))).
Proof.
  apply (addEntry_then_removeEntry (fun _ => true) "1"
           (Some (History.Array [History.mkEntry (Some "a") 7%nat]))
           (History.mkEntry None 8%nat)).
  - reflexivity.
  - reflexivity.
  - intros old [<-|[]]. discriminate.
Defined.


(* ===================================================================== *)
(** * The clock format of the pace formatter                              *)
(* ===================================================================== *)

Section ClockProperties.
Import Js PaceFormatter.

Local Open Scope Q_scope.

Lemma Qfloor_unique (x : Q) (z : Z) :
  inject_Z z <= x -> x < inject_Z z + 1 -> Qfloor x = z.
Proof.
  intros Hlo Hhi.
  pose proof (Qfloor_le x) as Hf1. pose proof (Qlt_floor x) as Hf2.
  rewrite inject_Z_plus in Hf2. change (inject_Z 1) with 1 in Hf2.
  assert (H1 : inject_Z z < inject_Z (Qfloor x + 1)).
  { rewrite inject_Z_plus. change (inject_Z 1) with 1. lra. }
  assert (H2 : inject_Z (Qfloor x) < inject_Z (z + 1)).
  { rewrite inject_Z_plus. change (inject_Z 1) with 1. lra. }
  rewrite <- Zlt_Qlt in H1, H2. lia.
Qed.

Lemma Qfloor_bounds (x : Q) :
  inject_Z (Qfloor x) <= x /\ x < inject_Z (Qfloor x) + 1.
Proof.
  split; [apply Qfloor_le|].
  pose proof (Qlt_floor x) as H. rewrite inject_Z_plus in H. exact H.
Qed.

Lemma Qtrunc_floor (x : Q) : 0 <= x -> Qtrunc x = Qfloor x.
Proof.
  intros Hx. unfold Qtrunc. apply Qltb_ge in Hx. rewrite Hx. reflexivity.
Qed.

(** X22.  From a minute on, [formatPaceTime] and [formatTotalTime] print
    the same clock: the whole hours (when there are any), the whole minutes
    of the rest, and the seconds left over rounded to the nearest whole
    number.  The rounding is not carried into the minutes: the seconds
    field reads 60 exactly when at least 59.5 seconds are left over. *)
Theorem clock_seconds_not_carried (seconds : Q) :
  60 <= seconds ->
  let hours := Qfloor (seconds / 3600) in
  let minutes := Qfloor ((seconds - 3600 * inject_Z hours) / 60) in
  let left := seconds - 3600 * inject_Z hours - 60 * inject_Z minutes in
  let secs := Qfloor (left + (1 # 2)) in
  formatPaceTime (Num (Fin seconds))
  = (if (0 <? hours)%Z
     then showZ hours ++ ":" ++ padStart2 (showZ minutes)
            ++ ":" ++ padStart2 (showZ secs)
     else showZ minutes ++ ":" ++ padStart2 (showZ secs))%string /\
  formatTotalTime (Num (Fin seconds)) = formatPaceTime (Num (Fin seconds)) /\
  (0 <= hours /\ 0 <= minutes <= 59 /\ 0 <= secs <= 60)%Z /\
  0 <= left < 60 /\
  (secs = 60%Z <-> 59.5 <= left).
Proof.
  intros Hminute hours minutes left secs.
  destruct (Qfloor_bounds (seconds / 3600)) as (Hh1 & Hh2). fold hours in Hh1, Hh2.
  assert (Hq : seconds / 3600 * 3600 == seconds) by field.
  assert (Hrest : 0 <= seconds - 3600 * inject_Z hours < 3600) by lra.
  destruct (Qfloor_bounds ((seconds - 3600 * inject_Z hours) / 60)) as (Hm1 & Hm2).
  fold minutes in Hm1, Hm2.
  assert (Hr : (seconds - 3600 * inject_Z hours) / 60 * 60
               == seconds - 3600 * inject_Z hours) by field.
  assert (Hleft : 0 <= left < 60) by (unfold left; lra).
  assert (Hhours : (0 <= hours)%Z).
  { unfold hours. change 0%Z with (Qfloor 0). apply Qfloor_resp_le.
    apply Qle_shift_div_l; [reflexivity|]. lra. }
  assert (Hminutes : (0 <= minutes <= 59)%Z).
  { split.
    - unfold minutes. change 0%Z with (Qfloor 0). apply Qfloor_resp_le.
      apply Qle_shift_div_l; [reflexivity|]. lra.
    - assert (H : inject_Z minutes < inject_Z 60)
        by (change (inject_Z 60) with 60; lra).
      rewrite <- Zlt_Qlt in H. lia. }
  destruct (Qfloor_bounds (left + (1 # 2))) as (Hs1 & Hs2). fold secs in Hs1, Hs2.
  assert (Hsecs : (0 <= secs <= 60)%Z).
  { split.
    - unfold secs. change 0%Z with (Qfloor 0). apply Qfloor_resp_le. lra.
    - assert (H : inject_Z secs < inject_Z 61)
        by (change (inject_Z 61) with 61; lra).
      rewrite <- Zlt_Qlt in H. lia. }
  assert (Hsixty : Qfloor (seconds / 60) = (60 * hours + minutes)%Z).
  { apply Qfloor_unique; rewrite inject_Z_plus, inject_Z_mult;
      change (inject_Z 60) with 60.
    - apply Qle_shift_div_l; [reflexivity|]. lra.
    - apply Qlt_shift_div_r; [reflexivity|]. lra. }
  assert (Hclock : clockTime (Fin seconds)
          = (if (0 <? hours)%Z
             then showZ hours ++ ":" ++ padStart2 (showZ minutes)
                    ++ ":" ++ padStart2 (showZ secs)
             else showZ minutes ++ ":" ++ padStart2 (showZ secs))%string).
  { unfold clockTime. cbn [div rem floor roundI ofIntegral gtb ltb showIntegral].
    change (Qeq_bool 3600 0) with false. change (Qeq_bool 60 0) with false.
    cbv iota.
    rewrite (Qtrunc_floor (seconds / 3600))
      by (apply Qle_shift_div_l; [reflexivity|]; lra).
    rewrite (Qtrunc_floor (seconds / 60))
      by (apply Qle_shift_div_l; [reflexivity|]; lra).
    fold hours. rewrite Hsixty.
    cbn [div rem floor roundI ofIntegral gtb ltb showIntegral].
    change (Qeq_bool 60 0) with false. cbv iota. fold minutes.
    assert (Hsame : Qfloor (seconds - 60 * inject_Z (60 * hours + minutes)
                            + (1 # 2)) = secs).
    { unfold secs. apply Qfloor_comp. unfold left.
      rewrite inject_Z_plus, inject_Z_mult. change (inject_Z 60) with 60. ring. }
    rewrite Hsame.
    assert (Htest : Qltb 0 (inject_Z hours) = (0 <? hours)%Z).
    { destruct (Z.ltb_spec 0 hours) as [Hpos|Hzero].
      - apply Qltb_lt. change 0 with (inject_Z 0). rewrite <- Zlt_Qlt. exact Hpos.
      - apply Qltb_ge. change 0 with (inject_Z 0). rewrite <- Zle_Qle. exact Hzero. }
    cbn [showIntegral floor]. fold hours. fold minutes.
    rewrite Htest. reflexivity. }
  assert (Hguard : isNaN (Fin seconds) || ltb (Fin seconds) (Fin 0) = false).
  { cbn [isNaN ltb orb]. apply Qltb_ge. lra. }
  assert (Hlong : ltb (Fin seconds) (Fin 60) = false).
  { cbn [ltb]. apply Qltb_ge. exact Hminute. }
  split; [|split; [|split; [|split]]].
  - unfold formatPaceTime. rewrite Hguard, Hlong. exact Hclock.
  - reflexivity.
  - repeat split; try lia.
  - exact Hleft.
  - split.
    + intros Hfull. rewrite Hfull in Hs1. change (inject_Z 60) with 60 in Hs1. lra.
    + intros Hhalf.
      assert (H : inject_Z 59 < inject_Z secs)
        by (change (inject_Z 59) with 59; lra).
      rewrite <- Zlt_Qlt in H. lia.
Qed.

Lemma clock_seconds_not_carried_witness :
  formatPaceTime (Num (Fin 119.6)) = "1:60"%string.
Proof.
  destruct (clock_seconds_not_carried 119.6) as (Hprinted & _); [discriminate|].
  rewrite Hprinted. reflexivity.
Defined.

End ClockProperties.


(* ===================================================================== *)
(** * Properties of the table of equivalent paces                         *)
(* ===================================================================== *)

Section EquivalentProperties.
Import Conversions Equivalents.

Local Open Scope Q_scope.

(** X23.  For a positive pace, each pace of [getEquivalentPaces] goes with
    the speed of the same unit: seconds per metre times metres per second
    is 1, and so it is for yards, and seconds per kilometre times km/h is
    3600.  For miles and for feet the pace and the speed are computed from
    factors that are not inverse to each other: the product falls short
    of 3600 for miles, and exceeds 1 for feet, by less than a millionth of
    it.  The speed in km/h is the one [convertPaceToSpeedUnit] gives. *)
Theorem getEquivalentPaces_consistent (paceSecondsPerKm : Q) :
  0 < paceSecondsPerKm ->
  exists paces,
    getEquivalentPaces paceSecondsPerKm = Some paces /\
    perMeter paces * metersPerSecond paces == 1 /\
    perYard paces * yardsPerSecond paces == 1 /\
    perKm paces * kmh paces == 3600 /\
    3600 * 0.999999 < perMile paces * mph paces < 3600 /\
    1 < perFoot paces * feetPerSecond paces < 1.000001 /\
    kmh paces == convertPaceToSpeedUnit paceSecondsPerKm "kmh".
Proof.
  intros Hp. unfold getEquivalentPaces.
  assert (Hnonzero : Qeq_bool paceSecondsPerKm 0 = false).
  { apply not_true_iff_false. rewrite Qeq_bool_iff. lra. }
  assert (Hguard : Qle_bool paceSecondsPerKm 0 = false).
  { apply not_true_iff_false. rewrite Qle_bool_iff. lra. }
  rewrite Hnonzero. eexists. split; [reflexivity|].
  unfold convertPaceToSpeed, convertPaceToSpeedUnit. rewrite Hguard.
  change (convertPaceUnit paceSecondsPerKm "km" "mile")
    with (paceSecondsPerKm * 1.609344).
  change (fromKmh "kmh") with 1.
  cbn [String.eqb Ascii.eqb Bool.eqb perKm perMile perMeter perYard perFoot kmh
       mph metersPerSecond feetPerSecond yardsPerSecond speedKmh speedMph].
  split; [field; lra|]. split; [field; lra|]. split; [field; lra|].
  assert (Hmile : paceSecondsPerKm * 1.609344
                  * (3600 / paceSecondsPerKm * 0.621371)
                  == 3600 * (1.609344 * 0.621371)) by (field; lra).
  assert (Hfoot : paceSecondsPerKm / 1000 * 0.3048
                  * (1000 / paceSecondsPerKm * 3.28084)
                  == 0.3048 * 3.28084) by (field; lra).
  rewrite Hmile, Hfoot.
  split; [split; reflexivity|]. split; [split; reflexivity|]. field. lra.
Qed.

Lemma getEquivalentPaces_consistent_witness :
  exists paces,
    getEquivalentPaces 300 = Some paces /\
    perMeter paces * metersPerSecond paces == 1 /\
    perYard paces * yardsPerSecond paces == 1 /\
    perKm paces * kmh paces == 3600 /\
    3600 * 0.999999 < perMile paces * mph paces < 3600 /\
    1 < perFoot paces * feetPerSecond paces < 1.000001 /\
    kmh paces == convertPaceToSpeedUnit 300 "kmh".
Proof. apply (getEquivalentPaces_consistent 300). reflexivity. Defined.

End EquivalentProperties.

(* ===================================================================== *)
(** * Properties of the split loops in binary64                           *)
(* ===================================================================== *)

Section SplitTurnProperties.
Import Js SplitTurns.

Local Open Scope Q_scope.

Lemma pow2_pos (k : Z) : 0 < 2 ^ k.
Proof. apply Qpower_0_lt. reflexivity. Qed.

Lemma pow2_add (a b : Z) : 2 ^ (a + b) == 2 ^ a * 2 ^ b.
Proof. apply Qpower_plus. discriminate. Qed.

Lemma pow2_succ (a : Z) : 2 ^ (a + 1) == 2 * 2 ^ a.
Proof. rewrite pow2_add. change (2 ^ 1) with 2. ring. Qed.

Lemma pow2_lt_inv (a b : Z) : 2 ^ a < 2 ^ b -> (a < b)%Z.
Proof. intros H. apply (Qpower_lt_compat_l_inv 2); [exact H|reflexivity]. Qed.

Lemma pow2_inject (a : Z) : (0 <= a)%Z -> inject_Z (2 ^ a) == 2 ^ a.
Proof. intros H. rewrite Zpower_Qpower by exact H. reflexivity. Qed.

Lemma log2_bounds (n : Z) :
  (0 < n)%Z -> 2 ^ Z.log2 n <= inject_Z n /\ inject_Z n < 2 ^ (Z.log2 n + 1).
Proof.
  intros Hn. destruct (Z.log2_spec n Hn) as (Hlo & Hhi).
  pose proof (Z.log2_nonneg n) as Hnonneg.
  split.
  - rewrite <- pow2_inject by exact Hnonneg. rewrite <- Zle_Qle. exact Hlo.
  - rewrite <- pow2_inject by lia. rewrite <- Zlt_Qlt.
    replace (Z.log2 n + 1)%Z with (Z.succ (Z.log2 n)) by lia. exact Hhi.
Qed.

Lemma exponentOf_spec (q : Q) :
  0 < q -> 2 ^ exponentOf q <= q /\ q < 2 ^ (exponentOf q + 1).
Proof.
  intros Hq. destruct q as [n d].
  assert (Hn : (0 < n)%Z).
  { unfold Qlt in Hq. simpl in Hq. lia. }
  destruct (log2_bounds n Hn) as (Hn1 & Hn2).
  destruct (log2_bounds (Z.pos d) (Pos2Z.is_pos d)) as (Hd1 & Hd2).
  assert (Hval : n # d == inject_Z n / inject_Z (Z.pos d)) by apply Qmake_Qdiv.
  assert (Hdpos : 0 < inject_Z (Z.pos d)).
  { change 0 with (inject_Z 0). rewrite <- Zlt_Qlt. apply Pos2Z.is_pos. }
  unfold exponentOf. cbn [Qnum Qden].
  set (a := Z.log2 n) in *. set (b := Z.log2 (Z.pos d)) in *.
  pose proof (pow2_pos a) as Ha. pose proof (pow2_pos b) as Hb.
  pose proof (pow2_pos (a - b)) as Hab.
  assert (Hsplit : 2 ^ a == 2 ^ (a - b) * 2 ^ b).
  { rewrite <- pow2_add. replace (a - b + b)%Z with a by lia. reflexivity. }
  assert (Hq' : (n # d) * inject_Z (Z.pos d) == inject_Z n).
  { rewrite Hval. field. lra. }
  set (x := n # d) in *. set (nn := inject_Z n) in *.
  set (dd := inject_Z (Z.pos d)) in *.
  rewrite pow2_succ in Hn2, Hd2.
  destruct (Qltb x (2 ^ (a - b))) eqn:Hcmp.
  - apply Qltb_lt in Hcmp. split.
    + assert (Hhalf : 2 ^ (a - b - 1 + 1) == 2 * 2 ^ (a - b - 1)) by apply pow2_succ.
      replace (a - b - 1 + 1)%Z with (a - b)%Z in Hhalf by lia.
      set (h := 2 ^ (a - b - 1)) in *.
      (* h * 2 * 2^b = 2^a <= nn = x * dd < x * 2 * 2^b *)
      assert (H1 : h * (2 * 2 ^ b) <= x * dd).
      { rewrite Hq'. rewrite Hsplit in Hn1. rewrite Hhalf in Hn1. lra. }
      assert (H2 : 0 < x) by exact Hq.
      apply Qnot_lt_le. intros Hcontra.
      assert (H3 : x * dd < h * (2 * 2 ^ b)).
      { apply Qlt_trans with (x * (2 * 2 ^ b)).
        - apply Qmult_lt_l; [exact H2|exact Hd2].
        - apply Qmult_lt_r; [lra|exact Hcontra]. }
      lra.
    + replace (a - b - 1 + 1)%Z with (a - b)%Z by lia. exact Hcmp.
  - apply Qltb_ge in Hcmp. split; [exact Hcmp|].
    rewrite pow2_succ. apply Qnot_le_lt. intros Hcontra.
    (* x * dd = nn < 2 * 2^a = 2 * 2^(a-b) * 2^b <= x * 2^b <= x * dd *)
    assert (H1 : 2 * 2 ^ (a - b) * 2 ^ b <= x * dd).
    { apply Qle_trans with (x * 2 ^ b).
      - apply Qmult_le_compat_r; [exact Hcontra|lra].
      - apply Qmult_le_l; [exact Hq|exact Hd1]. }
    rewrite Hq' in H1. rewrite Hsplit in Hn2. lra.
Qed.

Lemma nearestEven_bounds (t : Q) :
  (Qfloor t <= nearestEven t)%Z /\
  inject_Z (nearestEven t) - (1 # 2) <= t /\ t <= inject_Z (nearestEven t) + (1 # 2).
Proof.
  unfold nearestEven.
  pose proof (Qfloor_le t) as Hlo. pose proof (Qlt_floor t) as Hhi.
  rewrite inject_Z_plus in Hhi. change (inject_Z 1) with 1 in Hhi.
  destruct (t - inject_Z (Qfloor t) ?= 1 # 2) eqn:Hcmp.
  - apply Qeq_alt in Hcmp.
    destruct (Z.even (Qfloor t)).
    + split; [lia|]. split; lra.
    + split; [lia|]. rewrite inject_Z_plus. change (inject_Z 1) with 1.
      split; lra.
  - apply Qlt_alt in Hcmp. split; [lia|]. split; lra.
  - apply Qgt_alt in Hcmp. split; [lia|].
    rewrite inject_Z_plus. change (inject_Z 1) with 1. split; lra.
Qed.

Lemma spacing_pos (q : Q) : 0 < spacing q.
Proof. apply pow2_pos. Qed.

(** In the normal range the spacing is 2^-52 of the number at most. *)
Lemma spacing_normal (q : Q) :
  2 ^ (-1022) <= q -> spacing q <= q * 2 ^ (-52).
Proof.
  intros Hq.
  assert (Hpos : 0 < q) by (pose proof (pow2_pos (-1022)); lra).
  destruct (exponentOf_spec q Hpos) as (Hlo & Hhi).
  assert (Hexp : (-1022 <= exponentOf q)%Z).
  { assert (H : (-1022 < exponentOf q + 1)%Z)
      by (apply pow2_lt_inv; lra).
    lia. }
  unfold spacing. rewrite Z.max_l by lia.
  replace (exponentOf q - 52)%Z with (exponentOf q + -52)%Z by lia.
  rewrite pow2_add. pose proof (pow2_pos (-52)) as H52.
  apply Qmult_le_compat_r; [exact Hlo|lra].
Qed.

(** Everywhere it is that, or 2^-1074. *)
Lemma spacing_any (q : Q) :
  0 < q -> spacing q <= q * 2 ^ (-52) + 2 ^ (-1074).
Proof.
  intros Hpos.
  destruct (exponentOf_spec q Hpos) as (Hlo & Hhi).
  pose proof (pow2_pos (-52)) as H52. pose proof (pow2_pos (-1074)) as Hmin.
  assert (Hprod : 0 <= q * 2 ^ (-52)) by (apply Qmult_le_0_compat; lra).
  unfold spacing.
  destruct (Z.max_spec (exponentOf q - 52) (-1074)) as [(_ & ->)|(_ & ->)].
  - lra.
  - replace (exponentOf q - 52)%Z with (exponentOf q + -52)%Z by lia.
    rewrite pow2_add.
    assert (H : 2 ^ exponentOf q * 2 ^ (-52) <= q * 2 ^ (-52))
      by (apply Qmult_le_compat_r; [exact Hlo|lra]).
    lra.
Qed.

(** What [binary64] does to a positive number: it moves it by half the
    spacing at most, and gives the infinity from 2^1024 on. *)
Lemma binary64_positive (q : Q) :
  0 < q ->
  exists y,
    q - spacing q / 2 <= y /\ y <= q + spacing q / 2 /\
    y == inject_Z (nearestEven (q / spacing q)) * spacing q /\
    ((binary64 q = PInf /\ 2 ^ 1024 <= y) \/
     (exists r, binary64 q = Fin r /\ r == y /\ y < 2 ^ 1024)).
Proof.
  intros Hpos. pose proof (spacing_pos q) as Hunit.
  exists (inject_Z (nearestEven (q / spacing q)) * spacing q).
  destruct (nearestEven_bounds (q / spacing q)) as (_ & Hlo & Hhi).
  assert (Hq : q / spacing q * spacing q == q) by (field; lra).
  set (t := q / spacing q) in *. set (m := inject_Z (nearestEven t)) in *.
  assert (H1 : (m - (1 # 2)) * spacing q <= t * spacing q)
    by (apply Qmult_le_compat_r; lra).
  assert (H2 : t * spacing q <= (m + (1 # 2)) * spacing q)
    by (apply Qmult_le_compat_r; lra).
  assert (E1 : (m - (1 # 2)) * spacing q == m * spacing q - spacing q / 2)
    by field.
  assert (E2 : (m + (1 # 2)) * spacing q == m * spacing q + spacing q / 2)
    by field.
  rewrite E1 in H1. rewrite E2 in H2. rewrite Hq in H1, H2.
  split; [lra|]. split; [lra|]. split; [reflexivity|].
  unfold binary64.
  assert (Hnz : Qeq_bool q 0 = false).
  { apply not_true_iff_false. rewrite Qeq_bool_iff. lra. }
  assert (Hsign : Qltb q 0 = false) by (apply Qltb_ge; lra).
  assert (Habs : Qabs q == q) by (apply Qabs_pos; lra).
  rewrite Hnz, Hsign. cbv zeta.
  assert (Hsame : inject_Z (nearestEven (Qabs q / spacing (Qabs q)))
                  * spacing (Qabs q) == m * spacing q).
  { unfold m, t. destruct q as [n d]. destruct n as [|n|n]; try reflexivity.
    unfold Qlt in Hpos. simpl in Hpos. lia. }
  destruct (Qle_bool (2 ^ 1024)
              (inject_Z (nearestEven (Qabs q / spacing (Qabs q)))
               * spacing (Qabs q))) eqn:Hover.
  - left. apply Qle_bool_iff in Hover. rewrite Hsame in Hover.
    split; [reflexivity|exact Hover].
  - right. eexists. split; [reflexivity|].
    apply not_true_iff_false in Hover. rewrite Qle_bool_iff in Hover.
    rewrite Hsame in Hover. rewrite Qred_correct. split; [exact Hsame|].
    apply Qnot_le_lt. exact Hover.
Qed.

Lemma half_spacing : 2 ^ (-52) == 2 * 2 ^ (-53).
Proof. reflexivity. Qed.

(** In the normal range [binary64] is within 2^-53 of the number, as a
    part of it. *)
Lemma binary64_normal (q : Q) :
  2 ^ (-1022) <= q ->
  binary64 q = PInf \/
  exists r, binary64 q = Fin r /\
            q - q * 2 ^ (-53) <= r /\ r <= q + q * 2 ^ (-53).
Proof.
  intros Hq. pose proof (pow2_pos (-1022)) as Hmin.
  pose proof (spacing_normal q Hq) as Hs. rewrite half_spacing in Hs.
  destruct (binary64_positive q) as (y & Hlo & Hhi & _ & [(Hinf & _)|Hfin]);
    [lra|left; exact Hinf|].
  destruct Hfin as (r & Hr & Hry & _). right. exists r.
  split; [exact Hr|]. rewrite Hry.
  set (u := 2 ^ (-53)) in *. clearbody u.
  assert (Hhalf : spacing q / 2 <= q * u).
  { apply Qle_shift_div_r; [reflexivity|]. lra. }
  split; lra.
Qed.

Lemma splitDistances_done (fuel : nat) (d c : Q) (i : number) :
  d <= c -> splitDistances fuel d i (Fin c) = Some [].
Proof.
  intros Hend. apply Qltb_ge in Hend.
  destruct fuel; cbn [splitDistances ltb]; rewrite Hend; reflexivity.
Qed.

(** One turn: the sum is not absorbed. *)
Lemma advance64_gain (d i c : Q) :
  2 ^ (-1022) <= i -> 0 <= c -> c < d ->
  exists c',
    advance64 d (Fin i) (Fin c) = Fin c' /\ c' <= d /\
    (d <= c' \/ c + i - (c + i) * 2 ^ (-53) <= c').
Proof.
  intros Hi Hc Hcd. unfold advance64. cbn [add round64].
  destruct (binary64_normal (c + i)) as [Hinf|(r & Hr & Hlo & _)]; [lra| |].
  - rewrite Hinf. cbn [gtb ltb]. exists d.
    split; [reflexivity|]. split; [apply Qle_refl|left; apply Qle_refl].
  - rewrite Hr. cbn [gtb ltb]. destruct (Qltb d r) eqn:Hcap.
    + exists d. split; [reflexivity|].
      split; [apply Qle_refl|left; apply Qle_refl].
    + apply Qltb_ge in Hcap. exists r. split; [reflexivity|].
      split; [exact Hcap|right; exact Hlo].
Qed.

Lemma inject_succ (n : nat) :
  inject_Z (Z.of_nat (S n)) == inject_Z (Z.of_nat n) + 1.
Proof.
  rewrite Nat2Z.inj_succ. unfold Z.succ. rewrite inject_Z_plus. reflexivity.
Qed.

(** The loop is left within [turns] turns when each turn gains [gain]. *)
Lemma splitDistances_within (d i gain : Q) :
  2 ^ (-1022) <= i -> 0 < gain -> gain <= i - (d + i) * 2 ^ (-53) ->
  forall (turns fuel : nat) (c : Q),
    0 <= c -> c <= d ->
    d - c <= inject_Z (Z.of_nat turns) * gain ->
    (turns <= fuel)%nat ->
    exists rows,
      splitDistances fuel d (Fin i) (Fin c) = Some rows /\
      (List.length rows <= turns)%nat.
Proof.
  intros Hi Hgain Hbound. pose proof (pow2_pos (-53)) as Hu.
  induction turns as [|turns IH]; intros fuel c Hc Hcd Hleft Hfuel.
  - change (inject_Z (Z.of_nat 0)) with 0 in Hleft.
    exists []. split; [apply splitDistances_done; lra|reflexivity].
  - destruct (Qlt_le_dec c d) as [Hlt|Hge].
    + destruct fuel as [|fuel]; [lia|].
      cbn [splitDistances ltb]. apply Qltb_lt in Hlt. rewrite Hlt.
      apply Qltb_lt in Hlt.
      destruct (advance64_gain d i c Hi Hc Hlt) as (c' & Hadv & Hcap & Hstep).
      rewrite Hadv. rewrite inject_succ in Hleft.
      assert (Hless : (c + i) * 2 ^ (-53) <= (d + i) * 2 ^ (-53))
        by (apply Qmult_le_compat_r; lra).
      destruct Hstep as [Hdone|Hmore].
      * rewrite (splitDistances_done fuel d c' (Fin i) Hdone).
        exists [Fin c']. split; [reflexivity|]. cbn. lia.
      * destruct (IH fuel c') as (rows & Hrows & Hlen);
          [lra|exact Hcap|lra|lia|].
        rewrite Hrows. exists (Fin c' :: rows).
        split; [reflexivity|]. cbn [List.length]. lia.
    + exists []. split; [apply splitDistances_done; exact Hge|cbn; lia].
Qed.

(** With [turns] at most 2^26.5, a turn gains at least an interval less
    its rounding, and [turns] such gains cover the distance. *)
Lemma gain_covers (d i : Q) (turns : Z) :
  0 < d -> 0 < i ->
  d <= inject_Z (turns - 1) * i ->
  (turns * turns <= 2 ^ 53)%Z ->
  0 < i - (d + i) * 2 ^ (-53) /\
  d <= inject_Z turns * (i - (d + i) * 2 ^ (-53)).
Proof.
  intros Hd Hi Hcover Hsmall.
  rewrite inject_Z_pred in Hcover.
  assert (Hsquare : inject_Z turns * inject_Z turns * 2 ^ (-53) <= 1).
  { rewrite <- inject_Z_mult.
    assert (H : inject_Z (turns * turns) <= inject_Z (2 ^ 53))
      by (rewrite <- Zle_Qle; exact Hsmall).
    assert (Hone : inject_Z (2 ^ 53) * 2 ^ (-53) == 1) by reflexivity.
    pose proof (pow2_pos (-53)) as Hu.
    assert (H' : inject_Z (turns * turns) * 2 ^ (-53)
                 <= inject_Z (2 ^ 53) * 2 ^ (-53))
      by (apply Qmult_le_compat_r; lra).
    lra. }
  set (n := inject_Z turns) in *. set (u := 2 ^ (-53)) in *.
  assert (Hu : 0 < u) by apply pow2_pos. clearbody n u.
  assert (Hn : 1 < n).
  { apply Qnot_le_lt. intros Hle.
    assert (H : (n - 1) * i <= 0 * i) by (apply Qmult_le_compat_r; lra).
    lra. }
  (* a = n * i * u, with n * a <= i *)
  assert (Ha : n * (n * i * u) <= i).
  { assert (H : n * n * u * i <= 1 * i) by (apply Qmult_le_compat_r; lra).
    assert (E : n * (n * i * u) == n * n * u * i) by ring. lra. }
  assert (Hdi : (d + i) * u <= n * i * u).
  { apply Qmult_le_compat_r; [|lra].
    assert (E' : (n - 1) * i == n * i - i) by ring. lra. }
  assert (Hpos : 0 < n * i * u).
  { apply Qmult_lt_0_compat; [|exact Hu].
    apply Qmult_lt_0_compat; lra. }
  assert (Hsmall' : n * i * u < n * (n * i * u)).
  { assert (H : 1 * (n * i * u) < n * (n * i * u))
      by (apply Qmult_lt_r; lra).
    lra. }
  split; [lra|].
  assert (E1 : n * (i - (d + i) * u) == n * i - n * ((d + i) * u)) by ring.
  assert (H1 : n * ((d + i) * u) <= n * (n * i * u))
    by (apply Qmult_le_l; lra).
  assert (E2 : (n - 1) * i == n * i - i) by ring.
  lra.
Qed.

(** [binary64] never brings a number that is 100 or more below 100. *)
Lemma binary64_hundred (q : Q) :
  100 <= q ->
  binary64 q = PInf \/ exists r, binary64 q = Fin r /\ 100 <= r.
Proof.
  intros Hq. destruct (Qlt_le_dec q 128) as [Hsmall|Hlarge].
  - assert (Hpos : 0 < q) by lra.
    destruct (exponentOf_spec q Hpos) as (Hlo & Hhi).
    assert (Hexp : exponentOf q = 6%Z).
    { assert (H1 : (exponentOf q < 7)%Z).
      { apply pow2_lt_inv. change (2 ^ 7) with 128. lra. }
      assert (H2 : (6 < exponentOf q + 1)%Z).
      { apply pow2_lt_inv. change (2 ^ 6) with 64. lra. }
      lia. }
    assert (Hunit : spacing q = 2 ^ (-46)).
    { unfold spacing. rewrite Hexp. reflexivity. }
    destruct (binary64_positive q Hpos)
      as (y & _ & _ & Hy & [(Hinf & _)|(r & Hr & Hry & _)]);
      [left; exact Hinf|].
    right. exists r. split; [exact Hr|]. rewrite Hry, Hy, Hunit.
    destruct (nearestEven_bounds (q / 2 ^ (-46))) as (Hfloor & _).
    assert (Hgrid : (Qfloor (100 / 2 ^ (-46)) <= Qfloor (q / 2 ^ (-46)))%Z).
    { apply Qfloor_resp_le. apply Qmult_le_compat_r; [exact Hq|].
      apply Qlt_le_weak. apply Qinv_lt_0_compat. apply pow2_pos. }
    assert (Hm : inject_Z (Qfloor (100 / 2 ^ (-46)))
                 <= inject_Z (nearestEven (q / 2 ^ (-46)))).
    { rewrite <- Zle_Qle. lia. }
    assert (Hhundred : inject_Z (Qfloor (100 / 2 ^ (-46))) * 2 ^ (-46) == 100)
      by reflexivity.
    rewrite <- Hhundred. apply Qmult_le_compat_r; [exact Hm|].
    apply Qlt_le_weak. apply pow2_pos.
  - destruct (binary64_normal q) as [Hinf|(r & Hr & Hlo & _)].
    { apply Qle_trans with 128; [discriminate|exact Hlarge]. }
    + left. exact Hinf.
    + right. exists r. split; [exact Hr|].
      assert (Hu : 2 ^ (-53) <= 1 # 8) by discriminate.
      assert (H : q * 2 ^ (-53) <= q * (1 # 8))
        by (apply Qmult_le_l; [lra|exact Hu]).
      lra.
Qed.

(** Nor a number below 90 up to 100. *)
Lemma binary64_ninety (q r : Q) :
  0 < q -> binary64 q = Fin r -> 100 <= r -> 90 <= q.
Proof.
  intros Hq Hr Hbig.
  destruct (binary64_positive q Hq)
    as (y & _ & Hhi & _ & [(Hinf & _)|(r' & Hr' & Hry & _)]);
    [congruence|].
  rewrite Hr in Hr'. injection Hr' as <-.
  pose proof (spacing_any q Hq) as Hs.
  assert (Hu : 2 ^ (-52) <= 1 # 100) by discriminate.
  assert (Htiny : 2 ^ (-1074) <= 1) by discriminate.
  assert (H : q * 2 ^ (-52) <= q * (1 # 100))
    by (apply Qmult_le_l; [lra|exact Hu]).
  assert (Hhalf : spacing q / 2 <= spacing q).
  { pose proof (spacing_pos q). apply Qle_shift_div_r; [reflexivity|]. lra. }
  lra.
Qed.

Lemma tooManySplits64_large (d q : Q) :
  0 < d -> 0 < q -> tooManySplits64 d (Fin q) = true -> 90 <= d / q.
Proof.
  intros Hd Hq. unfold tooManySplits64. cbn [div].
  assert (Hnz : Qeq_bool q 0 = false).
  { apply not_true_iff_false. rewrite Qeq_bool_iff. lra. }
  rewrite Hnz. cbn [round64].
  assert (Hpos : 0 < d / q) by (apply Qlt_shift_div_l; lra).
  destruct (binary64_positive (d / q) Hpos)
    as (y & _ & Hhi & _ & [(Hinf & Hy)|(r & Hr & Hry & _)]).
  - intros _. pose proof (spacing_any (d / q) Hpos) as Hs.
    assert (Hbig : 100 <= 2 ^ 1024) by discriminate.
    assert (Hu : 2 ^ (-52) <= 1 # 100) by discriminate.
    assert (Htiny : 2 ^ (-1074) <= 1) by discriminate.
    assert (H : d / q * 2 ^ (-52) <= d / q * (1 # 100))
      by (apply Qmult_le_l; [lra|exact Hu]).
    assert (Hhalf : spacing (d / q) / 2 <= spacing (d / q)).
    { pose proof (spacing_pos (d / q)).
      apply Qle_shift_div_r; [reflexivity|]. lra. }
    lra.
  - rewrite Hr. cbn [floor ofIntegral geb leb]. intros Htest.
    apply Qle_bool_iff in Htest.
    apply (binary64_ninety (d / q) r Hpos Hr).
    apply Qle_trans with (inject_Z (Qfloor r)); [exact Htest|apply Qfloor_le].
Qed.

Lemma tooManySplits64_small (d q : Q) :
  0 < d -> 0 < q -> tooManySplits64 d (Fin q) = false -> d / q < 100.
Proof.
  intros Hd Hq Htest. apply Qnot_le_lt. intros Hbig.
  unfold tooManySplits64 in Htest. cbn [div] in Htest.
  assert (Hnz : Qeq_bool q 0 = false).
  { apply not_true_iff_false. rewrite Qeq_bool_iff. lra. }
  rewrite Hnz in Htest. cbn [round64] in Htest.
  destruct (binary64_hundred (d / q) Hbig) as [Hinf|(r & Hr & Hr100)].
  - rewrite Hinf in Htest. discriminate.
  - rewrite Hr in Htest. cbn [floor ofIntegral geb leb] in Htest.
    apply not_true_iff_false in Htest. apply Htest. apply Qle_bool_iff.
    change 100 with (inject_Z 100). rewrite <- Zle_Qle.
    change 100%Z with (Qfloor 100). apply Qfloor_resp_le. exact Hr100.
Qed.

Lemma growInterval64_infinite (fuel : nat) (d : Q) :
  growInterval64 fuel d PInf = Some PInf.
Proof. destruct fuel; reflexivity. Qed.

(** The first loop of [calculateSmartSplits] is left, each pass bringing
    the whole number of intervals down. *)
Lemma growInterval64_returns (d : Q) :
  0 < d ->
  forall (fuel : nat) (q : Q),
    2 ^ (-1022) <= q ->
    (Qfloor (d / q) < Z.of_nat fuel)%Z ->
    exists j,
      growInterval64 fuel d (Fin q) = Some j /\
      tooManySplits64 d j = false /\
      (j = PInf \/ exists q', j = Fin q' /\ q <= q' /\ d / q' < 100).
Proof.
  intros Hd. pose proof (pow2_pos (-1022)) as Hmin.
  induction fuel as [|fuel IH]; intros q Hq Hfuel;
    cbn [growInterval64];
    destruct (tooManySplits64 d (Fin q)) eqn:Htest;
    try (exists (Fin q); split; [reflexivity|]; split; [exact Htest|];
         right; exists q;
         split; [reflexivity|]; split; [apply Qle_refl|];
         apply tooManySplits64_small; [exact Hd|lra|exact Htest]).
  - apply tooManySplits64_large in Htest; [|exact Hd|lra].
    assert (H : (Qfloor 90 <= Qfloor (d / q))%Z)
      by (apply Qfloor_resp_le; exact Htest).
    change (Qfloor 90) with 90%Z in H. change (Z.of_nat 0) with 0%Z in Hfuel.
    lia.
  - apply tooManySplits64_large in Htest; [|exact Hd|lra].
    cbn [mul round64].
    destruct (binary64_normal (q * 10)) as [Hinf|(r & Hr & Hlo & _)]; [lra| |].
    + rewrite Hinf, growInterval64_infinite. exists PInf.
      split; [reflexivity|]. split; [reflexivity|left; reflexivity].
    + rewrite Hr.
      assert (Hu : 2 ^ (-53) <= 1 # 10) by discriminate.
      assert (Hloss : q * 10 * 2 ^ (-53) <= q * 10 * (1 # 10))
        by (apply Qmult_le_l; [lra|exact Hu]).
      assert (Hnine : 9 * q <= r) by lra.
      assert (Hless : d / r <= d / q - 1).
      { apply Qle_shift_div_r; [lra|].
        assert (E : d / q * q == d) by (field; lra).
        assert (H1 : (d / q - 1) * (9 * q) <= (d / q - 1) * r)
          by (apply Qmult_le_l; lra).
        assert (E2 : (d / q - 1) * (9 * q) == 9 * (d / q * q) - 9 * q) by ring.
        assert (H90 : 90 * q <= d / q * q)
          by (apply Qmult_le_compat_r; lra).
        rewrite E in E2, H90. lra. }
      destruct (IH r) as (j & Hj & Hleft & Hcases).
      * lra.
      * pose proof (Qfloor_le (d / r)) as H1.
        pose proof (Qlt_floor (d / q)) as H2.
        rewrite inject_Z_plus in H2. change (inject_Z 1) with 1 in H2.
        assert (H3 : inject_Z (Qfloor (d / r)) < inject_Z (Qfloor (d / q)))
          by lra.
        rewrite <- Zlt_Qlt in H3. lia.
      * exists j. split; [exact Hj|]. split; [exact Hleft|].
        destruct Hcases as [->|(q' & -> & Hq' & Hfew)]; [left; reflexivity|].
        right. exists q'. split; [reflexivity|]. split; [lra|exact Hfew].
Qed.

(** C10, amended.  In binary64, for a positive total distance and an
    interval that is a normal number (at least 2^-1022): write [turns] for
    ceil(distance / interval) + 1.  While [turns] squared is at most 2^53,
    each turn of the split loop of [calculateCustomSplits] and of
    [calculateSmartSplits] moves the cumulative distance strictly forward
    and never past the total, and the loop is left after at most [turns]
    turns, one row per turn.  The loop of [calculateSmartSplits] that
    multiplies the interval by ten is left within
    floor(distance / interval) + 1 turns, with fewer than 100 whole splits
    left, and [calculateSmartSplits] then returns at most 101 rows.  Fuel
    only bounds the turns: any amount above the bound gives the result. *)
Theorem split_loops_terminate_binary64 (distanceMetres splitIntervalMetres : Q) :
  0 < distanceMetres -> 2 ^ (-1022) <= splitIntervalMetres ->
  let turns := (Qceiling (distanceMetres / splitIntervalMetres) + 1)%Z in
  ((turns * turns <= 2 ^ 53)%Z ->
   (forall cur, 0 <= cur -> cur < distanceMetres ->
      exists next,
        advance64 distanceMetres (Fin splitIntervalMetres) (Fin cur)
          = Fin next /\
        cur < next /\ next <= distanceMetres) /\
   (forall fuel, (Z.to_nat turns <= fuel)%nat ->
      exists rows,
        customSplitDistances fuel distanceMetres splitIntervalMetres
          = Some rows /\
        (List.length rows <= Z.to_nat turns)%nat)) /\
  (forall fuel,
     (Z.to_nat (Qfloor (distanceMetres / splitIntervalMetres)) < fuel)%nat ->
     exists grown,
       growInterval64 fuel distanceMetres (Fin splitIntervalMetres)
         = Some grown /\
       tooManySplits64 distanceMetres grown = false) /\
  (forall fuel,
     (Z.to_nat (Qfloor (distanceMetres / splitIntervalMetres)) < fuel)%nat ->
     (101 <= fuel)%nat ->
     exists rows,
       smartSplitDistances fuel distanceMetres splitIntervalMetres = Some rows /\
       (List.length rows <= 101)%nat).
Proof.
  intros Hd Hi total. pose proof (pow2_pos (-1022)) as Hmin.
  assert (Hipos : 0 < splitIntervalMetres) by lra.
  assert (Hwithin : forall q (turns : Z),
            2 ^ (-1022) <= q ->
            turns = (Qceiling (distanceMetres / q) + 1)%Z ->
            (turns * turns <= 2 ^ 53)%Z ->
            0 < q - (distanceMetres + q) * 2 ^ (-53) /\
            forall fuel, (Z.to_nat turns <= fuel)%nat ->
              exists rows,
                splitDistances fuel distanceMetres (Fin q) (Fin 0) = Some rows /\
                (List.length rows <= Z.to_nat turns)%nat).
  { intros q turns Hq Hturns Hsmall.
    assert (Hqpos : 0 < q) by lra.
    assert (Hratio : 0 < distanceMetres / q) by (apply Qlt_shift_div_l; lra).
    pose proof (Qceiling_pos _ Hratio) as Hceil.
    pose proof (Qle_ceiling (distanceMetres / q)) as Hup.
    assert (Hcover : distanceMetres <= inject_Z (turns - 1) * q).
    { replace (turns - 1)%Z with (Qceiling (distanceMetres / q)) by lia.
      assert (E : distanceMetres / q * q == distanceMetres) by (field; lra).
      assert (H : distanceMetres / q * q
                  <= inject_Z (Qceiling (distanceMetres / q)) * q)
        by (apply Qmult_le_compat_r; lra).
      lra. }
    destruct (gain_covers distanceMetres q turns Hd Hqpos Hcover Hsmall)
      as (Hgain & Hall).
    split; [exact Hgain|]. intros fuel Hfuel.
    apply (splitDistances_within distanceMetres q
             (q - (distanceMetres + q) * 2 ^ (-53)) Hq Hgain (Qle_refl _)
             (Z.to_nat turns) fuel 0).
    - apply Qle_refl.
    - lra.
    - rewrite Z2Nat.id by lia. lra.
    - exact Hfuel. }
  assert (Hgrow : forall fuel,
            (Z.to_nat (Qfloor (distanceMetres / splitIntervalMetres)) < fuel)%nat ->
            exists j,
              growInterval64 fuel distanceMetres (Fin splitIntervalMetres)
                = Some j /\
              tooManySplits64 distanceMetres j = false /\
              (j = PInf \/
               exists q', j = Fin q' /\ splitIntervalMetres <= q' /\
                          distanceMetres / q' < 100)).
  { intros fuel Hfuel.
    apply growInterval64_returns; [exact Hd|exact Hi|lia]. }
  split; [|split].
  - intros Hsmall.
    destruct (Hwithin splitIntervalMetres total Hi eq_refl Hsmall)
      as (Hgain & Hrows).
    split; [|exact Hrows].
    intros cur Hcur Hleft.
    destruct (advance64_gain distanceMetres splitIntervalMetres cur Hi Hcur Hleft)
      as (next & Hnext & Hcap & Hstep).
    exists next. split; [exact Hnext|]. split; [|exact Hcap].
    pose proof (pow2_pos (-53)) as Hu.
    assert (Hless : (cur + splitIntervalMetres) * 2 ^ (-53)
                    <= (distanceMetres + splitIntervalMetres) * 2 ^ (-53))
      by (apply Qmult_le_compat_r; lra).
    destruct Hstep as [Hdone|Hmore]; lra.
  - intros fuel Hfuel. destruct (Hgrow fuel Hfuel) as (j & Hj & Hleft & _).
    exists j. split; [exact Hj|exact Hleft].
  - intros fuel Hfuel Hhundred.
    destruct (Hgrow fuel Hfuel) as (j & Hj & _ & Hcases).
    unfold smartSplitDistances. rewrite Hj.
    destruct Hcases as [->|(q' & -> & Hq' & Hfew)].
    + destruct fuel as [|fuel]; [lia|].
      cbn [splitDistances ltb]. apply Qltb_lt in Hd. rewrite Hd.
      apply Qltb_lt in Hd.
      assert (Hstep : advance64 distanceMetres PInf (Fin 0) = Fin distanceMetres)
        by reflexivity.
      rewrite Hstep, (splitDistances_done fuel _ _ _ (Qle_refl _)).
      eexists. split; [reflexivity|]. cbn. lia.
    + assert (Hq'pos : 0 < q') by lra.
      assert (Hratio : 0 < distanceMetres / q')
        by (apply Qlt_shift_div_l; lra).
      pose proof (Qceiling_pos _ Hratio) as Hceil.
      assert (Hceil' : (Qceiling (distanceMetres / q') <= Qceiling 100)%Z)
        by (apply Qceiling_resp_le; lra).
      change (Qceiling 100) with 100%Z in Hceil'.
      destruct (Hwithin q' (Qceiling (distanceMetres / q') + 1)%Z)
        as (_ & Hrows); [lra|reflexivity|nia|].
      destruct (Hrows fuel) as (rows & Hrun & Hlen); [lia|].
      exists rows. split; [exact Hrun|]. lia.
Qed.

(** 110 m in steps of 1.1 m, as the page asks for them: within 101 turns
    in both functions. *)
Lemma split_loops_terminate_binary64_witness :
  (exists rows,
     customSplitDistances 101 110 (literal 1.1) = Some rows /\
     (List.length rows <= 101)%nat) /\
  (exists rows,
     smartSplitDistances 101 110 (literal 1.1) = Some rows /\
     (List.length rows <= 101)%nat).
Proof.
  destruct (split_loops_terminate_binary64 110 (literal 1.1))
    as (Hcustom & _ & Hsmart);
    [reflexivity|apply Qle_bool_imp_le; vm_compute; reflexivity|].
  split.
  - destruct Hcustom as (_ & Hrows); [vm_compute; discriminate|].
    apply (Hrows 101%nat). vm_compute. lia.
  - apply (Hsmart 101%nat); vm_compute; lia.
Defined.

(** C10, as stated, fails.  110 m in steps of 1.1 m: the sums fall short
    of the multiples of 1.1, the hundredth stops under 110, and the loop
    takes a turn more than ceil(distance / interval): 101 rows, in
    [calculateSmartSplits] too.  And a turn need not move forward:
    at 2^53 an interval of 1 m is lost in the sum, so that a loop that
    comes there stays there. *)
Lemma split_loop_one_more_turn :
  Qceiling (110 / literal 1.1) = 100%Z /\
  List.length <$> customSplitDistances 200 110 (literal 1.1) = Some 101%nat /\
  List.length <$> smartSplitDistances 200 110 (literal 1.1) = Some 101%nat /\
  advance64 (2 ^ 54) (Fin 1) (Fin (2 ^ 53)) = Fin (2 ^ 53) /\
  (forall fuel, splitDistances fuel (2 ^ 54) (Fin 1) (Fin (2 ^ 53)) = None).
Proof.
  split; [vm_compute; reflexivity|].
  split; [vm_compute; reflexivity|].
  split; [vm_compute; reflexivity|].
  assert (Hstep : advance64 (2 ^ 54) (Fin 1) (Fin (2 ^ 53)) = Fin (2 ^ 53))
    by (vm_compute; reflexivity).
  split; [exact Hstep|].
  assert (Hleft : ltb (Fin (2 ^ 53)) (Fin (2 ^ 54)) = true)
    by (vm_compute; reflexivity).
  induction fuel as [|fuel IH]; cbn [splitDistances]; rewrite Hleft;
    [reflexivity|].
  rewrite Hstep, IH. reflexivity.
Qed.

End SplitTurnProperties.
